(** * HindiC: a shallow embedding of the lexer, parser, semantic analyzer
      and C emitter, with the properties of the specification stated
      against it.

    Conventions of the embedding.

    - A C [char] is a byte, kept as its unsigned value in [Z]
      (0..255); [schar] gives the value a comparison sees when [char] is
      signed, [uchar] is the cast [(unsigned char)].
    - The source text is a [list Z] of bytes; the terminating NUL is the
      byte read at index [length src].
    - A [const char *] is a [Ptr]: an offset into the source buffer, or a
      string literal of the program (the message of an error token).
    - An [int] is a [Z]; [int_succ] is [x + 1] on 32 bits.
    - An [AstNode *] is an [option AstNode]; reading a field through
      [None] is a null pointer dereference, which ends the run. *)

From Stdlib Require Import ZArith List Bool Lia String Ascii.
Import ListNotations.
Open Scope Z_scope.

(* ================================================================= *)
(** ** Bytes, integers and C strings *)

Definition INT_MAX : Z := 2147483647.
Definition INT_MIN : Z := -2147483648.

Definition wrap_int (z : Z) : Z := (z - INT_MIN) mod 4294967296 + INT_MIN.

Definition int_succ (z : Z) : Z := wrap_int (z + 1).
Definition int_pred (z : Z) : Z := wrap_int (z - 1).
Definition int_sub (a b : Z) : Z := wrap_int (a - b).

Definition schar (b : Z) : Z := if b <? 128 then b else b - 256.
Definition uchar (b : Z) : Z := b mod 256.

Definition bytes_of_string (s : string) : list Z :=
  map (fun a => Z.of_nat (nat_of_ascii a)) (list_ascii_of_string s).

(** The bytes from [l] up to the first NUL: what [strlen], [strcpy],
    [strcmp], [strchr] and [%s] see. *)
Fixpoint until_nul (l : list Z) : list Z :=
  match l with
  | [] => []
  | b :: l' => if b =? 0 then [] else b :: until_nul l'
  end.

Fixpoint bytes_eqb (a b : list Z) : bool :=
  match a, b with
  | [], [] => true
  | x :: a', y :: b' => (x =? y) && bytes_eqb a' b'
  | _, _ => false
  end.

Inductive Ptr : Type :=
| SrcPtr (off : nat)
| LitPtr (msg : string).

(** The C string a pointer designates, in a memory whose source buffer
    is [src]. *)
Definition cstr (src : list Z) (p : Ptr) : list Z :=
  match p with
  | SrcPtr off => until_nul (skipn off src)
  | LitPtr msg => until_nul (bytes_of_string msg)
  end.

Definition ptr_add (p : Ptr) (n : nat) : Ptr :=
  match p with
  | SrcPtr off => SrcPtr (off + n)
  | LitPtr msg => LitPtr (string_of_list_ascii (skipn n (list_ascii_of_string msg)))
  end.

(** [strcmp(a, b) == 0] *)
Definition strcmp_eq (src : list Z) (a : list Z) (b : Ptr) : bool :=
  bytes_eqb (until_nul a) (cstr src b).

(** [strncmp(p, lit, n) == 0] *)
Definition strncmp_eq (src : list Z) (p : Ptr) (lit : list Z) (n : nat) : bool :=
  bytes_eqb (firstn n (cstr src p)) (firstn n (until_nul lit)).

(** [strchr(p, c) != NULL], for a [c] other than NUL *)
Definition strchr_found (src : list Z) (p : Ptr) (c : Z) : bool :=
  existsb (Z.eqb c) (cstr src p).

(** What [printf("%.*s", len, p)] writes: at most [len] bytes of the
    string at [p]; a negative precision is taken as if it were omitted. *)
Definition print_slice (src : list Z) (len : Z) (p : Ptr) : list Z :=
  if len <? 0 then cstr src p else firstn (Z.to_nat len) (cstr src p).

(* ================================================================= *)
(** ** include/lexer.h *)

Inductive TokenType : Type :=
| TOKEN_EOF
| TOKEN_INT | TOKEN_FLOAT | TOKEN_CHAR | TOKEN_VOID
| TOKEN_IF | TOKEN_ELSE | TOKEN_FOR | TOKEN_WHILE | TOKEN_DO
| TOKEN_BREAK | TOKEN_CONTINUE | TOKEN_RETURN
| TOKEN_IDENTIFIER | TOKEN_NUMBER | TOKEN_STRING
| TOKEN_PLUS | TOKEN_MINUS | TOKEN_MULTIPLY | TOKEN_DIVIDE | TOKEN_MODULO
| TOKEN_ASSIGN | TOKEN_EQUALS | TOKEN_NOT_EQUALS
| TOKEN_GREATER | TOKEN_LESS | TOKEN_GREATER_EQ | TOKEN_LESS_EQ
| TOKEN_AND | TOKEN_OR | TOKEN_NOT
| TOKEN_SEMICOLON | TOKEN_COMMA
| TOKEN_LPAREN | TOKEN_RPAREN | TOKEN_LBRACE | TOKEN_RBRACE
| TOKEN_ERROR.

Definition TokenType_eq_dec (a b : TokenType) : {a = b} + {a <> b}.
Proof. decide equality. Defined.

Definition tt_eqb (a b : TokenType) : bool :=
  if TokenType_eq_dec a b then true else false.

(** The [value] union of the C token is written by the lexer and read by
    no later stage; the embedding leaves it out. *)
Record Token : Type := mkToken {
  tk_type : TokenType;
  tk_start : Ptr;
  tk_length : Z;
  tk_line : Z;
  tk_column : Z
}.

(** [source] is the memory the two pointers point into; [start] and
    [current] are offsets in it. *)
Record Lexer : Type := mkLexer {
  source : list Z;
  start : nat;
  current : nat;
  line : Z;
  column : Z
}.

(* ================================================================= *)
(** ** src/lexer/lexer.c *)

Module Kw.
Definition k_int : list Z :=
  [224;164;170;224;165;130;224;164;176;224;165;141;
   224;164;163;224;164;190;224;164;130;224;164;149].
Definition k_float : list Z :=
  [224;164;166;224;164;182;224;164;174;224;164;178;224;164;181].
Definition k_char : list Z :=
  [224;164;181;224;164;176;224;165;141;224;164;163].
Definition k_void : list Z :=
  [224;164;182;224;165;130;224;164;168;224;165;141;224;164;175].
Definition k_if : list Z := [224;164;133;224;164;151;224;164;176].
Definition k_else : list Z :=
  [224;164;181;224;164;176;224;164;168;224;164;190].
Definition k_for : list Z := [224;164;166;224;165;140;224;164;176].
Definition k_while : list Z :=
  [224;164;156;224;164;172;224;164;164;224;164;149].
Definition k_do : list Z := [224;164;149;224;164;176;224;165;139].
Definition k_break : list Z :=
  [224;164;176;224;165;129;224;164;149;224;165;139].
Definition k_continue : list Z :=
  [224;164;156;224;164;190;224;164;176;224;165;128].
Definition k_return : list Z :=
  [224;164;181;224;164;190;224;164;170;224;164;184].
End Kw.

(** The UTF-8 bytes of the keyword table, in the order of the source. *)
Definition hindiKeywords : list (list Z * TokenType) :=
  [ (Kw.k_int, TOKEN_INT); (Kw.k_float, TOKEN_FLOAT);
    (Kw.k_char, TOKEN_CHAR); (Kw.k_void, TOKEN_VOID);
    (Kw.k_if, TOKEN_IF); (Kw.k_else, TOKEN_ELSE);
    (Kw.k_for, TOKEN_FOR); (Kw.k_while, TOKEN_WHILE);
    (Kw.k_do, TOKEN_DO); (Kw.k_break, TOKEN_BREAK);
    (Kw.k_continue, TOKEN_CONTINUE); (Kw.k_return, TOKEN_RETURN) ].

Definition initLexer (src : list Z) : Lexer :=
  mkLexer src 0 0 1 1.

Definition byte_at (src : list Z) (i : nat) : Z := nth i src 0.

Definition peek (lx : Lexer) : Z := byte_at (source lx) (current lx).

Definition isAtEnd (lx : Lexer) : bool := peek lx =? 0.

(** [advance] of the lexer: the byte read and the lexer after it. *)
Definition lex_advance (lx : Lexer) : Z * Lexer :=
  (peek lx,
   mkLexer (source lx) (start lx) (S (current lx)) (line lx)
           (int_succ (column lx))).

Definition peekNext (lx : Lexer) : Z :=
  if isAtEnd lx then 0 else byte_at (source lx) (S (current lx)).

Definition lex_match (lx : Lexer) (expected : Z) : bool * Lexer :=
  if isAtEnd lx then (false, lx)
  else if negb (peek lx =? expected) then (false, lx)
  else (true, mkLexer (source lx) (start lx) (S (current lx)) (line lx)
                      (int_succ (column lx))).

Definition makeToken (lx : Lexer) (ty : TokenType) : Token :=
  let len := Z.of_nat (current lx - start lx) in
  mkToken ty (SrcPtr (start lx)) len (line lx) (int_sub (column lx) len).

Definition errorToken (lx : Lexer) (message : string) : Token :=
  mkToken TOKEN_ERROR (LitPtr message)
          (Z.of_nat (List.length (until_nul (bytes_of_string message))))
          (line lx) (column lx).

Definition set_line_column (lx : Lexer) (l c : Z) : Lexer :=
  mkLexer (source lx) (start lx) (current lx) l c.

(** [while (cond(peek)) advance;] The loop stops at the terminating
    NUL for each condition the lexer uses; [fuel] bounds the model. *)
Fixpoint advance_while (cond : Z -> bool) (fuel : nat) (lx : Lexer) : Lexer :=
  match fuel with
  | O => lx
  | S f => if cond (peek lx) then advance_while cond f (snd (lex_advance lx))
           else lx
  end.

(** Bytes left to read, the NUL included. *)
Definition remaining (lx : Lexer) : nat :=
  S (List.length (source lx) - current lx).

(** [peek(lexer) != '\n' && !isAtEnd(lexer)] *)
Definition in_comment (b : Z) : bool := negb (b =? 10) && negb (b =? 0).

Fixpoint skipWhitespace_loop (fuel : nat) (lx : Lexer) : Lexer :=
  match fuel with
  | O => lx
  | S f =>
    let c := peek lx in
    if (c =? 32) || (c =? 13) || (c =? 9) then
      skipWhitespace_loop f (snd (lex_advance lx))
    else if c =? 10 then
      skipWhitespace_loop f
        (snd (lex_advance (set_line_column lx (int_succ (line lx)) 1)))
    else if c =? 47 then
      if peekNext lx =? 47 then
        skipWhitespace_loop f
          (advance_while in_comment (remaining lx) lx)
      else lx
    else lx
  end.

Definition skipWhitespace (lx : Lexer) : Lexer :=
  skipWhitespace_loop (S (remaining lx)) lx.

Definition isDigit (c : Z) : bool :=
  (48 <=? schar c) && (schar c <=? 57).

Definition isHindiChar (src : list Z) (i : nat) : bool :=
  (uchar (byte_at src i) =? 224) &&
  ((uchar (byte_at src (S i)) =? 164) || (uchar (byte_at src (S i)) =? 165)).

Definition isIdentifierStart (c : Z) : bool :=
  ((97 <=? schar c) && (schar c <=? 122)) ||
  ((65 <=? schar c) && (schar c <=? 90)) ||
  (schar c =? 95) ||
  (224 <=? uchar c).

Definition isIdentifierPart (c : Z) : bool :=
  isIdentifierStart c || isDigit c.

(** [current - start == strlen(keyword) && memcmp(start, keyword, length) == 0] *)
Definition keyword_matches (lx : Lexer) (keyword : list Z) : bool :=
  let length := List.length (until_nul keyword) in
  Nat.eqb (current lx - start lx) length &&
  bytes_eqb (firstn length (skipn (start lx) (source lx)))
            (until_nul keyword).

Fixpoint lookup_keyword (lx : Lexer) (table : list (list Z * TokenType))
  : option TokenType :=
  match table with
  | [] => None
  | (keyword, ty) :: rest =>
    if keyword_matches lx keyword then Some ty else lookup_keyword lx rest
  end.

Definition identifier (lx : Lexer) : Token * Lexer :=
  let lx1 := advance_while isIdentifierPart (remaining lx) lx in
  match lookup_keyword lx1 hindiKeywords with
  | Some ty => (makeToken lx1 ty, lx1)
  | None => (makeToken lx1 TOKEN_IDENTIFIER, lx1)
  end.

Definition number (lx : Lexer) : Token * Lexer :=
  let lx1 := advance_while isDigit (remaining lx) lx in
  if (peek lx1 =? 46) && isDigit (peekNext lx1) then
    let lx2 := snd (lex_advance lx1) in
    let lx3 := advance_while isDigit (remaining lx2) lx2 in
    (makeToken lx3 TOKEN_NUMBER, lx3)
  else (makeToken lx1 TOKEN_NUMBER, lx1).

Fixpoint string_loop (fuel : nat) (lx : Lexer) : Lexer :=
  match fuel with
  | O => lx
  | S f =>
    if negb (peek lx =? 34) && negb (isAtEnd lx) then
      let lx1 := if peek lx =? 10
                 then set_line_column lx (int_succ (line lx)) 1 else lx in
      string_loop f (snd (lex_advance lx1))
    else lx
  end.

Definition lex_string (lx : Lexer) : Token * Lexer :=
  let lx1 := string_loop (remaining lx) lx in
  if isAtEnd lx1 then (errorToken lx1 "Unterminated string.", lx1)
  else
    let lx2 := snd (lex_advance lx1) in
    (makeToken lx2 TOKEN_STRING, lx2).

Definition two_char (lx : Lexer) (second : Z) (yes no : TokenType)
  : Token * Lexer :=
  let (m, lx1) := lex_match lx second in
  (makeToken lx1 (if m then yes else no), lx1).

Definition scanToken (lx0 : Lexer) : Token * Lexer :=
  let lxw := skipWhitespace lx0 in
  let lx := mkLexer (source lxw) (current lxw) (current lxw)
                    (line lxw) (column lxw) in
  if isAtEnd lx then (makeToken lx TOKEN_EOF, lx)
  else
    let (c, lx1) := lex_advance lx in
    if isIdentifierStart c then identifier lx1
    else if isDigit c then number lx1
    else if c =? 40 then (makeToken lx1 TOKEN_LPAREN, lx1)
    else if c =? 41 then (makeToken lx1 TOKEN_RPAREN, lx1)
    else if c =? 123 then (makeToken lx1 TOKEN_LBRACE, lx1)
    else if c =? 125 then (makeToken lx1 TOKEN_RBRACE, lx1)
    else if c =? 59 then (makeToken lx1 TOKEN_SEMICOLON, lx1)
    else if c =? 44 then (makeToken lx1 TOKEN_COMMA, lx1)
    else if c =? 43 then (makeToken lx1 TOKEN_PLUS, lx1)
    else if c =? 45 then (makeToken lx1 TOKEN_MINUS, lx1)
    else if c =? 42 then (makeToken lx1 TOKEN_MULTIPLY, lx1)
    else if c =? 47 then (makeToken lx1 TOKEN_DIVIDE, lx1)
    else if c =? 37 then (makeToken lx1 TOKEN_MODULO, lx1)
    else if c =? 61 then two_char lx1 61 TOKEN_EQUALS TOKEN_ASSIGN
    else if c =? 33 then two_char lx1 61 TOKEN_NOT_EQUALS TOKEN_NOT
    else if c =? 60 then two_char lx1 61 TOKEN_LESS_EQ TOKEN_LESS
    else if c =? 62 then two_char lx1 61 TOKEN_GREATER_EQ TOKEN_GREATER
    else if c =? 38 then
      let (m, lx2) := lex_match lx1 38 in
      if m then (makeToken lx2 TOKEN_AND, lx2)
      else (errorToken lx2 "Unexpected character.", lx2)
    else if c =? 124 then
      let (m, lx2) := lex_match lx1 124 in
      if m then (makeToken lx2 TOKEN_OR, lx2)
      else (errorToken lx2 "Unexpected character.", lx2)
    else if c =? 34 then lex_string lx1
    else (errorToken lx1 "Unexpected character.", lx1).

(** The token stream of a source, as the driver's tokenize-only mode
    prints it: [scanToken] repeated up to and including the first EOF. *)
Fixpoint tokens_from (fuel : nat) (lx : Lexer) : list Token :=
  match fuel with
  | O => []
  | S f =>
    let (t, lx') := scanToken lx in
    if tt_eqb (tk_type t) TOKEN_EOF then [t] else t :: tokens_from f lx'
  end.

Definition tokenize (src : list Z) : list Token :=
  tokens_from (S (List.length src)) (initLexer src).


(* ================================================================= *)
(** ** include/ast.h and src/ast/ast.c *)

(** One constructor per [AstNodeType]; the first two fields are the
    [line] and [column] of the base node.  The growable arrays are
    lists.  The arrays of a program and of a block receive only
    non-null nodes; the argument array of a call receives whatever
    [expression] returned. *)
#[warnings="-register-all"]
Inductive AstNode : Type :=
| AST_PROGRAM (line column : Z) (declarations : list AstNode)
| AST_FUNCTION_DECL (line column : Z) (name : Token) (returnType : TokenType)
    (params : list (Token * TokenType)) (body : option AstNode)
| AST_VAR_DECL (line column : Z) (name : Token) (varType : TokenType)
    (initializer : option AstNode)
| AST_BLOCK (line column : Z) (statements : list AstNode)
| AST_IF (line column : Z) (condition thenBranch elseBranch : option AstNode)
| AST_WHILE (line column : Z) (condition body : option AstNode)
| AST_FOR (line column : Z)
    (initializer condition increment body : option AstNode)
| AST_RETURN (line column : Z) (value : option AstNode)
| AST_EXPRESSION_STMT (line column : Z) (expression : option AstNode)
| AST_BINARY (line column : Z) (left : option AstNode) (operator : TokenType)
    (right : option AstNode)
| AST_UNARY (line column : Z) (operator : TokenType) (right : option AstNode)
| AST_LITERAL (line column : Z) (value : Token)
| AST_VARIABLE (line column : Z) (name : Token)
| AST_ASSIGNMENT (line column : Z) (name : Token) (value : option AstNode)
| AST_CALL (line column : Z) (name : Token) (arguments : list (option AstNode)).

Definition node_line (n : AstNode) : Z :=
  match n with
  | AST_PROGRAM l _ _ | AST_FUNCTION_DECL l _ _ _ _ _ | AST_VAR_DECL l _ _ _ _
  | AST_BLOCK l _ _ | AST_IF l _ _ _ _ | AST_WHILE l _ _ _ | AST_FOR l _ _ _ _ _
  | AST_RETURN l _ _ | AST_EXPRESSION_STMT l _ _ | AST_BINARY l _ _ _ _
  | AST_UNARY l _ _ _ | AST_LITERAL l _ _ | AST_VARIABLE l _ _
  | AST_ASSIGNMENT l _ _ _ | AST_CALL l _ _ _ => l
  end.

Definition node_column (n : AstNode) : Z :=
  match n with
  | AST_PROGRAM _ c _ | AST_FUNCTION_DECL _ c _ _ _ _ | AST_VAR_DECL _ c _ _ _
  | AST_BLOCK _ c _ | AST_IF _ c _ _ _ | AST_WHILE _ c _ _ | AST_FOR _ c _ _ _ _
  | AST_RETURN _ c _ | AST_EXPRESSION_STMT _ c _ | AST_BINARY _ c _ _ _
  | AST_UNARY _ c _ _ | AST_LITERAL _ c _ | AST_VARIABLE _ c _
  | AST_ASSIGNMENT _ c _ _ | AST_CALL _ c _ _ => c
  end.

(** The constructors of ast.c.  Those that read [line] and [column]
    through a node pointer return [None] when that pointer is null: the
    C code dereferences it. *)
Definition createProgram : AstNode := AST_PROGRAM 0 0 [].

Definition createVarDecl (name : Token) (ty : TokenType)
           (initializer : option AstNode) : AstNode :=
  AST_VAR_DECL (tk_line name) (tk_column name) name ty initializer.

Definition createFunctionDecl (name : Token) (returnType : TokenType) : AstNode :=
  AST_FUNCTION_DECL (tk_line name) (tk_column name) name returnType [] None.

Definition createBlock : AstNode := AST_BLOCK 0 0 [].

Definition createIf (condition thenBranch elseBranch : option AstNode)
  : option AstNode :=
  match condition with
  | None => None
  | Some c =>
    Some (AST_IF (node_line c) (node_column c) condition thenBranch elseBranch)
  end.

Definition createWhile (condition body : option AstNode) : option AstNode :=
  match condition with
  | None => None
  | Some c => Some (AST_WHILE (node_line c) (node_column c) condition body)
  end.

Definition createFor (initializer condition increment body : option AstNode)
  : AstNode :=
  let '(l, c) :=
    match initializer, condition, increment, body with
    | Some n, _, _, _ => (node_line n, node_column n)
    | None, Some n, _, _ => (node_line n, node_column n)
    | None, None, Some n, _ => (node_line n, node_column n)
    | None, None, None, Some n => (node_line n, node_column n)
    | None, None, None, None => (0, 0)
    end in
  AST_FOR l c initializer condition increment body.

Definition createReturn (value : option AstNode) : AstNode :=
  match value with
  | Some n => AST_RETURN (node_line n) (node_column n) value
  | None => AST_RETURN 0 0 value
  end.

Definition createExpressionStmt (expression : option AstNode)
  : option AstNode :=
  match expression with
  | None => None
  | Some e =>
    Some (AST_EXPRESSION_STMT (node_line e) (node_column e) expression)
  end.

Definition createBinary (left : option AstNode) (operator : TokenType)
           (right : option AstNode) : option AstNode :=
  match left with
  | None => None
  | Some l => Some (AST_BINARY (node_line l) (node_column l) left operator right)
  end.

Definition createUnary (operator : TokenType) (right : option AstNode)
  : option AstNode :=
  match right with
  | None => None
  | Some r => Some (AST_UNARY (node_line r) (node_column r) operator right)
  end.

Definition createLiteral (value : Token) : AstNode :=
  AST_LITERAL (tk_line value) (tk_column value) value.

Definition createVariable (name : Token) : AstNode :=
  AST_VARIABLE (tk_line name) (tk_column name) name.

Definition createAssignment (name : Token) (value : option AstNode) : AstNode :=
  AST_ASSIGNMENT (tk_line name) (tk_column name) name value.

Definition createCall (name : Token) : AstNode :=
  AST_CALL (tk_line name) (tk_column name) name [].

(* ================================================================= *)
(** ** include/parser.h and src/parser/parser.c *)

(** A line written to the diagnostic stream by [parserError] or
    [semanticError]: line, column, message. *)
Definition Diagnostic : Type := (Z * Z * string)%type.

(** The parser of parser.h, with the lines it has written to [stderr]. *)
Record Parser : Type := mkParser {
  lexer : Lexer;
  p_current : Token;
  p_previous : Token;
  hadError : bool;
  panicMode : bool;
  p_stderr : list Diagnostic
}.

(** How a parsing function ends: it returns, it dereferences a null
    pointer, or the bound of the model is reached.  Each carries the
    parser as it is at that point. *)
Inductive Res (A : Type) : Type :=
| Done (a : A) (p : Parser)
| NullDeref (p : Parser)
| OutOfFuel (p : Parser).
Arguments Done {A} a p.
Arguments NullDeref {A} p.
Arguments OutOfFuel {A} p.

Definition final {A : Type} (r : Res A) : Parser :=
  match r with Done _ p | NullDeref p | OutOfFuel p => p end.

Definition PM (A : Type) : Type := Parser -> Res A.

Definition ret {A : Type} (a : A) : PM A := fun p => Done a p.

Definition bind {A B : Type} (m : PM A) (k : A -> PM B) : PM B :=
  fun p =>
    match m p with
    | Done a p' => k a p'
    | NullDeref p' => NullDeref p'
    | OutOfFuel p' => OutOfFuel p'
    end.

Declare Scope pm_scope.
Delimit Scope pm_scope with pm.
Notation "x <- m ;; k" := (bind m (fun x => k))
  (at level 61, m at next level, right associativity) : pm_scope.
Notation "m ;;; k" := (bind m (fun _ => k))
  (at level 61, right associativity) : pm_scope.
Open Scope pm_scope.

Definition out_of_fuel {A : Type} : PM A := fun p => OutOfFuel p.

(** Reading a field through a node pointer. *)
Definition deref (o : option AstNode) : PM AstNode :=
  fun p => match o with Some n => Done n p | None => NullDeref p end.

(** The result of a constructor that dereferences one of its arguments. *)
Definition built (o : option AstNode) : PM (option AstNode) :=
  fun p => match o with Some n => Done (Some n) p | None => NullDeref p end.

Definition get_previous : PM Token := fun p => Done (p_previous p) p.

(** The token slots of a parser that has read nothing yet. *)
Definition blank_token : Token := mkToken TOKEN_EOF (SrcPtr 0) 0 0 0.

Definition parserError (message : string) : PM unit :=
  fun p =>
    if panicMode p then Done tt p
    else
      Done tt (mkParser (lexer p) (p_current p) (p_previous p) true true
                 (p_stderr p ++
                  [(tk_line (p_current p), tk_column (p_current p), message)])).

(** The message an error token points to. *)
Definition token_message (t : Token) : string :=
  match tk_start t with
  | LitPtr msg => msg
  | SrcPtr _ => EmptyString
  end.

(** The loop of [advance]: scan until a token that is not an error,
    reporting each error token.  Every error token consumes a byte, so
    the bytes left bound the loop. *)
Fixpoint advance_loop (fuel : nat) : PM unit :=
  fun p =>
    match fuel with
    | O => OutOfFuel p
    | S f =>
      let (t, lx) := scanToken (lexer p) in
      let p1 := mkParser lx t (p_previous p) (hadError p) (panicMode p)
                         (p_stderr p) in
      if negb (tt_eqb (tk_type t) TOKEN_ERROR) then Done tt p1
      else (parserError (token_message t) ;;; advance_loop f) p1
    end.

Definition advance : PM unit :=
  fun p =>
    advance_loop (S (remaining (lexer p)))
      (mkParser (lexer p) (p_current p) (p_current p) (hadError p)
                (panicMode p) (p_stderr p)).

Definition initParser (lx : Lexer) : Res unit :=
  advance (mkParser lx blank_token blank_token false false []).

Definition check (ty : TokenType) : PM bool :=
  fun p => Done (tt_eqb (tk_type (p_current p)) ty) p.

Definition p_match (ty : TokenType) : PM bool :=
  c <- check ty ;;
  if negb c then ret false else advance ;;; ret true.

Definition consume (ty : TokenType) (message : string) : PM bool :=
  c <- check ty ;;
  if c then advance ;;; ret true
  else parserError message ;;; ret false.

(** [a || b] on two calls: the second runs only when the first is false. *)
Definition orM (a b : PM bool) : PM bool :=
  x <- a ;; if x then ret true else b.

(** [previous.type] *)
Definition previous_type : PM TokenType :=
  fun p => Done (tk_type (p_previous p)) p.

Definition synchronize_stop (ty : TokenType) : bool :=
  match ty with
  | TOKEN_INT | TOKEN_FLOAT | TOKEN_CHAR | TOKEN_VOID
  | TOKEN_IF | TOKEN_WHILE | TOKEN_FOR | TOKEN_RETURN => true
  | _ => false
  end.

Fixpoint synchronize_loop (fuel : nat) : PM unit :=
  fun p =>
    match fuel with
    | O => OutOfFuel p
    | S f =>
      if tt_eqb (tk_type (p_current p)) TOKEN_EOF then Done tt p
      else if tt_eqb (tk_type (p_previous p)) TOKEN_SEMICOLON then Done tt p
      else if synchronize_stop (tk_type (p_current p)) then Done tt p
      else (advance ;;; synchronize_loop f) p
    end.

(** Defined in parser.c and called from nowhere in it. *)
Definition synchronize : PM unit :=
  fun p =>
    synchronize_loop (S (remaining (lexer p)))
      (mkParser (lexer p) (p_current p) (p_previous p) (hadError p) false
                (p_stderr p)).

(** [parser->lexer->current[0] == '(' || parser->lexer->current[1] == '(']:
    the two bytes after the current token.  When the first is the NUL
    the second lies past the end of the text and is read as 0. *)
Definition raw_paren_ahead : PM bool :=
  fun p =>
    let lx := lexer p in
    Done ((byte_at (source lx) (current lx) =? 40) ||
          (byte_at (source lx) (S (current lx)) =? 40)) p.

(** The loops of the grammar.  Each takes the calls of its body as
    arguments, so that the functions below keep the shape of the
    source. *)

(** [while (matchOp) { op = previous.type; right = operand();
                       expr = createBinary(expr, op, right); }] *)
Fixpoint binary_loop (fuel : nat) (matchOp : PM bool)
         (operand : PM (option AstNode)) (expr : option AstNode)
  : PM (option AstNode) :=
  match fuel with
  | O => out_of_fuel
  | S f =>
    m <- matchOp ;;
    if m then
      op <- previous_type ;;
      right <- operand ;;
      e <- built (createBinary expr op right) ;;
      binary_loop f matchOp operand e
    else ret expr
  end.

(** [while (more) { n = item(); if (n != NULL) append n; }] *)
Fixpoint node_loop (fuel : nat) (more : PM bool) (item : PM (option AstNode))
         (acc : list AstNode) : PM (list AstNode) :=
  match fuel with
  | O => out_of_fuel
  | S f =>
    c <- more ;;
    if c then
      n <- item ;;
      node_loop f more item (match n with Some d => acc ++ [d] | None => acc end)
    else ret acc
  end.

(** [do { append item(); } while (match(TOKEN_COMMA));] *)
Fixpoint args_loop (fuel : nat) (item : PM (option AstNode))
         (acc : list (option AstNode)) : PM (list (option AstNode)) :=
  match fuel with
  | O => out_of_fuel
  | S f =>
    a <- item ;;
    m <- p_match TOKEN_COMMA ;;
    if m then args_loop f item (acc ++ [a]) else ret (acc ++ [a])
  end.

(** The parameter loop of [functionDeclaration]. *)
Fixpoint params_loop (fuel : nat) (acc : list (Token * TokenType))
  : PM (list (Token * TokenType)) :=
  match fuel with
  | O => out_of_fuel
  | S f =>
    if (8 <=? Z.of_nat (List.length acc)) then
      parserError "Too many function parameters." ;;; ret acc
    else
      m <- orM (p_match TOKEN_INT)
               (orM (p_match TOKEN_FLOAT) (p_match TOKEN_CHAR)) ;;
      acc' <- (if m then
                 paramType <- previous_type ;;
                 ok <- consume TOKEN_IDENTIFIER "Expect parameter name." ;;
                 if ok then nm <- get_previous ;; ret (acc ++ [(nm, paramType)])
                 else ret acc
               else parserError "Expect parameter type." ;;; ret acc) ;;
      c <- p_match TOKEN_COMMA ;;
      if c then params_loop f acc' else ret acc'
  end.

Definition match_type_keyword : PM bool :=
  orM (p_match TOKEN_INT)
      (orM (p_match TOKEN_FLOAT)
           (orM (p_match TOKEN_CHAR) (p_match TOKEN_VOID))).

Definition not_at (ty : TokenType) : PM bool :=
  c <- check ty ;; ret (negb c).

(** [!check(TOKEN_RBRACE) && !check(TOKEN_EOF)] *)
Definition inside_block : PM bool :=
  a <- not_at TOKEN_RBRACE ;;
  if a then not_at TOKEN_EOF else ret false.

#[warnings="-non-full-mutual"]
Fixpoint declaration (fuel : nat) : PM (option AstNode) :=
  match fuel with
  | O => out_of_fuel
  | S f =>
    m <- match_type_keyword ;;
    if m then
      type <- previous_type ;;
      isId <- check TOKEN_IDENTIFIER ;;
      paren <- (if isId then raw_paren_ahead else ret false) ;;
      if paren then functionDeclaration f type
      else varDeclaration f type
    else statement f
  end

with varDeclaration (fuel : nat) (type : TokenType) : PM (option AstNode) :=
  match fuel with
  | O => out_of_fuel
  | S f =>
    ok <- consume TOKEN_IDENTIFIER "Expect variable name." ;;
    if ok then
      name <- get_previous ;;
      m <- p_match TOKEN_ASSIGN ;;
      initializer <- (if m then expression f else ret None) ;;
      consume TOKEN_SEMICOLON "Expect ';' after variable declaration." ;;;
      ret (Some (createVarDecl name type initializer))
    else ret None
  end

with functionDeclaration (fuel : nat) (returnType : TokenType)
  : PM (option AstNode) :=
  match fuel with
  | O => out_of_fuel
  | S f =>
    ok <- consume TOKEN_IDENTIFIER "Expect function name." ;;
    if ok then
      name <- get_previous ;;
      consume TOKEN_LPAREN "Expect '(' after function name." ;;;
      atEnd <- check TOKEN_RPAREN ;;
      params <- (if negb atEnd then params_loop f [] else ret []) ;;
      consume TOKEN_RPAREN "Expect ')' after parameters." ;;;
      consume TOKEN_LBRACE "Expect '{' before function body." ;;;
      body <- blockStatement f ;;
      ret (Some (AST_FUNCTION_DECL (tk_line name) (tk_column name) name
                                   returnType params body))
    else ret None
  end

with statement (fuel : nat) : PM (option AstNode) :=
  match fuel with
  | O => out_of_fuel
  | S f =>
    m1 <- p_match TOKEN_IF ;;
    if m1 then ifStatement f else
    m2 <- p_match TOKEN_WHILE ;;
    if m2 then whileStatement f else
    m3 <- p_match TOKEN_FOR ;;
    if m3 then forStatement f else
    m4 <- p_match TOKEN_RETURN ;;
    if m4 then returnStatement f else
    m5 <- p_match TOKEN_LBRACE ;;
    if m5 then blockStatement f else
    expressionStatement f
  end

with blockStatement (fuel : nat) : PM (option AstNode) :=
  match fuel with
  | O => out_of_fuel
  | S f =>
    stmts <- node_loop f inside_block (declaration f) [] ;;
    consume TOKEN_RBRACE "Expect '}' after block." ;;;
    ret (Some (AST_BLOCK 0 0 stmts))
  end

with ifStatement (fuel : nat) : PM (option AstNode) :=
  match fuel with
  | O => out_of_fuel
  | S f =>
    consume TOKEN_LPAREN "Expect '(' after 'if'." ;;;
    condition <- expression f ;;
    consume TOKEN_RPAREN "Expect ')' after if condition." ;;;
    thenBranch <- statement f ;;
    m <- p_match TOKEN_ELSE ;;
    elseBranch <- (if m then statement f else ret None) ;;
    built (createIf condition thenBranch elseBranch)
  end

with whileStatement (fuel : nat) : PM (option AstNode) :=
  match fuel with
  | O => out_of_fuel
  | S f =>
    consume TOKEN_LPAREN "Expect '(' after 'while'." ;;;
    condition <- expression f ;;
    consume TOKEN_RPAREN "Expect ')' after while condition." ;;;
    body <- statement f ;;
    built (createWhile condition body)
  end

with forStatement (fuel : nat) : PM (option AstNode) :=
  match fuel with
  | O => out_of_fuel
  | S f =>
    consume TOKEN_LPAREN "Expect '(' after 'for'." ;;;
    m <- p_match TOKEN_SEMICOLON ;;
    initializer <-
      (if m then ret None
       else
         t <- orM (p_match TOKEN_INT)
                  (orM (p_match TOKEN_FLOAT) (p_match TOKEN_CHAR)) ;;
         if t then ty <- previous_type ;; varDeclaration f ty
         else expressionStatement f) ;;
    c1 <- check TOKEN_SEMICOLON ;;
    condition <- (if negb c1 then expression f else ret None) ;;
    consume TOKEN_SEMICOLON "Expect ';' after loop condition." ;;;
    c2 <- check TOKEN_RPAREN ;;
    increment <- (if negb c2 then expression f else ret None) ;;
    consume TOKEN_RPAREN "Expect ')' after for clauses." ;;;
    body <- statement f ;;
    ret (Some (createFor initializer condition increment body))
  end

with returnStatement (fuel : nat) : PM (option AstNode) :=
  match fuel with
  | O => out_of_fuel
  | S f =>
    c <- check TOKEN_SEMICOLON ;;
    value <- (if negb c then expression f else ret None) ;;
    consume TOKEN_SEMICOLON "Expect ';' after return value." ;;;
    ret (Some (createReturn value))
  end

with expressionStatement (fuel : nat) : PM (option AstNode) :=
  match fuel with
  | O => out_of_fuel
  | S f =>
    expr <- expression f ;;
    consume TOKEN_SEMICOLON "Expect ';' after expression." ;;;
    built (createExpressionStmt expr)
  end

with expression (fuel : nat) : PM (option AstNode) :=
  match fuel with
  | O => out_of_fuel
  | S f => assignment f
  end

with assignment (fuel : nat) : PM (option AstNode) :=
  match fuel with
  | O => out_of_fuel
  | S f =>
    expr <- logicalOr f ;;
    m <- p_match TOKEN_ASSIGN ;;
    if m then
      value <- assignment f ;;
      e <- deref expr ;;
      match e with
      | AST_VARIABLE _ _ name => ret (Some (createAssignment name value))
      | _ => parserError "Invalid assignment target." ;;; ret expr
      end
    else ret expr
  end

with logicalOr (fuel : nat) : PM (option AstNode) :=
  match fuel with
  | O => out_of_fuel
  | S f =>
    expr <- logicalAnd f ;;
    binary_loop f (p_match TOKEN_OR) (logicalAnd f) expr
  end

with logicalAnd (fuel : nat) : PM (option AstNode) :=
  match fuel with
  | O => out_of_fuel
  | S f =>
    expr <- equality f ;;
    binary_loop f (p_match TOKEN_AND) (equality f) expr
  end

with equality (fuel : nat) : PM (option AstNode) :=
  match fuel with
  | O => out_of_fuel
  | S f =>
    expr <- comparison f ;;
    binary_loop f (orM (p_match TOKEN_EQUALS) (p_match TOKEN_NOT_EQUALS))
                (comparison f) expr
  end

with comparison (fuel : nat) : PM (option AstNode) :=
  match fuel with
  | O => out_of_fuel
  | S f =>
    expr <- term f ;;
    binary_loop f
      (orM (p_match TOKEN_LESS)
           (orM (p_match TOKEN_GREATER)
                (orM (p_match TOKEN_LESS_EQ) (p_match TOKEN_GREATER_EQ))))
      (term f) expr
  end

with term (fuel : nat) : PM (option AstNode) :=
  match fuel with
  | O => out_of_fuel
  | S f =>
    expr <- factor f ;;
    binary_loop f (orM (p_match TOKEN_PLUS) (p_match TOKEN_MINUS))
                (factor f) expr
  end

with factor (fuel : nat) : PM (option AstNode) :=
  match fuel with
  | O => out_of_fuel
  | S f =>
    expr <- unary f ;;
    binary_loop f
      (orM (p_match TOKEN_MULTIPLY)
           (orM (p_match TOKEN_DIVIDE) (p_match TOKEN_MODULO)))
      (unary f) expr
  end

with unary (fuel : nat) : PM (option AstNode) :=
  match fuel with
  | O => out_of_fuel
  | S f =>
    m <- orM (p_match TOKEN_MINUS) (p_match TOKEN_NOT) ;;
    if m then
      op <- previous_type ;;
      right <- unary f ;;
      built (createUnary op right)
    else call f
  end

with call (fuel : nat) : PM (option AstNode) :=
  match fuel with
  | O => out_of_fuel
  | S f =>
    expr <- primary f ;;
    m <- p_match TOKEN_LPAREN ;;
    if m then
      e <- deref expr ;;
      match e with
      | AST_VARIABLE _ _ name =>
        atEnd <- check TOKEN_RPAREN ;;
        args <- (if negb atEnd then args_loop f (expression f) [] else ret []) ;;
        consume TOKEN_RPAREN "Expect ')' after arguments." ;;;
        ret (Some (AST_CALL (tk_line name) (tk_column name) name args))
      | _ => parserError "Can only call functions." ;;; ret expr
      end
    else ret expr
  end

with primary (fuel : nat) : PM (option AstNode) :=
  match fuel with
  | O => out_of_fuel
  | S f =>
    m1 <- p_match TOKEN_NUMBER ;;
    if m1 then t <- get_previous ;; ret (Some (createLiteral t)) else
    m2 <- p_match TOKEN_STRING ;;
    if m2 then t <- get_previous ;; ret (Some (createLiteral t)) else
    m3 <- p_match TOKEN_IDENTIFIER ;;
    if m3 then t <- get_previous ;; ret (Some (createVariable t)) else
    m4 <- p_match TOKEN_LPAREN ;;
    if m4 then
      expr <- expression f ;;
      consume TOKEN_RPAREN "Expect ')' after expression." ;;;
      ret expr
    else parserError "Expect expression." ;;; ret None
  end.

(** [parse]: declarations up to the end of the input. *)
Definition parse (fuel : nat) : PM AstNode :=
  decls <- node_loop fuel (not_at TOKEN_EOF) (declaration fuel) [] ;;
  ret (AST_PROGRAM 0 0 decls).

(** The driver's sequence: [initLexer], [initParser], [parse]. *)
Definition parse_source (fuel : nat) (src : list Z) : Res AstNode :=
  match initParser (initLexer src) with
  | Done _ p => parse fuel p
  | NullDeref p => NullDeref p
  | OutOfFuel p => OutOfFuel p
  end.

Definition expression_of_source (fuel : nat) (src : list Z)
  : Res (option AstNode) :=
  match initParser (initLexer src) with
  | Done _ p => expression fuel p
  | NullDeref p => NullDeref p
  | OutOfFuel p => OutOfFuel p
  end.

Close Scope pm_scope.

(* ================================================================= *)
(** ** include/semantic.h and src/semantic/symbol_table.c *)

Inductive SymbolType : Type := SYMBOL_VARIABLE | SYMBOL_FUNCTION.

(** A symbol owns a copy of its name; the linked list of the table is
    a list, its head first. *)
Record Symbol : Type := mkSymbol {
  sym_name : list Z;
  sym_type : SymbolType;
  dataType : TokenType;
  paramCount : Z;
  paramTypes : list TokenType;
  sym_scopeDepth : Z
}.

Record SymbolTable : Type := mkSymbolTable {
  first : list Symbol;
  scopeDepth : Z
}.

(** A line on the diagnostic stream of the analyzer.  [ErrorLine] is
    the line of [semanticError]; [DefinedLine] is the line the symbol
    table prints by itself for a name that is already defined. *)
Inductive StderrLine : Type :=
| ErrorLine (line column : Z) (message : string)
| DefinedLine (line column : Z) (kind : string) (name : list Z).

(** What the analyzer reads and writes: the [SemanticContext], the
    symbol table, the file-level variable [currentFunctionReturnType] and
    the diagnostic stream. *)
Record SemState : Type := mkSemState {
  errorCount : Z;
  table : SymbolTable;
  currentFunctionReturnType : TokenType;
  sem_stderr : list StderrLine
}.

Definition initSymbolTable : SymbolTable := mkSymbolTable [] 0.

(** [strlen] and [strcpy] on [name]: the copy runs to the next NUL. *)
Definition createSymbol (src : list Z) (name : Ptr) (ty : SymbolType)
           (depth : Z) : Symbol :=
  mkSymbol (cstr src name) ty TOKEN_VOID 0 [] depth.

Definition with_dataType (s : Symbol) (ty : TokenType) : Symbol :=
  mkSymbol (sym_name s) (sym_type s) ty (paramCount s) (paramTypes s)
           (sym_scopeDepth s).

Definition defineVariable (src : list Z) (t : SymbolTable) (name : Ptr)
           (ty : TokenType) (line column : Z)
  : option Symbol * SymbolTable * list StderrLine :=
  if existsb (fun s => (sym_scopeDepth s =? scopeDepth t) &&
                       strcmp_eq src (sym_name s) name) (first t)
  then (None, t, [DefinedLine line column "Variable" (cstr src name)])
  else
    let symbol :=
      with_dataType (createSymbol src name SYMBOL_VARIABLE (scopeDepth t)) ty in
    (Some symbol, mkSymbolTable (symbol :: first t) (scopeDepth t), []).

Definition defineFunction (src : list Z) (t : SymbolTable) (name : Ptr)
           (returnType : TokenType) (count : Z) (types : list TokenType)
           (line column : Z)
  : option Symbol * SymbolTable * list StderrLine :=
  if existsb (fun s => (sym_scopeDepth s =? 0) &&
                       strcmp_eq src (sym_name s) name) (first t)
  then (None, t, [DefinedLine line column "Function" (cstr src name)])
  else
    let s0 := createSymbol src name SYMBOL_FUNCTION 0 in
    let symbol :=
      mkSymbol (sym_name s0) (sym_type s0) returnType count
               (if 0 <? count then types else []) (sym_scopeDepth s0) in
    (Some symbol, mkSymbolTable (symbol :: first t) (scopeDepth t), []).

Fixpoint resolve_in (src : list Z) (l : list Symbol) (name : Ptr)
  : option Symbol :=
  match l with
  | [] => None
  | s :: rest =>
    if strcmp_eq src (sym_name s) name then Some s
    else resolve_in src rest name
  end.

Definition resolveSymbol (src : list Z) (t : SymbolTable) (name : Ptr)
  : option Symbol :=
  resolve_in src (first t) name.

Definition beginScope (t : SymbolTable) : SymbolTable :=
  mkSymbolTable (first t) (int_succ (scopeDepth t)).

Definition endScope (t : SymbolTable) : SymbolTable :=
  mkSymbolTable
    (filter (fun s => negb (sym_scopeDepth s =? scopeDepth t)) (first t))
    (int_pred (scopeDepth t)).

Definition semanticError (line column : Z) (message : string) (st : SemState)
  : SemState :=
  mkSemState (int_succ (errorCount st)) (table st)
             (currentFunctionReturnType st)
             (sem_stderr st ++ [ErrorLine line column message]).

Definition initSemanticAnalyzer (st : SemState) : SemState :=
  mkSemState 0 initSymbolTable (currentFunctionReturnType st) (sem_stderr st).

(** The state of a fresh process: the initializer of
    [currentFunctionReturnType] is [TOKEN_VOID]. *)
Definition fresh_state : SemState :=
  initSemanticAnalyzer (mkSemState 0 initSymbolTable TOKEN_VOID []).

(* ================================================================= *)
(** ** src/semantic/semantic.c *)

(** An analyzer function returns a value and a new state, or ([None])
    reads through a null or wrongly typed node pointer. *)
Definition SM (A : Type) : Type := SemState -> option (A * SemState).

Definition retS {A : Type} (a : A) : SM A := fun st => Some (a, st).

Definition bindS {A B : Type} (m : SM A) (k : A -> SM B) : SM B :=
  fun st => match m st with
            | Some (a, st') => k a st'
            | None => None
            end.

Declare Scope sm_scope.
Delimit Scope sm_scope with sm.
Notation "x <- m ;; k" := (bindS m (fun x => k))
  (at level 61, m at next level, right associativity) : sm_scope.
Notation "m ;;; k" := (bindS m (fun _ => k))
  (at level 61, right associativity) : sm_scope.
Open Scope sm_scope.

Definition crashS {A : Type} : SM A := fun _ => None.

Definition report (line column : Z) (message : string) : SM unit :=
  fun st => Some (tt, semanticError line column message st).

Definition get_return_type : SM TokenType :=
  fun st => Some (currentFunctionReturnType st, st).

Definition set_return_type (ty : TokenType) : SM unit :=
  fun st => Some (tt, mkSemState (errorCount st) (table st) ty (sem_stderr st)).

Definition on_table (f : SymbolTable -> SymbolTable) : SM unit :=
  fun st => Some (tt, mkSemState (errorCount st) (f (table st))
                                 (currentFunctionReturnType st) (sem_stderr st)).

Definition resolve (src : list Z) (name : Ptr) : SM (option Symbol) :=
  fun st => Some (resolveSymbol src (table st) name, st).

(** A call of [defineVariable] or [defineFunction]: the table is
    updated and the lines it printed are appended to the stream. *)
Definition define
           (f : SymbolTable -> option Symbol * SymbolTable * list StderrLine)
  : SM (option Symbol) :=
  fun st =>
    let '(r, t', lines) := f (table st) in
    Some (r, mkSemState (errorCount st) t' (currentFunctionReturnType st)
                        (sem_stderr st ++ lines)).

Definition is_numeric (ty : TokenType) : bool :=
  tt_eqb ty TOKEN_INT || tt_eqb ty TOKEN_FLOAT.

Definition is_arithmetic_op (op : TokenType) : bool :=
  match op with
  | TOKEN_PLUS | TOKEN_MINUS | TOKEN_MULTIPLY | TOKEN_DIVIDE | TOKEN_MODULO =>
    true
  | _ => false
  end.

Definition is_comparison_op (op : TokenType) : bool :=
  match op with
  | TOKEN_EQUALS | TOKEN_NOT_EQUALS | TOKEN_LESS | TOKEN_GREATER
  | TOKEN_LESS_EQ | TOKEN_GREATER_EQ => true
  | _ => false
  end.

Definition is_logical_op (op : TokenType) : bool :=
  match op with
  | TOKEN_AND | TOKEN_OR => true
  | _ => false
  end.

(** The checks of [analyzeBinary] once both operand types are known. *)
Definition analyzeBinary_types (line column : Z) (op leftType rightType : TokenType)
  : SM TokenType :=
  if tt_eqb leftType TOKEN_ERROR || tt_eqb rightType TOKEN_ERROR then
    retS TOKEN_ERROR
  else if is_arithmetic_op op then
    if negb (is_numeric leftType) || negb (is_numeric rightType) then
      report line column "Arithmetic operators require numeric operands." ;;;
      retS TOKEN_ERROR
    else if tt_eqb leftType TOKEN_FLOAT || tt_eqb rightType TOKEN_FLOAT then
      retS TOKEN_FLOAT
    else retS TOKEN_INT
  else if is_comparison_op op then
    if negb (tt_eqb leftType rightType) then
      report line column "Comparison operators require compatible operands." ;;;
      retS TOKEN_ERROR
    else retS TOKEN_INT
  else if is_logical_op op then
    if negb (tt_eqb leftType TOKEN_INT) || negb (tt_eqb rightType TOKEN_INT) then
      report line column "Logical operators require boolean operands." ;;;
      retS TOKEN_ERROR
    else retS TOKEN_INT
  else
    report line column "Unknown binary operator." ;;; retS TOKEN_ERROR.

(** The checks of [analyzeUnary] once the operand type is known. *)
Definition analyzeUnary_type (line column : Z) (op operandType : TokenType)
  : SM TokenType :=
  if tt_eqb operandType TOKEN_ERROR then retS TOKEN_ERROR
  else if tt_eqb op TOKEN_MINUS then
    if negb (is_numeric operandType) then
      report line column "Unary negation requires a numeric operand." ;;;
      retS TOKEN_ERROR
    else retS operandType
  else if tt_eqb op TOKEN_NOT then
    if negb (tt_eqb operandType TOKEN_INT) then
      report line column "Logical NOT requires a boolean operand." ;;;
      retS TOKEN_ERROR
    else retS TOKEN_INT
  else
    report line column "Unknown unary operator." ;;; retS TOKEN_ERROR.

Definition analyzeLiteral (src : list Z) (line column : Z) (value : Token)
  : SM TokenType :=
  match tk_type value with
  | TOKEN_NUMBER =>
    if strchr_found src (tk_start value) 46 then retS TOKEN_FLOAT
    else retS TOKEN_INT
  | TOKEN_STRING => retS TOKEN_CHAR
  | _ => report line column "Unknown literal type." ;;; retS TOKEN_ERROR
  end.

Definition analyzeVariable (src : list Z) (line column : Z) (name : Token)
  : SM TokenType :=
  symbol <- resolve src (tk_start name) ;;
  match symbol with
  | None => report line column "Undefined variable." ;;; retS TOKEN_ERROR
  | Some s =>
    match sym_type s with
    | SYMBOL_VARIABLE => retS (dataType s)
    | SYMBOL_FUNCTION =>
      report line column "Expected a variable name." ;;; retS TOKEN_ERROR
    end
  end.

(** [analyzeAssignment] after the value has been analyzed. *)
Definition analyzeAssignment_value (src : list Z) (line column : Z)
           (name : Token) (valueType : TokenType) : SM TokenType :=
  symbol <- resolve src (tk_start name) ;;
  match symbol with
  | None =>
    report line column "Undefined variable in assignment." ;;; retS TOKEN_ERROR
  | Some s =>
    match sym_type s with
    | SYMBOL_FUNCTION =>
      report line column "Cannot assign to a function." ;;; retS TOKEN_ERROR
    | SYMBOL_VARIABLE =>
      if negb (tt_eqb valueType TOKEN_ERROR) &&
         negb (tt_eqb valueType (dataType s)) then
        report line column "Type mismatch in assignment." ;;; retS TOKEN_ERROR
      else retS valueType
    end
  end.

(** One turn of the argument loop of [analyzeCall], after the
    argument has been analyzed: [paramType] is [symbol->paramTypes[i]]. *)
Definition check_argument (arg : option AstNode) (argType paramType : TokenType)
  : SM unit :=
  if negb (tt_eqb argType TOKEN_ERROR) && negb (tt_eqb argType paramType) then
    match arg with
    | Some a => report (node_line a) (node_column a) "Argument type mismatch."
    | None => crashS
    end
  else retS tt.

Section ArgumentLoop.
Variable analyze : option AstNode -> SM TokenType.

(** The argument loop of [analyzeCall]: [types] is what remains of
    [symbol->paramTypes]. *)
Fixpoint arguments_loop (args : list (option AstNode))
         (types : list TokenType) : SM unit :=
  match args with
  | [] => retS tt
  | a :: rest =>
    argType <- analyze a ;;
    check_argument a argType (hd TOKEN_EOF types) ;;;
    arguments_loop rest (tl types)
  end.
End ArgumentLoop.

Fixpoint analyzeExpression (src : list Z) (node : AstNode) {struct node}
  : SM TokenType :=
  let sub := fun o : option AstNode =>
               match o with
               | None => retS TOKEN_ERROR
               | Some n => analyzeExpression src n
               end in
  match node with
  | AST_BINARY line column lhs op rhs =>
    leftType <- sub lhs ;;
    rightType <- sub rhs ;;
    analyzeBinary_types line column op leftType rightType
  | AST_UNARY line column op rhs =>
    operandType <- sub rhs ;;
    analyzeUnary_type line column op operandType
  | AST_LITERAL line column value => analyzeLiteral src line column value
  | AST_VARIABLE line column name => analyzeVariable src line column name
  | AST_ASSIGNMENT line column name value =>
    valueType <- sub value ;;
    analyzeAssignment_value src line column name valueType
  | AST_CALL line column name arguments =>
    symbol <- resolve src (tk_start name) ;;
    match symbol with
    | None => report line column "Undefined function." ;;; retS TOKEN_ERROR
    | Some s =>
      match sym_type s with
      | SYMBOL_VARIABLE =>
        report line column "Cannot call a variable." ;;; retS TOKEN_ERROR
      | SYMBOL_FUNCTION =>
        if negb (Z.of_nat (List.length arguments) =? paramCount s) then
          report line column "Wrong number of arguments." ;;; retS TOKEN_ERROR
        else
          arguments_loop sub arguments (paramTypes s) ;;;
          retS (dataType s)
      end
    end
  | _ =>
    report (node_line node) (node_column node) "Unknown expression type." ;;;
    retS TOKEN_ERROR
  end.

(** [analyzeExpression] on a node pointer: null gives [TOKEN_ERROR]. *)
Definition analyzeExpression_ptr (src : list Z) (o : option AstNode)
  : SM TokenType :=
  match o with
  | None => retS TOKEN_ERROR
  | Some n => analyzeExpression src n
  end.

(** The check shared by if, while and for: the condition is analyzed by
    the caller; a type other than int or error is reported at the
    condition node. *)
Definition check_condition (condition : option AstNode) (condType : TokenType)
  : SM unit :=
  if negb (tt_eqb condType TOKEN_ERROR) && negb (tt_eqb condType TOKEN_INT) then
    match condition with
    | Some c =>
      report (node_line c) (node_column c)
             "Condition must be a boolean expression."
    | None => crashS
    end
  else retS tt.

Definition analyzeVarDecl (src : list Z) (line column : Z) (name : Token)
           (varType : TokenType) (initializer : option AstNode) : SM bool :=
  match initializer with
  | Some i =>
    initType <- analyzeExpression src i ;;
    if negb (tt_eqb initType varType) && negb (tt_eqb initType TOKEN_ERROR)
    then report line column "Type mismatch in variable initialization."
    else retS tt
  | None => retS tt
  end ;;;
  symbol <- define (fun t => defineVariable src t (tk_start name) varType
                                            line column) ;;
  retS (match symbol with Some _ => true | None => false end).

Definition analyzeReturnStatement (src : list Z) (line column : Z)
           (value : option AstNode) : SM bool :=
  crt <- get_return_type ;;
  if tt_eqb crt TOKEN_VOID && (match value with Some _ => true | None => false end)
  then
    report line column "Cannot return a value from a void function." ;;;
    retS false
  else if negb (tt_eqb crt TOKEN_VOID) &&
          (match value with Some _ => false | None => true end)
  then
    report line column "Missing return value in non-void function." ;;;
    retS false
  else
    match value with
    | Some v =>
      valueType <- analyzeExpression src v ;;
      crt' <- get_return_type ;;
      if negb (tt_eqb valueType TOKEN_ERROR) && negb (tt_eqb valueType crt')
      then
        report (node_line v) (node_column v) "Return type mismatch." ;;;
        retS false
      else retS true
    | None => retS true
    end.

Definition analyzeExpressionStatement (src : list Z) (expression : option AstNode)
  : SM bool :=
  analyzeExpression_ptr src expression ;;; retS true.

Section StatementLoops.
Variable analyzeDeclaration : AstNode -> SM bool.

(** The loop of [analyzeBlock] and of the second pass of
    [analyzeProgram]: stop at the first declaration that fails. *)
Fixpoint declarations_loop (l : list AstNode) : SM bool :=
  match l with
  | [] => retS true
  | d :: rest =>
    ok <- analyzeDeclaration d ;;
    if ok then declarations_loop rest else retS false
  end.

Definition analyzeBlock (statements : list AstNode) : SM bool :=
  on_table beginScope ;;;
  ok <- declarations_loop statements ;;
  on_table endScope ;;;
  retS ok.
End StatementLoops.

Fixpoint define_params (src : list Z) (params : list (Token * TokenType))
  : SM unit :=
  match params with
  | [] => retS tt
  | (name, ty) :: rest =>
    define (fun t => defineVariable src t (tk_start name) ty
                                    (tk_line name) (tk_column name)) ;;;
    define_params src rest
  end.

Inductive Entry : Type := AsDeclaration | AsStatement.

(** [analyzeDeclaration] and [analyzeStatement] switch on the same
    node: a declaration that is neither a variable nor a function is
    handed to [analyzeStatement], whose default case reports the node.
    [entry] says which of the two switches the node meets first. *)
Fixpoint analyzeNode (src : list Z) (entry : Entry) (node : AstNode)
         {struct node} : SM bool :=
  let unknown :=
    report (node_line node) (node_column node) "Unknown statement type." ;;;
    retS false in
  let statement_ptr := fun o : option AstNode =>
    match o with
    | Some n => analyzeNode src AsStatement n
    | None => crashS
    end in
  match node with
  | AST_VAR_DECL line column name varType initializer =>
    match entry with
    | AsDeclaration => analyzeVarDecl src line column name varType initializer
    | AsStatement => unknown
    end
  | AST_FUNCTION_DECL line column name returnType params body =>
    match entry with
    | AsDeclaration =>
      previousReturnType <- get_return_type ;;
      set_return_type returnType ;;;
      on_table beginScope ;;;
      define_params src params ;;;
      result <- match body with
                | Some (AST_BLOCK _ _ statements) =>
                  analyzeBlock (analyzeNode src AsDeclaration) statements
                | _ => crashS
                end ;;
      on_table endScope ;;;
      set_return_type previousReturnType ;;;
      retS result
    | AsStatement => unknown
    end
  | AST_BLOCK _ _ statements =>
    analyzeBlock (analyzeNode src AsDeclaration) statements
  | AST_IF _ _ condition thenBranch elseBranch =>
    condType <- analyzeExpression_ptr src condition ;;
    check_condition condition condType ;;;
    thenResult <- statement_ptr thenBranch ;;
    elseResult <- match elseBranch with
                  | Some e => analyzeNode src AsStatement e
                  | None => retS true
                  end ;;
    retS (thenResult && elseResult)
  | AST_WHILE _ _ condition body =>
    condType <- analyzeExpression_ptr src condition ;;
    check_condition condition condType ;;;
    statement_ptr body
  | AST_FOR _ _ initializer condition increment body =>
    on_table beginScope ;;;
    initOk <- match initializer with
              | Some i => analyzeNode src AsDeclaration i
              | None => retS true
              end ;;
    if negb initOk then on_table endScope ;;; retS false
    else
      match condition with
      | Some c =>
        condType <- analyzeExpression src c ;;
        check_condition condition condType
      | None => retS tt
      end ;;;
      match increment with
      | Some i => analyzeExpression src i ;;; retS tt
      | None => retS tt
      end ;;;
      result <- statement_ptr body ;;
      on_table endScope ;;;
      retS result
  | AST_RETURN line column value => analyzeReturnStatement src line column value
  | AST_EXPRESSION_STMT _ _ expression =>
    analyzeExpressionStatement src expression
  | _ => unknown
  end.

Definition analyzeDeclaration (src : list Z) : AstNode -> SM bool :=
  analyzeNode src AsDeclaration.

Definition analyzeStatement (src : list Z) : AstNode -> SM bool :=
  analyzeNode src AsStatement.

(** The first pass of [analyzeProgram]. *)
Fixpoint register_functions (src : list Z) (decls : list AstNode) : SM unit :=
  match decls with
  | [] => retS tt
  | AST_FUNCTION_DECL line column name returnType params _ :: rest =>
    define (fun t => defineFunction src t (tk_start name) returnType
                       (Z.of_nat (List.length params)) (map snd params)
                       line column) ;;;
    register_functions src rest
  | _ :: rest => register_functions src rest
  end.

Definition analyzeProgram (src : list Z) (program : AstNode) : SM bool :=
  match program with
  | AST_PROGRAM _ _ declarations =>
    register_functions src declarations ;;;
    ok <- declarations_loop (analyzeDeclaration src) declarations ;;
    if ok then fun st => Some (errorCount st =? 0, st)
    else retS false
  | _ => crashS
  end.
Close Scope sm_scope.

(* ================================================================= *)
(** ** src/codegen/codegen.c: expressions *)

(** The bytes of the two intrinsic names as they stand in the source of
    [generateCall]. *)
Definition likho : list Z := [224;164;178;224;164;191;224;164;150;224;165;139].
Definition padho : list Z := [224;164;170;224;164;162;224;164;188;224;165;139].

Definition binary_operator_text (op : TokenType) : list Z :=
  bytes_of_string
    match op with
    | TOKEN_PLUS => " + " | TOKEN_MINUS => " - " | TOKEN_MULTIPLY => " * "
    | TOKEN_DIVIDE => " / " | TOKEN_MODULO => " % "
    | TOKEN_EQUALS => " == " | TOKEN_NOT_EQUALS => " != "
    | TOKEN_LESS => " < " | TOKEN_GREATER => " > "
    | TOKEN_LESS_EQ => " <= " | TOKEN_GREATER_EQ => " >= "
    | TOKEN_AND => " && " | TOKEN_OR => " || "
    | _ => ""
    end%string.

(** The callee name [generateCall] writes before the argument list. *)
Definition callee_text (src : list Z) (name : Token) : list Z :=
  if (tk_length name =? 4) && strncmp_eq src (tk_start name) likho 4 then
    bytes_of_string "printf"
  else if (tk_length name =? 3) && strncmp_eq src (tk_start name) padho 3 then
    bytes_of_string "scanf"
  else print_slice src (tk_length name) (tk_start name).

(** The text an expression is written as; [None] when a null node
    pointer is read.  Lines for unknown node kinds go to the diagnostic
    stream and leave the output as it is. *)
Fixpoint generateExpression (src : list Z) (node : AstNode) {struct node}
  : option (list Z) :=
  let sub := fun o : option AstNode =>
               match o with
               | None => None
               | Some n => generateExpression src n
               end in
  match node with
  | AST_BINARY _ _ lhs op rhs =>
    match sub lhs, sub rhs with
    | Some l, Some r =>
      Some (bytes_of_string "(" ++ l ++ binary_operator_text op ++ r ++
            bytes_of_string ")")
    | _, _ => None
    end
  | AST_UNARY _ _ op rhs =>
    match sub rhs with
    | Some r =>
      Some (match op with
            | TOKEN_MINUS => bytes_of_string "(-" ++ r ++ bytes_of_string ")"
            | TOKEN_NOT => bytes_of_string "!" ++ r
            | _ => r
            end)
    | None => None
    end
  | AST_LITERAL _ _ value =>
    match tk_type value with
    | TOKEN_NUMBER => Some (print_slice src (tk_length value) (tk_start value))
    | TOKEN_STRING =>
      Some ([34] ++ print_slice src (tk_length value - 2)
                                (ptr_add (tk_start value) 1) ++ [34])
    | _ => Some []
    end
  | AST_VARIABLE _ _ name =>
    Some (print_slice src (tk_length name) (tk_start name))
  | AST_ASSIGNMENT _ _ name value =>
    match sub value with
    | Some v =>
      Some (print_slice src (tk_length name) (tk_start name) ++
            bytes_of_string " = " ++ v)
    | None => None
    end
  | AST_CALL _ _ name arguments =>
    match (fix arguments_text (first_one : bool) (args : list (option AstNode))
               {struct args} : option (list Z) :=
             match args with
             | [] => Some []
             | a :: rest =>
               match sub a, arguments_text false rest with
               | Some t, Some ts =>
                 Some ((if first_one then [] else bytes_of_string ", ") ++ t ++ ts)
               | _, _ => None
               end
             end) true arguments with
    | Some args =>
      Some (callee_text src name ++ bytes_of_string "(" ++ args ++
            bytes_of_string ")")
    | None => None
    end
  | _ => Some []
  end.

(** [generateCall] on the fields of a call node. *)
Definition generateCall (src : list Z) (name : Token)
           (arguments : list (option AstNode)) : option (list Z) :=
  generateExpression src (AST_CALL (tk_line name) (tk_column name) name arguments).

(** The byte range [start, start + length) of a token in the source. *)
Definition token_slice (src : list Z) (t : Token) : list Z :=
  match tk_start t with
  | SrcPtr off => firstn (Z.to_nat (tk_length t)) (skipn off src)
  | LitPtr msg => firstn (Z.to_nat (tk_length t)) (bytes_of_string msg)
  end.

(* ================================================================= *)
(** ** include/codegen.h and src/codegen/codegen.c: statements *)

(** The context of codegen.h, with the bytes written to the output
    file in place of the file. *)
Record CodeGenContext : Type := mkCodeGen {
  output : list Z;
  indentLevel : Z
}.

(** [initCodeGen] on a file opened for writing. *)
Definition initCodeGen : CodeGenContext := mkCodeGen [] 0.

(** A generator function returns the context after it, or ([None])
    reads through a null or wrongly typed node pointer.  The lines for
    unknown node kinds go to the diagnostic stream and leave the
    context as it is. *)
Definition GM : Type := CodeGenContext -> option CodeGenContext.

Definition skipG : GM := fun ctx => Some ctx.

Definition thenG (a b : GM) : GM :=
  fun ctx => match a ctx with Some ctx' => b ctx' | None => None end.

Declare Scope gm_scope.
Delimit Scope gm_scope with gm.
Notation "a >> b" := (thenG a b)
  (at level 61, right associativity) : gm_scope.
Open Scope gm_scope.

(** [fprintf(context->output, ...)] *)
Definition emit (text : list Z) : GM :=
  fun ctx => Some (mkCodeGen (output ctx ++ text) (indentLevel ctx)).

Definition emit_string (text : string) : GM := emit (bytes_of_string text).

Definition newline : list Z := [10].

Definition set_indent (f : Z -> Z) : GM :=
  fun ctx => Some (mkCodeGen (output ctx) (f (indentLevel ctx))).

Definition getTypeString (type : TokenType) : list Z :=
  bytes_of_string
    match type with
    | TOKEN_INT => "int"
    | TOKEN_FLOAT => "float"
    | TOKEN_CHAR => "char"
    | TOKEN_VOID => "void"
    | _ => "void"
    end%string.

(** [for (i = 0; i < indentLevel; i++) fprintf(output, "    ")] *)
Definition emitIndentation : GM :=
  fun ctx =>
    emit (List.concat (repeat (bytes_of_string "    ")
                         (Z.to_nat (indentLevel ctx)))) ctx.

(** [generateExpression] on a node pointer: the switch reads
    [node->type]. *)
Definition emit_expression (src : list Z) (o : option AstNode) : GM :=
  fun ctx =>
    match o with
    | Some n =>
      match generateExpression src n with
      | Some text => emit text ctx
      | None => None
      end
    | None => None
    end.

(** ["%s %.*s"] with a type and a name token. *)
Definition typed_name (src : list Z) (type : TokenType) (name : Token)
  : list Z :=
  getTypeString type ++ bytes_of_string " " ++
  print_slice src (tk_length name) (tk_start name).

(** The parameter loop of [generateFunctionDecl]. *)
Fixpoint emit_params (src : list Z) (first_one : bool)
         (params : list (Token * TokenType)) : GM :=
  match params with
  | [] => skipG
  | (name, type) :: rest =>
    (if first_one then skipG else emit_string ", ") >>
    emit (typed_name src type name) >>
    emit_params src false rest
  end.

Definition generateVarDecl (src : list Z) (name : Token) (varType : TokenType)
           (initializer : option AstNode) : GM :=
  emitIndentation >>
  emit (typed_name src varType name) >>
  match initializer with
  | Some _ => emit_string " = " >> emit_expression src initializer
  | None => skipG
  end >>
  emit (bytes_of_string ";" ++ newline).

Definition generateReturnStatement (src : list Z) (value : option AstNode)
  : GM :=
  emitIndentation >>
  emit_string "return" >>
  match value with
  | Some _ => emit_string " " >> emit_expression src value
  | None => skipG
  end >>
  emit (bytes_of_string ";" ++ newline).

Definition generateExpressionStatement (src : list Z)
           (expression : option AstNode) : GM :=
  emitIndentation >>
  emit_expression src expression >>
  emit (bytes_of_string ";" ++ newline).

(** The clauses of a [for] up to its body. *)
Definition for_header (src : list Z)
           (initializer condition increment : option AstNode) : GM :=
  emitIndentation >>
  emit_string "for (" >>
  match initializer with
  | Some (AST_VAR_DECL _ _ name varType varInit) =>
    emit (typed_name src varType name) >>
    match varInit with
    | Some _ => emit_string " = " >> emit_expression src varInit
    | None => skipG
    end
  | Some _ => emit_expression src initializer
  | None => skipG
  end >>
  emit_string "; " >>
  match condition with
  | Some _ => emit_expression src condition
  | None => skipG
  end >>
  emit_string "; " >>
  match increment with
  | Some _ => emit_expression src increment
  | None => skipG
  end >>
  emit_string ") ".

Section GenerateLoops.
Variable generateDeclaration : AstNode -> GM.

Fixpoint generate_each (l : list AstNode) : GM :=
  match l with
  | [] => skipG
  | d :: rest => generateDeclaration d >> generate_each rest
  end.

Definition generateBlock (statements : list AstNode) : GM :=
  emitIndentation >>
  emit (bytes_of_string "{" ++ newline) >>
  set_indent int_succ >>
  generate_each statements >>
  set_indent int_pred >>
  emitIndentation >>
  emit (bytes_of_string "}" ++ newline).

(** The loop of [generateCode]. *)
Fixpoint generate_top (l : list AstNode) : GM :=
  match l with
  | [] => skipG
  | d :: rest => generateDeclaration d >> emit newline >> generate_top rest
  end.
End GenerateLoops.

(** [generateDeclaration] and [generateStatement] switch on the same
    node, as the two entries of the analyzer do. *)
Fixpoint generateNode (src : list Z) (entry : Entry) (node : AstNode)
         {struct node} : GM :=
  let statement_ptr := fun o : option AstNode =>
    match o with
    | Some n => generateNode src AsStatement n
    | None => fun _ => None
    end in
  match node with
  | AST_VAR_DECL _ _ name varType initializer =>
    match entry with
    | AsDeclaration => generateVarDecl src name varType initializer
    | AsStatement => skipG
    end
  | AST_FUNCTION_DECL _ _ name returnType params body =>
    match entry with
    | AsDeclaration =>
      emit (typed_name src returnType name ++ bytes_of_string "(") >>
      emit_params src true params >>
      emit_string ") " >>
      match body with
      | Some (AST_BLOCK _ _ statements) =>
        generateBlock (generateNode src AsDeclaration) statements
      | _ => fun _ => None
      end
    | AsStatement => skipG
    end
  | AST_BLOCK _ _ statements =>
    generateBlock (generateNode src AsDeclaration) statements
  | AST_IF _ _ condition thenBranch elseBranch =>
    emitIndentation >>
    emit_string "if (" >>
    emit_expression src condition >>
    emit_string ") " >>
    statement_ptr thenBranch >>
    match elseBranch with
    | Some e =>
      emitIndentation >> emit_string "else " >> generateNode src AsStatement e
    | None => skipG
    end
  | AST_WHILE _ _ condition body =>
    emitIndentation >>
    emit_string "while (" >>
    emit_expression src condition >>
    emit_string ") " >>
    statement_ptr body
  | AST_FOR _ _ initializer condition increment body =>
    for_header src initializer condition increment >>
    statement_ptr body
  | AST_RETURN _ _ value => generateReturnStatement src value
  | AST_EXPRESSION_STMT _ _ expression =>
    generateExpressionStatement src expression
  | _ => skipG
  end.

Definition generateDeclaration (src : list Z) : AstNode -> GM :=
  generateNode src AsDeclaration.

Definition generateStatement (src : list Z) : AstNode -> GM :=
  generateNode src AsStatement.

(** The two [#include] lines [generateCode] begins with. *)
Definition includes : list Z :=
  bytes_of_string "#include <stdio.h>" ++ newline ++
  bytes_of_string "#include <stdlib.h>" ++ newline ++ newline.

Definition generateCode (src : list Z) (program : AstNode) : GM :=
  match program with
  | AST_PROGRAM _ _ declarations =>
    emit (bytes_of_string "#include <stdio.h>" ++ newline) >>
    emit (bytes_of_string "#include <stdlib.h>" ++ newline ++ newline) >>
    generate_top (generateDeclaration src) declarations
  | _ => fun _ => None
  end.
Close Scope gm_scope.

(* ================================================================= *)
(** * Inputs and predicates of the properties *)

(** The kind and the length of a token. *)
Definition kind_and_length (t : Token) : TokenType * Z :=
  (tk_type t, tk_length t).

(** The lexer stands on white space or on the start of a comment. *)
Definition at_whitespace (lx : Lexer) : bool :=
  let c := peek lx in
  (c =? 32) || (c =? 13) || (c =? 9) || (c =? 10) ||
  ((c =? 47) && (peekNext lx =? 47)).

(** The twelve kinds of the keyword table. *)
Definition is_keyword_kind (ty : TokenType) : bool :=
  match ty with
  | TOKEN_INT | TOKEN_FLOAT | TOKEN_CHAR | TOKEN_VOID
  | TOKEN_IF | TOKEN_ELSE | TOKEN_FOR | TOKEN_WHILE | TOKEN_DO
  | TOKEN_BREAK | TOKEN_CONTINUE | TOKEN_RETURN => true
  | _ => false
  end.

(** The thirteen binary operators with their lexemes. *)
Definition binary_operators : list (TokenType * string) :=
  [ (TOKEN_PLUS, "+"); (TOKEN_MINUS, "-"); (TOKEN_MULTIPLY, "*");
    (TOKEN_DIVIDE, "/"); (TOKEN_MODULO, "%");
    (TOKEN_EQUALS, "=="); (TOKEN_NOT_EQUALS, "!=");
    (TOKEN_LESS, "<"); (TOKEN_GREATER, ">");
    (TOKEN_LESS_EQ, "<="); (TOKEN_GREATER_EQ, ">=");
    (TOKEN_AND, "&&"); (TOKEN_OR, "||") ]%string.

(** The source [a op b op c]. *)
Definition chain_source (op : string) : list Z :=
  bytes_of_string ("a " ++ op ++ " b " ++ op ++ " c")%string.

(** A one-byte identifier token on line 1 at offset [off]. *)
Definition ident_at (off : nat) : Token :=
  mkToken TOKEN_IDENTIFIER (SrcPtr off) 1 1 (Z.of_nat off + 1).

(** The variable node [primary] builds from that token. *)
Definition var_at (off : nat) : option AstNode :=
  Some (createVariable (ident_at off)).

(** The node of the one-byte identifier at offset [off] of a one-line
    source, field by field. *)
Definition variable_at (off : nat) : AstNode :=
  AST_VARIABLE 1 (Z.of_nat off + 1) (ident_at off).

(** [Binary(Binary(a, op, b), op, c)] for the source [a op b op c] with
    an operator of [n] bytes: the operands stand at offsets 0, [3 + n]
    and [6 + 2 n], both nodes carry the position of [a]. *)
Definition left_nested (op : TokenType) (n : nat) : option AstNode :=
  Some (AST_BINARY 1 1
          (Some (AST_BINARY 1 1 (Some (variable_at 0)) op
                            (Some (variable_at (3 + n)))))
          op
          (Some (variable_at (6 + 2 * n)))).

(** [Assignment(a, Assignment(b, c))] for the source [a = b = c]: each
    node carries the position of its name. *)
Definition right_nested_assignment : option AstNode :=
  Some (AST_ASSIGNMENT 1 1 (ident_at 0)
          (Some (AST_ASSIGNMENT 1 5 (ident_at 4) (Some (variable_at 8))))).

(** The six levels of binary operators of parser.c, from [logicalOr]
    down to [factor]: the routine of the level, the routine it calls
    for its operands, and the operators of its loop. *)
Definition binary_levels
  : list ((nat -> PM (option AstNode)) * (nat -> PM (option AstNode)) *
          list TokenType) :=
  [ (logicalOr, logicalAnd, [TOKEN_OR]);
    (logicalAnd, equality, [TOKEN_AND]);
    (equality, comparison, [TOKEN_EQUALS; TOKEN_NOT_EQUALS]);
    (comparison, term,
     [TOKEN_LESS; TOKEN_GREATER; TOKEN_LESS_EQ; TOKEN_GREATER_EQ]);
    (term, factor, [TOKEN_PLUS; TOKEN_MINUS]);
    (factor, unary, [TOKEN_MULTIPLY; TOKEN_DIVIDE; TOKEN_MODULO]) ].

(** [m] is a test [match(op1) || match(op2) || ...]: on one of [ops]
    it is [advance] followed by true, on any other token it is false
    and leaves the parser as it is. *)
Definition matches (m : PM bool) (ops : list TokenType) : Prop :=
  forall p,
    (In (tk_type (p_current p)) ops ->
     m p = bind advance (fun _ => ret true) p) /\
    (~ In (tk_type (p_current p)) ops -> m p = Done false p).

(** The parser as [initParser] leaves it on a source. *)
Definition parser_on (src : list Z) : Parser :=
  final (initParser (initLexer src)).

(** The whole input was read and nothing was reported. *)
Definition clean_at_eof (p : Parser) : Prop :=
  tk_type (p_current p) = TOKEN_EOF /\ hadError p = false /\ p_stderr p = [].

(** The source [1;2.5;]. *)
Definition two_numbers : list Z := bytes_of_string "1;2.5;".

(** The token of the literal [1] in [two_numbers]. *)
Definition number_one : Token := mkToken TOKEN_NUMBER (SrcPtr 0) 1 1 1.

(** An identifier token on line 1, column 1, over the first [len] bytes
    of the source. *)
Definition name_token (len : Z) : Token :=
  mkToken TOKEN_IDENTIFIER (SrcPtr 0) len 1 1.

(** The state after one call of [semanticError] that does not overflow
    the counter. *)
Definition reported (st : SemState) (line column : Z) (message : string)
  : SemState :=
  mkSemState (errorCount st + 1) (table st) (currentFunctionReturnType st)
             (sem_stderr st ++ [ErrorLine line column message]).

(** A state in a void function and a state in an int function. *)
Definition in_void_function : SemState :=
  mkSemState 0 initSymbolTable TOKEN_VOID [].
Definition in_int_function : SemState :=
  mkSemState 0 initSymbolTable TOKEN_INT [].

(** The source [पूर्णांक x; x;]: a declaration of [x] and a reference. *)
Definition declare_then_use : list Z :=
  Kw.k_int ++ bytes_of_string " x; x;".

(** The tree of [declare_then_use]: the name of the declaration is the
    token at offset 25, the reference is the token at offset 28. *)
Definition declare_then_use_ast : AstNode :=
  AST_PROGRAM 0 0
    [ createVarDecl (ident_at 25) TOKEN_INT None;
      AST_EXPRESSION_STMT 1 29 (var_at 28) ].

(** The source [पूर्णांक f(पूर्णांक a) { a; }]: a parameter and a
    reference to it in the body. *)
Definition parameter_then_use : list Z :=
  Kw.k_int ++ bytes_of_string " f(" ++ Kw.k_int ++ bytes_of_string " a) { a; }".

(** The tree of [parameter_then_use]: the parameter is the token at
    offset 52, the reference in the body is the token at offset 57. *)
Definition parameter_then_use_ast : AstNode :=
  AST_PROGRAM 0 0
    [ AST_FUNCTION_DECL 1 26 (ident_at 25) TOKEN_INT
        [(ident_at 52, TOKEN_INT)]
        (Some (AST_BLOCK 0 0 [AST_EXPRESSION_STMT 1 58 (var_at 57)])) ].

(** The source [x] and a program that declares the name at offset 0
    twice at the top level. *)
Definition declared_twice_ast : AstNode :=
  AST_PROGRAM 0 0
    [ createVarDecl (ident_at 0) TOKEN_INT None;
      createVarDecl (ident_at 0) TOKEN_INT None ].

(** The parser over the source [पूर्णांक] followed by [rest], at the
    point where the type keyword is the current token: the lexer stands
    after the 24 bytes of the keyword. *)
Definition at_type_keyword (rest : string) : Parser :=
  mkParser (mkLexer (Kw.k_int ++ bytes_of_string rest) 0 24 1 25)
           (mkToken TOKEN_INT (SrcPtr 0) 24 1 1)
           blank_token false false [].

(** The kinds of the current token and of the token the lexer delivers
    next, once the type keyword has been consumed. *)
Definition after_type_keyword (rest : string) : TokenType * TokenType :=
  let p := final (p_match TOKEN_INT (at_type_keyword rest)) in
  (tk_type (p_current p), tk_type (fst (scanToken (lexer p)))).

(** The kind of node [declaration] returns, if it returns one. *)
Inductive Parsed : Type :=
| ParsedFunction | ParsedVariable | ParsedOther | ParsedNothing | ParsedCrash.

Definition parsed_kind (r : Res (option AstNode)) : Parsed :=
  match r with
  | Done (Some (AST_FUNCTION_DECL _ _ _ _ _ _)) _ => ParsedFunction
  | Done (Some (AST_VAR_DECL _ _ _ _ _)) _ => ParsedVariable
  | Done (Some _) _ => ParsedOther
  | Done None _ => ParsedNothing
  | _ => ParsedCrash
  end.

(** The error state of the parser is unchanged between [p] and [p']. *)
Definition same_errors (p p' : Parser) : Prop :=
  panicMode p' = panicMode p /\ hadError p' = hadError p /\
  p_stderr p' = p_stderr p.

(** Between [p] and [p'] the parser left normal mode: exactly one line
    was printed and both flags are set. *)
Definition first_error (p p' : Parser) : Prop :=
  panicMode p = false /\ panicMode p' = true /\ hadError p' = true /\
  exists d, p_stderr p' = p_stderr p ++ [d].

(** The two ways the error state can change between two points of a
    parse. *)
Definition evolves (p p' : Parser) : Prop :=
  same_errors p p' \/ first_error p p'.

(** Whatever the state a routine starts in and however it ends, the
    error state has evolved in one of the two ways above. *)
Definition steps {A : Type} (m : PM A) : Prop :=
  forall p, evolves p (final (m p)).

(** Every routine of the grammar, at a given bound. *)
Definition grammar_steps (fuel : nat) : Prop :=
  steps (declaration fuel) /\
  (forall ty, steps (varDeclaration fuel ty)) /\
  (forall ty, steps (functionDeclaration fuel ty)) /\
  steps (statement fuel) /\
  steps (blockStatement fuel) /\
  steps (ifStatement fuel) /\
  steps (whileStatement fuel) /\
  steps (forStatement fuel) /\
  steps (returnStatement fuel) /\
  steps (expressionStatement fuel) /\
  steps (expression fuel) /\
  steps (assignment fuel) /\
  steps (logicalOr fuel) /\
  steps (logicalAnd fuel) /\
  steps (equality fuel) /\
  steps (comparison fuel) /\
  steps (term fuel) /\
  steps (factor fuel) /\
  steps (unary fuel) /\
  steps (call fuel) /\
  steps (primary fuel).

(** A parser in panic mode over the source [x;]. *)
Definition panicking : Parser :=
  mkParser (initLexer (bytes_of_string "x;")) blank_token blank_token true true
           [(1, 1, "Unexpected character."%string)].

(** A run that returned or crashed within a bound does the same within
    every larger bound. *)
Definition res_le {A : Type} (r1 r2 : Res A) : Prop :=
  match r1 with
  | OutOfFuel _ => True
  | _ => r2 = r1
  end.

(** [m2] ends as [m1] does wherever [m1] ends within its bound. *)
Definition refines {A : Type} (m1 m2 : PM A) : Prop :=
  forall p, res_le (m1 p) (m2 p).

(** Every routine of the grammar at bound [f] against bound [g]. *)
Definition grammar_le (f g : nat) : Prop :=
  refines (declaration f) (declaration g) /\
  (forall ty, refines (varDeclaration f ty) (varDeclaration g ty)) /\
  (forall ty, refines (functionDeclaration f ty) (functionDeclaration g ty)) /\
  refines (statement f) (statement g) /\
  refines (blockStatement f) (blockStatement g) /\
  refines (ifStatement f) (ifStatement g) /\
  refines (whileStatement f) (whileStatement g) /\
  refines (forStatement f) (forStatement g) /\
  refines (returnStatement f) (returnStatement g) /\
  refines (expressionStatement f) (expressionStatement g) /\
  refines (expression f) (expression g) /\
  refines (assignment f) (assignment g) /\
  refines (logicalOr f) (logicalOr g) /\
  refines (logicalAnd f) (logicalAnd g) /\
  refines (equality f) (equality g) /\
  refines (comparison f) (comparison g) /\
  refines (term f) (term g) /\
  refines (factor f) (factor g) /\
  refines (unary f) (unary g) /\
  refines (call f) (call g) /\
  refines (primary f) (primary g).

(** A property of a node pointer: it holds of the node when there is
    one. *)
Definition Popt (P : AstNode -> Prop) (o : option AstNode) : Prop :=
  match o with Some n => P n | None => True end.

(** The lines written by [semanticError], which are the increments of
    the error count. *)
Definition is_error_line (l : StderrLine) : bool :=
  match l with ErrorLine _ _ _ => true | DefinedLine _ _ _ _ => false end.

Definition error_lines (l : list StderrLine) : nat :=
  List.length (filter is_error_line l).

(** From [st] to [st'] lines were appended to the stream and the error
    count was incremented once for each line of [semanticError]. *)
Definition grows (st st' : SemState) : Prop :=
  exists new,
    sem_stderr st' = sem_stderr st ++ new /\
    errorCount st' = Nat.iter (error_lines new) int_succ (errorCount st).

(** From [st] to [st'] at least one line was written. *)
Definition printed (st st' : SemState) : Prop :=
  (List.length (sem_stderr st) < List.length (sem_stderr st'))%nat.

Definition tracked {A : Type} (m : SM A) : Prop :=
  forall st a st', m st = Some (a, st') -> grows st st'.

(** An analysis that returns false has written a line. *)
Definition checked (m : SM bool) : Prop :=
  forall st b st', m st = Some (b, st') ->
    grows st st' /\ (b = false -> printed st st').

(** The table after calls of [defineVariable] in a row, the results
    ignored, as in the parameter loop of [analyzeFunctionDecl]. *)
Fixpoint defineVariables (src : list Z) (t : SymbolTable)
         (defs : list (Ptr * TokenType)) : SymbolTable :=
  match defs with
  | [] => t
  | (name, ty) :: rest =>
    defineVariables src (snd (fst (defineVariable src t name ty 0 0))) rest
  end.

(** No symbol of the table lies deeper than the current scope. *)
Definition well_scoped (t : SymbolTable) : Prop :=
  Forall (fun s => sym_scopeDepth s <= scopeDepth t) (first t).

(** The symbol table and the current return type are the same in [st]
    and [st']. *)
Definition same_symbols (st st' : SemState) : Prop :=
  table st' = table st /\
  currentFunctionReturnType st' = currentFunctionReturnType st.

Definition keeps {A : Type} (m : SM A) : Prop :=
  forall st a st', m st = Some (a, st') -> same_symbols st st'.

(** An analysis that always returns. *)
Definition returns {A : Type} (m : SM A) : Prop :=
  forall st, exists a st', m st = Some (a, st').

(** The four type keywords. *)
Definition is_type_keyword (ty : TokenType) : bool :=
  match ty with
  | TOKEN_INT | TOKEN_FLOAT | TOKEN_CHAR | TOKEN_VOID => true
  | _ => false
  end.

(** Every symbol of the table carries one of the four types. *)
Definition typed_table (t : SymbolTable) : Prop :=
  Forall (fun s => is_type_keyword (dataType s) = true) (first t).

(** The result of an analysis in a state with a typed table is a type
    keyword or the error sentinel. *)
Definition gives_type (m : SM TokenType) : Prop :=
  forall st ty st', typed_table (table st) -> m st = Some (ty, st') ->
                    ty = TOKEN_ERROR \/ is_type_keyword ty = true.

(** How many scopes the analysis of a node opens one inside the other. *)
Fixpoint nesting (n : AstNode) : nat :=
  let opt := fun o : option AstNode =>
               match o with Some m => nesting m | None => O end in
  match n with
  | AST_PROGRAM _ _ decls => list_max (map nesting decls)
  | AST_FUNCTION_DECL _ _ _ _ _ body => S (opt body)
  | AST_BLOCK _ _ stmts => S (list_max (map nesting stmts))
  | AST_IF _ _ _ th el => Nat.max (opt th) (opt el)
  | AST_WHILE _ _ _ body => opt body
  | AST_FOR _ _ init _ _ body => S (Nat.max (opt init) (opt body))
  | _ => O
  end.

(** The table is well scoped and there is room for [n] more scopes. *)
Definition scoped (st : SemState) (n : nat) : Prop :=
  well_scoped (table st) /\
  INT_MIN <= scopeDepth (table st) /\
  scopeDepth (table st) + Z.of_nat n < INT_MAX.

(** From [st] to [st'] symbols of the current depth were added in
    front of the table and nothing else of the symbols changed. *)
Definition extends (st st' : SemState) : Prop :=
  currentFunctionReturnType st' = currentFunctionReturnType st /\
  scopeDepth (table st') = scopeDepth (table st) /\
  exists added,
    first (table st') = added ++ first (table st) /\
    Forall (fun s => sym_scopeDepth s = scopeDepth (table st)) added.

(** The node is a variable declaration met by [analyzeDeclaration]. *)
Definition declares (entry : Entry) (node : AstNode) : bool :=
  match entry, node with
  | AsDeclaration, AST_VAR_DECL _ _ _ _ _ => true
  | _, _ => false
  end.

(** The analysis of a node leaves the symbols as they were, or, for a
    variable declaration, with at most the declared symbol added. *)
Definition balanced (src : list Z) (node : AstNode) : Prop :=
  forall entry st b st',
    scoped st (nesting node) ->
    analyzeNode src entry node st = Some (b, st') ->
    extends st st' /\
    (declares entry node = false -> same_symbols st st').

(** The read position of the lexer is inside the text, the NUL
    included. *)
Definition in_bounds (lx : Lexer) : Prop :=
  (current lx <= List.length (source lx))%nat.

(** [lx'] is [lx] after some bytes were consumed: same text, same token
    start, a position that is not smaller and still inside the text. *)
Definition follows (lx lx' : Lexer) : Prop :=
  source lx' = source lx /\ start lx' = start lx /\
  (current lx <= current lx')%nat /\
  (in_bounds lx -> in_bounds lx').

(** What a branch of [scanToken] returns once the first byte of the
    token has been read: the lexer has only moved forward, the token is
    not EOF, and unless it is an error token it is the slice between
    [start] and [current]. *)
Definition token_of (lx : Lexer) (r : Token * Lexer) : Prop :=
  follows lx (snd r) /\
  tk_type (fst r) <> TOKEN_EOF /\
  (tk_type (fst r) <> TOKEN_ERROR ->
   fst r = makeToken (snd r) (tk_type (fst r))).

(** Where the text of a token begins and ends in the source. *)
Definition token_begin (t : Token) : nat :=
  match tk_start t with
  | SrcPtr s => s
  | LitPtr _ => 0
  end.

Definition token_end (t : Token) : nat :=
  (token_begin t + Z.to_nat (tk_length t))%nat.

(** The tokens whose text is a slice of the source: all but the error
    tokens, whose text is a message. *)
Definition is_slice (t : Token) : bool :=
  negb (tt_eqb (tk_type t) TOKEN_ERROR).

Definition slices (ts : list Token) : list Token := filter is_slice ts.

(** The tokens lie one after the other between [pos] and [bound],
    and only an EOF token is empty. *)
Fixpoint in_order (pos bound : nat) (ts : list Token) : Prop :=
  match ts with
  | [] => (pos <= bound)%nat
  | t :: rest =>
    tk_start t = SrcPtr (token_begin t) /\
    (pos <= token_begin t)%nat /\
    (token_begin t <= token_end t)%nat /\
    (tk_type t <> TOKEN_EOF -> (token_begin t < token_end t)%nat) /\
    in_order (token_end t) bound rest
  end.

(** The lexer as [scanToken] leaves it after the white space. *)
Definition token_start (lx : Lexer) : Lexer :=
  let lxw := skipWhitespace lx in
  mkLexer (source lxw) (current lxw) (current lxw) (line lxw) (column lxw).

(** Every child the later stages read without a null check is there:
    the operands of operators, assignments and calls, the conditions of
    [if] and [while] and the bodies of [if], [while] and [for], the
    expression of an expression statement; the body of a function is a
    block.  An initializer, an else branch, the clauses of a [for] and
    the value of a [return] may be null. *)
Fixpoint complete (n : AstNode) : bool :=
  let present := fun o : option AstNode =>
                   match o with Some m => complete m | None => false end in
  let optional := fun o : option AstNode =>
                    match o with Some m => complete m | None => true end in
  match n with
  | AST_PROGRAM _ _ decls => forallb complete decls
  | AST_FUNCTION_DECL _ _ _ _ _ body =>
    match body with
    | Some (AST_BLOCK _ _ stmts) => forallb complete stmts
    | _ => false
    end
  | AST_VAR_DECL _ _ _ _ init => optional init
  | AST_BLOCK _ _ stmts => forallb complete stmts
  | AST_IF _ _ c th el => present c && present th && optional el
  | AST_WHILE _ _ c body => present c && present body
  | AST_FOR _ _ init c inc body =>
    optional init && optional c && optional inc && present body
  | AST_RETURN _ _ v => optional v
  | AST_EXPRESSION_STMT _ _ e => present e
  | AST_BINARY _ _ l _ r => present l && present r
  | AST_UNARY _ _ _ r => present r
  | AST_LITERAL _ _ _ | AST_VARIABLE _ _ _ => true
  | AST_ASSIGNMENT _ _ _ v => present v
  | AST_CALL _ _ _ args => forallb present args
  end.

(** A node pointer that is not null and points to a complete node. *)
Definition present (o : option AstNode) : bool :=
  match o with Some m => complete m | None => false end.

(** A node pointer that is null or points to a complete node. *)
Definition optional (o : option AstNode) : bool :=
  match o with Some m => complete m | None => true end.

(** A node pointer to a block of complete statements. *)
Definition block_ptr (o : option AstNode) : bool :=
  match o with
  | Some (AST_BLOCK _ _ stmts) => forallb complete stmts
  | _ => false
  end.

(** The flags of the parser agree: panic mode is entered only by
    [parserError], which sets [hadError] with it. *)
Definition sound (p : Parser) : Prop :=
  panicMode p = true -> hadError p = true.

(** What a routine returns when the parser has no error after it: the
    parser had no error before it either, and the result satisfies
    [Q]. *)
Definition clean {A : Type} (Q : A -> Prop) (m : PM A) : Prop :=
  forall p a p',
    sound p -> m p = Done a p' ->
    sound p' /\ (hadError p' = false -> hadError p = false /\ Q a).

(** Every routine of the grammar, at a given bound, returns a complete
    node when the parser has no error after it. *)
Definition grammar_clean (fuel : nat) : Prop :=
  clean (fun o => present o = true) (declaration fuel) /\
  (forall ty, clean (fun o => present o = true) (varDeclaration fuel ty)) /\
  (forall ty, clean (fun o => present o = true) (functionDeclaration fuel ty)) /\
  clean (fun o => present o = true) (statement fuel) /\
  clean (fun o => block_ptr o = true) (blockStatement fuel) /\
  clean (fun o => present o = true) (ifStatement fuel) /\
  clean (fun o => present o = true) (whileStatement fuel) /\
  clean (fun o => present o = true) (forStatement fuel) /\
  clean (fun o => present o = true) (returnStatement fuel) /\
  clean (fun o => present o = true) (expressionStatement fuel) /\
  clean (fun o => present o = true) (expression fuel) /\
  clean (fun o => present o = true) (assignment fuel) /\
  clean (fun o => present o = true) (logicalOr fuel) /\
  clean (fun o => present o = true) (logicalAnd fuel) /\
  clean (fun o => present o = true) (equality fuel) /\
  clean (fun o => present o = true) (comparison fuel) /\
  clean (fun o => present o = true) (term fuel) /\
  clean (fun o => present o = true) (factor fuel) /\
  clean (fun o => present o = true) (unary fuel) /\
  clean (fun o => present o = true) (call fuel) /\
  clean (fun o => present o = true) (primary fuel).

(** A generator that returns, has only appended to the output and has
    left the indentation level as it was, from every context with room
    for [n] more levels. *)
Definition appends_at (n : nat) (m : GM) : Prop :=
  forall ctx,
    INT_MIN <= indentLevel ctx ->
    indentLevel ctx + Z.of_nat n < INT_MAX ->
    exists text,
      m ctx = Some (mkCodeGen (output ctx ++ text) (indentLevel ctx)).

(* ================================================================= *)
(** * Properties *)

(** ** The lexer on keywords *)

(** C1 (evaluation of the code).  For every keyword of the table, the
    source made of exactly that keyword does not scan to one keyword
    token followed by EOF: [identifier] stops at the first continuation
    byte, since neither [0xA4] nor [0xA5] is an identifier byte, so the
    first token is an IDENTIFIER of one byte, the token after it is an
    ERROR, and the stream holds one token per byte of the keyword. *)
Theorem keyword_source_scans_bytewise :
  Forall (fun entry : list Z * TokenType =>
            let toks := tokenize (fst entry) in
            map kind_and_length (firstn 2 toks) =
              [(TOKEN_IDENTIFIER, 1); (TOKEN_ERROR, 21)] /\
            List.length toks = S (List.length (fst entry)) /\
            ~ In (snd entry) (map tk_type toks))
         hindiKeywords.
Proof.
  unfold hindiKeywords.
  repeat (apply Forall_cons;
          [ split; [ vm_compute; reflexivity
                   | split; [ vm_compute; reflexivity
                            | vm_compute; intuition discriminate ] ] | ]).
  apply Forall_nil.
Qed.

(** *** The loops of the lexer end within their bound *)

Lemma advance_while_source_start (cond : Z -> bool) (fuel : nat) (lx : Lexer) :
  source (advance_while cond fuel lx) = source lx /\
  start (advance_while cond fuel lx) = start lx.
Proof.
  revert lx; induction fuel as [| f IH]; intro lx; simpl; auto.
  destruct (cond (peek lx)); auto.
  specialize (IH (snd (lex_advance lx))); simpl in IH; exact IH.
Qed.

Lemma advance_while_current (cond : Z -> bool) (fuel : nat) (lx : Lexer) :
  (current lx <= current (advance_while cond fuel lx))%nat.
Proof.
  revert lx; induction fuel as [| f IH]; intro lx; simpl; auto.
  destruct (cond (peek lx)); auto.
  specialize (IH (snd (lex_advance lx))); simpl in IH; lia.
Qed.

Lemma peek_past_end (lx : Lexer) :
  (List.length (source lx) <= current lx)%nat -> peek lx = 0.
Proof. intro H; unfold peek, byte_at; apply nth_overflow; exact H. Qed.

(** With the bound the lexer gives it, a loop [while (cond(peek))
    advance] whose condition fails on NUL ends because the condition
    fails, not because the bound is reached. *)
Lemma advance_while_stops (cond : Z -> bool) (fuel : nat) (lx : Lexer) :
  cond 0 = false ->
  (List.length (source lx) - current lx < fuel)%nat ->
  cond (peek (advance_while cond fuel lx)) = false.
Proof.
  intro H0; revert lx; induction fuel as [| f IH]; intros lx Hf; [ lia | ].
  simpl. destruct (cond (peek lx)) eqn:E; [ | exact E ].
  apply IH; simpl.
  destruct (Nat.le_gt_cases (List.length (source lx)) (current lx)) as [Hle | Hgt].
  - rewrite (peek_past_end lx Hle), H0 in E; discriminate.
  - lia.
Qed.

Lemma advance_while_remaining_stops (cond : Z -> bool) (lx : Lexer) :
  cond 0 = false ->
  cond (peek (advance_while cond (remaining lx) lx)) = false.
Proof.
  intro H0; apply advance_while_stops; [ exact H0 | unfold remaining; lia ].
Qed.

Lemma advance_while_progress (cond : Z -> bool) (fuel : nat) (lx : Lexer) :
  cond (peek lx) = true ->
  (S (current lx) <= current (advance_while cond (S fuel) lx))%nat.
Proof.
  intro H; simpl; rewrite H.
  pose proof (advance_while_current cond fuel (snd (lex_advance lx))) as Hc.
  simpl in Hc; exact Hc.
Qed.

Lemma skipWhitespace_loop_stops (fuel : nat) (lx : Lexer) :
  (List.length (source lx) - current lx < fuel)%nat ->
  at_whitespace (skipWhitespace_loop fuel lx) = false.
Proof.
  revert lx; induction fuel as [| f IH]; intros lx Hf; [ lia | ].
  assert (Hnz : peek lx <> 0 -> (current lx < List.length (source lx))%nat).
  { intro Hp.
    destruct (Nat.le_gt_cases (List.length (source lx)) (current lx)) as [H | H];
      [ rewrite (peek_past_end lx H) in Hp; congruence | exact H ]. }
  cbn [skipWhitespace_loop].
  destruct ((peek lx =? 32) || (peek lx =? 13) || (peek lx =? 9)) eqn:E1.
  { apply IH; simpl.
    assert (peek lx <> 0)
      by (apply orb_prop in E1 as [E1 | E1];
          [ apply orb_prop in E1 as [E1 | E1] | ];
          apply Z.eqb_eq in E1; lia).
    specialize (Hnz H); lia. }
  destruct (peek lx =? 10) eqn:E2.
  { apply IH; simpl.
    assert (peek lx <> 0) by (apply Z.eqb_eq in E2; lia).
    specialize (Hnz H); lia. }
  destruct (peek lx =? 47) eqn:E3.
  - destruct (peekNext lx =? 47) eqn:E4.
    + apply IH.
      destruct (advance_while_source_start in_comment (remaining lx) lx)
        as [Hs _].
      rewrite Hs.
      assert (Hp : (S (current lx) <=
                    current (advance_while in_comment (remaining lx) lx))%nat).
      { apply advance_while_progress.
        apply Z.eqb_eq in E3; rewrite E3; reflexivity. }
      assert (peek lx <> 0) by (apply Z.eqb_eq in E3; lia).
      specialize (Hnz H); lia.
    + unfold at_whitespace. rewrite E2, E3, E4.
      apply orb_false_iff in E1 as [E1 E1c].
      apply orb_false_iff in E1 as [E1a E1b].
      rewrite E1a, E1b, E1c; reflexivity.
  - unfold at_whitespace. rewrite E2, E3.
    apply orb_false_iff in E1 as [E1 E1c].
    apply orb_false_iff in E1 as [E1a E1b].
    rewrite E1a, E1b, E1c; reflexivity.
Qed.

(** X22.  [skipWhitespace] ends in front of a byte that is neither
    white space nor the start of a comment. *)
Lemma skipWhitespace_stops (lx : Lexer) :
  at_whitespace (skipWhitespace lx) = false.
Proof.
  unfold skipWhitespace; apply skipWhitespace_loop_stops.
  unfold remaining; lia.
Qed.

(** The loop of [string] ends on the closing quote or on the NUL. *)
Lemma string_loop_stops (fuel : nat) (lx : Lexer) :
  (List.length (source lx) - current lx < fuel)%nat ->
  negb (peek (string_loop fuel lx) =? 34) &&
  negb (isAtEnd (string_loop fuel lx)) = false.
Proof.
  revert lx; induction fuel as [| f IH]; intros lx Hf; [ lia | ].
  simpl.
  destruct (negb (peek lx =? 34) && negb (isAtEnd lx)) eqn:E; [ | exact E ].
  apply IH.
  assert (Hlt : (current lx < List.length (source lx))%nat).
  { destruct (Nat.le_gt_cases (List.length (source lx)) (current lx)) as [H | H];
      [ | exact H ].
    unfold isAtEnd in E; rewrite (peek_past_end lx H) in E.
    simpl in E; discriminate. }
  destruct (peek lx =? 10); simpl; lia.
Qed.

(** *** No keyword is ever scanned *)

Lemma bytes_eqb_second (a : list Z) (x0 x1 : Z) (rest : list Z) :
  bytes_eqb a (x0 :: x1 :: rest) = true -> nth 1 a 0 = x1.
Proof.
  destruct a as [| a0 [| a1 a']]; simpl; try discriminate.
  - rewrite andb_false_r; discriminate.
  - intro H. apply andb_prop in H as [_ H]. apply andb_prop in H as [H _].
    apply Z.eqb_eq in H; exact H.
Qed.

(** A slice that equals a keyword of the table has 0xA4 as its second
    byte and is at least nine bytes long. *)
Lemma keyword_matches_second_byte (lx : Lexer) (kw : list Z) (ty : TokenType) :
  In (kw, ty) hindiKeywords ->
  keyword_matches lx kw = true ->
  byte_at (source lx) (S (start lx)) = 164 /\
  (9 <= current lx - start lx)%nat.
Proof.
  intros Hin Hm. unfold keyword_matches in Hm.
  apply andb_prop in Hm as [Hlen Heq]. apply Nat.eqb_eq in Hlen.
  unfold hindiKeywords in Hin; simpl in Hin.
  repeat (destruct Hin as [Hin | Hin];
          [ injection Hin as <- <-;
            cbn [until_nul Kw.k_int Kw.k_float Kw.k_char Kw.k_void Kw.k_if
                 Kw.k_else Kw.k_for Kw.k_while Kw.k_do Kw.k_break
                 Kw.k_continue Kw.k_return Z.eqb List.length] in *;
            split; [ | lia ];
            apply bytes_eqb_second in Heq;
            rewrite nth_firstn, nth_skipn in Heq; simpl in Heq;
            unfold byte_at; rewrite <- Heq; f_equal; lia
          | ]).
  contradiction.
Qed.

Lemma lookup_keyword_some (lx : Lexer) (tbl : list (list Z * TokenType))
      (ty : TokenType) :
  lookup_keyword lx tbl = Some ty ->
  exists kw, In (kw, ty) tbl /\ keyword_matches lx kw = true.
Proof.
  induction tbl as [| [kw ty'] rest IH]; simpl; [ discriminate | ].
  destruct (keyword_matches lx kw) eqn:E.
  - intro H; injection H as <-. exists kw; auto.
  - intro H; destruct (IH H) as [kw' [Hin Hm]]. exists kw'; auto.
Qed.

(** After one identifier-start byte, the identifier loop never ends on
    a slice of the keyword table: such a slice has 0xA4 as its second
    byte, and the loop stops in front of that byte. *)
Lemma identifier_is_never_keyword (lx : Lexer) :
  current lx = S (start lx) ->
  tk_type (fst (identifier lx)) = TOKEN_IDENTIFIER.
Proof.
  intro Hc. unfold identifier.
  destruct (lookup_keyword _ hindiKeywords) as [ty |] eqn:E; [ | reflexivity ].
  exfalso.
  apply lookup_keyword_some in E as [kw [Hin Hm]].
  apply (keyword_matches_second_byte _ _ _ Hin) in Hm as [Hb Hlen].
  destruct (advance_while_source_start isIdentifierPart (remaining lx) lx)
    as [Hs Ht].
  rewrite Hs, Ht in Hb. rewrite Ht in Hlen.
  assert (Hp : peek lx = 164) by (unfold peek; rewrite Hc; exact Hb).
  unfold remaining in Hlen; simpl in Hlen; rewrite Hp in Hlen.
  simpl in Hlen. lia.
Qed.

(** X21.  Whatever the state of the lexer, the token [scanToken]
    returns is of none of the twelve keyword kinds. *)
Lemma scanToken_never_keyword (lx : Lexer) :
  is_keyword_kind (tk_type (fst (scanToken lx))) = false.
Proof.
  unfold scanToken.
  set (lxw := skipWhitespace lx).
  set (l0 := mkLexer (source lxw) (current lxw) (current lxw) (line lxw)
                     (column lxw)).
  destruct (isAtEnd l0); [ reflexivity | ].
  unfold lex_advance; cbv zeta iota beta.
  destruct (isIdentifierStart (peek l0)).
  { rewrite identifier_is_never_keyword; reflexivity. }
  destruct (isDigit (peek l0)).
  { unfold number. destruct (_ && _); reflexivity. }
  repeat match goal with
         | |- context [if ?b then _ else _] => destruct b; try reflexivity
         end;
    unfold two_char, lex_string;
    repeat match goal with
           | |- context [lex_match ?a ?b] => destruct (lex_match a b) as [[] ?]
           | |- context [if ?b then _ else _] => destruct b
           end; reflexivity.
Qed.

(** ** Null nodes in the parser *)

(** C9 (evaluation of the code).  On the source [;] the parser reads a
    null node: [primary] reports "Expect expression." and returns null,
    the null goes up unchanged through [call] ... [assignment],
    [expressionStatement] consumes the [;] and hands the null to
    [createExpressionStmt], which reads [expression->line]. *)
Theorem parse_semicolon_reads_null :
  exists fuel p,
    parse_source fuel (bytes_of_string ";") = NullDeref p /\
    p_stderr p = [(1, 1, "Expect expression."%string)] /\
    tk_type (p_previous p) = TOKEN_SEMICOLON /\
    createExpressionStmt None = None.
Proof.
  exists 20%nat; eexists; split; [ vm_compute; reflexivity | ].
  vm_compute; auto.
Qed.

(** ** Number literals *)

(** C5 (evaluation of the code).  [1;2.5;] parses to two expression
    statements; the first literal is the token [1], whose own slice
    holds no '.', and [analyzeLiteral] types it FLOAT: [strchr] runs
    from the start of the token to the end of the source and finds the
    '.' of the second literal. *)
Theorem literal_type_reads_past_token :
  (exists fuel p rest,
      parse_source fuel two_numbers =
        Done (AST_PROGRAM 0 0
                (AST_EXPRESSION_STMT 1 1 (Some (createLiteral number_one))
                 :: rest)) p /\
      hadError p = false) /\
  token_slice two_numbers number_one = bytes_of_string "1" /\
  existsb (Z.eqb 46) (token_slice two_numbers number_one) = false /\
  forall st,
    analyzeLiteral two_numbers 1 1 number_one st = Some (TOKEN_FLOAT, st).
Proof.
  split.
  - exists 20%nat; do 2 eexists; split; vm_compute; reflexivity.
  - repeat split.
Qed.

(** ** Intrinsic names in calls *)

(** C4 (evaluation of the code).  A call whose name slice is the
    twelve bytes of the print intrinsic is written with the name as it
    is, not with [printf], and so is the read intrinsic with [scanf]:
    the tests compare the byte length of the slice with 4 and 3, the
    numbers of code points.  [printf] is written for the four-byte
    slice that begins the print intrinsic and [scanf] for the three-byte
    slice that begins the read intrinsic. *)
Theorem intrinsic_names_compare_bytes :
  token_slice (likho ++ bytes_of_string "()") (name_token 12) = likho /\
  generateCall (likho ++ bytes_of_string "()") (name_token 12) [] =
    Some (likho ++ bytes_of_string "()") /\
  token_slice (padho ++ bytes_of_string "()") (name_token 12) = padho /\
  generateCall (padho ++ bytes_of_string "()") (name_token 12) [] =
    Some (padho ++ bytes_of_string "()") /\
  token_slice (firstn 4 likho ++ bytes_of_string "()") (name_token 4)
    = firstn 4 likho /\
  generateCall (firstn 4 likho ++ bytes_of_string "()") (name_token 4) [] =
    Some (bytes_of_string "printf()") /\
  token_slice (firstn 3 padho ++ bytes_of_string "()") (name_token 3)
    = firstn 3 padho /\
  generateCall (firstn 3 padho ++ bytes_of_string "()") (name_token 3) [] =
    Some (bytes_of_string "scanf()").
Proof. repeat split. Qed.

(** ** Return statements *)

Lemma int_succ_exact (z : Z) : 0 <= z < INT_MAX -> int_succ z = z + 1.
Proof.
  unfold int_succ, wrap_int, INT_MAX, INT_MIN; intros H.
  rewrite Z.mod_small by lia. lia.
Qed.

(** C8.  A Return node analyzed, as a declaration or as a statement,
    while the current function's return type is void and a value is
    present yields exactly one more diagnostic, "Cannot return a value
    from a void function.", and the error count plus one; while the
    return type is not void and the value is absent it yields exactly
    "Missing return value in non-void function." and the error count
    plus one.  In both cases the analysis of the node fails and nothing
    else of the state changes. *)
Theorem return_value_presence_checked :
  forall (src : list Z) (entry : Entry) (line column : Z)
         (value : option AstNode) (st : SemState),
    0 <= errorCount st < INT_MAX ->
    (currentFunctionReturnType st = TOKEN_VOID -> value <> None ->
     analyzeNode src entry (AST_RETURN line column value) st =
       Some (false,
             reported st line column
                      "Cannot return a value from a void function.")) /\
    (currentFunctionReturnType st <> TOKEN_VOID -> value = None ->
     analyzeNode src entry (AST_RETURN line column value) st =
       Some (false,
             reported st line column
                      "Missing return value in non-void function.")).
Proof.
  intros src entry line column value st Hc.
  assert (Hs : int_succ (errorCount st) = errorCount st + 1)
    by (apply int_succ_exact; exact Hc).
  split; intros Hty Hv.
  - destruct value as [v|]; [ | congruence ].
    destruct entry; cbn [analyzeNode]; unfold analyzeReturnStatement,
      bindS, get_return_type, report, retS, semanticError, reported;
      rewrite Hty; cbn -[int_succ Z.add]; rewrite Hs, ?Hty; reflexivity.
  - subst value.
    destruct entry; cbn [analyzeNode]; unfold analyzeReturnStatement,
      bindS, get_return_type, report, retS, semanticError, reported;
      cbv beta; destruct (currentFunctionReturnType st) eqn:E;
      try congruence; cbn -[int_succ Z.add]; rewrite Hs, ?E; reflexivity.
Qed.

Lemma return_value_presence_checked_witness :
  0 <= errorCount in_void_function < INT_MAX /\
  analyzeNode two_numbers AsStatement
              (AST_RETURN 1 1 (Some (createLiteral number_one)))
              in_void_function =
    Some (false,
          reported in_void_function 1 1
                   "Cannot return a value from a void function.") /\
  analyzeNode two_numbers AsStatement (AST_RETURN 0 0 None) in_int_function =
    Some (false,
          reported in_int_function 0 0
                   "Missing return value in non-void function.").
Proof.
  split; [ unfold in_void_function, INT_MAX; simpl; lia | ].
  split.
  - apply (proj1 (return_value_presence_checked two_numbers AsStatement 1 1
                    (Some (createLiteral number_one)) in_void_function
                    ltac:(unfold in_void_function, INT_MAX; simpl; lia)));
      [ reflexivity | discriminate ].
  - apply (proj2 (return_value_presence_checked two_numbers AsStatement 0 0
                    None in_int_function
                    ltac:(unfold in_int_function, INT_MAX; simpl; lia)));
      [ discriminate | reflexivity ].
Defined.

(** ** Declared names and their references *)

(** C2 (evaluation of the code).  In the two programs above the
    identifier is declared (as a variable, as a parameter) and then
    referenced while the scope of the declaration is open; the slices
    of the declaration and of the reference are the same byte, and
    the analyzer reports "Undefined variable." at the reference.
    [createSymbol] copies the name with [strcpy] from the start of the
    token, so the symbol is named by the rest of the source, and
    [resolveSymbol] compares it with the rest of the source from the
    reference. *)
Theorem declared_name_not_resolved :
  token_slice declare_then_use (ident_at 25) =
    token_slice declare_then_use (ident_at 28) /\
  (exists st,
      analyzeProgram declare_then_use declare_then_use_ast fresh_state =
        Some (false, st) /\
      sem_stderr st = [ErrorLine 1 29 "Undefined variable."] /\
      map sym_name (first (table st)) = [bytes_of_string "x; x;"]) /\
  token_slice parameter_then_use (ident_at 52) =
    token_slice parameter_then_use (ident_at 57) /\
  (exists st,
      analyzeProgram parameter_then_use parameter_then_use_ast fresh_state =
        Some (false, st) /\
      sem_stderr st = [ErrorLine 1 58 "Undefined variable."]).
Proof.
  split; [ reflexivity | ].
  split; [ eexists; split; [ vm_compute; reflexivity | split; reflexivity ] | ].
  split; [ reflexivity | ].
  eexists; split; [ vm_compute; reflexivity | reflexivity ].
Qed.

(** ** The error count and the result of the analysis *)

(** C3 (evaluation of the code).  On a program that declares the same
    name twice at depth 0, [defineVariable] prints its own line and
    returns null, [analyzeVarDecl] and [analyzeProgram] return false,
    and the error count is still 0: the line is not written through
    [semanticError]. *)
Theorem redeclaration_fails_without_count :
  exists st,
    analyzeProgram (bytes_of_string "x") declared_twice_ast fresh_state =
      Some (false, st) /\
    errorCount st = 0 /\
    sem_stderr st = [DefinedLine 1 1 "Variable" (bytes_of_string "x")].
Proof.
  eexists; split; [ vm_compute; reflexivity | split; reflexivity ].
Qed.

(** *** No reference resolves to a declaration elsewhere in the source *)

Lemma until_nul_nul_free (l : list Z) :
  Forall (fun b => b <> 0) l -> until_nul l = l.
Proof.
  induction 1 as [| b l Hb _ IH]; simpl; [ reflexivity | ].
  destruct (b =? 0) eqn:E; [ apply Z.eqb_eq in E; contradiction | ].
  rewrite IH; reflexivity.
Qed.

Lemma until_nul_idempotent (l : list Z) : until_nul (until_nul l) = until_nul l.
Proof.
  induction l as [| b l IH]; simpl; [ reflexivity | ].
  destruct (b =? 0) eqn:E; simpl; [ reflexivity | ].
  rewrite E, IH; reflexivity.
Qed.

Lemma bytes_eqb_length (a b : list Z) :
  bytes_eqb a b = true -> List.length a = List.length b.
Proof.
  revert b; induction a as [| x a IH]; intros [| y b]; simpl;
    try discriminate; auto.
  intro H; apply andb_prop in H as [_ H]. rewrite (IH b H); reflexivity.
Qed.

Lemma Forall_skipn {A : Type} (P : A -> Prop) (n : nat) (l : list A) :
  Forall P l -> Forall P (skipn n l).
Proof.
  revert l; induction n as [| n IH]; intros l H; simpl; [ exact H | ].
  destruct H; [ constructor | apply IH; assumption ].
Qed.

(** In a source without NUL bytes, the names copied by [createSymbol]
    from two different offsets are different C strings: they run to the
    end of the source and so differ in length. *)
Lemma names_at_offsets_differ (src : list Z) (p q : nat) :
  Forall (fun b => b <> 0) src ->
  (p <= List.length src)%nat -> (q <= List.length src)%nat -> p <> q ->
  strcmp_eq src (sym_name (createSymbol src (SrcPtr p) SYMBOL_VARIABLE 0))
            (SrcPtr q) = false.
Proof.
  intros Hnf Hp Hq Hne. unfold strcmp_eq, createSymbol; simpl.
  rewrite until_nul_idempotent.
  rewrite !until_nul_nul_free by (apply Forall_skipn; exact Hnf).
  destruct (bytes_eqb (skipn p src) (skipn q src)) eqn:E; [ | reflexivity ].
  apply bytes_eqb_length in E. rewrite !length_skipn in E. lia.
Qed.

(** X23.  In a source without NUL, in a table whose symbols were all
    created from offsets of the source other than [q], the name at [q]
    resolves to nothing, and a variable node on that name is reported
    as undefined, whatever was declared. *)
Lemma reference_elsewhere_is_undefined
      (src : list Z) (line column : Z) (name : Token) (q : nat) (st : SemState) :
  Forall (fun b => b <> 0) src ->
  (q <= List.length src)%nat ->
  tk_start name = SrcPtr q ->
  Forall (fun s => exists p, (p <= List.length src)%nat /\ p <> q /\
                             sym_name s = cstr src (SrcPtr p))
         (first (table st)) ->
  analyzeVariable src line column name st =
    Some (TOKEN_ERROR, semanticError line column "Undefined variable." st).
Proof.
  intros Hnf Hq Hname Hall.
  assert (Hres : resolveSymbol src (table st) (SrcPtr q) = None).
  { unfold resolveSymbol. induction Hall as [| s l [p [Hp [Hne Hs]]] _ IH];
      simpl; [ reflexivity | ].
    pose proof (names_at_offsets_differ src p q Hnf Hp Hq Hne) as Hd.
    unfold createSymbol in Hd; simpl in Hd.
    rewrite Hs. simpl. rewrite Hd. exact IH. }
  unfold analyzeVariable, bindS, resolve. rewrite Hname, Hres. reflexivity.
Qed.

(** *** A redeclaration is not counted *)

(** Whenever [defineVariable] finds the name at the current depth,
    [analyzeVarDecl] fails, one line of the symbol table is printed and
    the error count is what it was. *)
Lemma analyzeVarDecl_redeclared
      (src : list Z) (line column : Z) (name : Token) (ty : TokenType)
      (st : SemState) :
  existsb (fun s => (sym_scopeDepth s =? scopeDepth (table st)) &&
                    strcmp_eq src (sym_name s) (tk_start name))
          (first (table st)) = true ->
  analyzeVarDecl src line column name ty None st =
    Some (false,
          mkSemState (errorCount st) (table st) (currentFunctionReturnType st)
                     (sem_stderr st ++
                      [DefinedLine line column "Variable"
                                   (cstr src (tk_start name))])).
Proof.
  intro H. unfold analyzeVarDecl, bindS, retS, define, defineVariable.
  simpl. rewrite H. reflexivity.
Qed.

(** ** Function or variable declaration *)

(** C6 (evaluation of the code).  After the type keyword, with an
    identifier as the current token:
    - [f () { }]: the next token is '(' and a function is parsed;
    - [f  () { }], two spaces: the next token is '(' and a variable
      declaration is parsed, with "Expect ';' after variable
      declaration." reported at the '(';
    - [x=(1);]: the next token is '=' and [functionDeclaration] is
      entered, which reports "Expect '(' after function name.".
    The test reads the two bytes after the identifier, not a token. *)
Theorem declaration_looks_at_two_bytes :
  (after_type_keyword " f () { }" = (TOKEN_IDENTIFIER, TOKEN_LPAREN) /\
   exists fuel,
     parsed_kind (declaration fuel (at_type_keyword " f () { }")) =
       ParsedFunction /\
     p_stderr (final (declaration fuel (at_type_keyword " f () { }"))) = []) /\
  (after_type_keyword " f  () { }" = (TOKEN_IDENTIFIER, TOKEN_LPAREN) /\
   exists fuel,
     parsed_kind (declaration fuel (at_type_keyword " f  () { }")) =
       ParsedVariable /\
     p_stderr (final (declaration fuel (at_type_keyword " f  () { }"))) =
       [(1, 29, "Expect ';' after variable declaration."%string)]) /\
  (after_type_keyword " x=(1);" = (TOKEN_IDENTIFIER, TOKEN_ASSIGN) /\
   exists fuel,
     p_stderr (final (declaration fuel (at_type_keyword " x=(1);"))) =
       [(1, 27, "Expect '(' after function name."%string)]).
Proof.
  split; [ split; [ vm_compute; reflexivity
                  | exists 30%nat; split; vm_compute; reflexivity ] | ].
  split; [ split; [ vm_compute; reflexivity
                  | exists 30%nat; split; vm_compute; reflexivity ] | ].
  split; [ vm_compute; reflexivity | exists 30%nat; vm_compute; reflexivity ].
Qed.

(** ** Panic mode *)

Open Scope pm_scope.

Lemma evolves_refl (p : Parser) : evolves p p.
Proof. left; repeat split. Qed.

Lemma evolves_trans (p q r : Parser) :
  evolves p q -> evolves q r -> evolves p r.
Proof.
  intros [[Hpm [Hhe Hse]] | [Hn [Hpm [Hhe [d Hd]]]]]
         [[Hpm' [Hhe' Hse']] | [Hn' [Hpm' [Hhe' [d' Hd']]]]].
  - left; repeat split; congruence.
  - right; repeat split; try congruence. exists d'; congruence.
  - right; repeat split; try congruence. exists d; congruence.
  - congruence.
Qed.

Lemma steps_ret {A : Type} (a : A) : steps (ret a).
Proof. intro p; apply evolves_refl. Qed.

Lemma steps_out_of_fuel {A : Type} : steps (@out_of_fuel A).
Proof. intro p; apply evolves_refl. Qed.

Lemma steps_bind {A B : Type} (m : PM A) (k : A -> PM B) :
  steps m -> (forall a, steps (k a)) -> steps (bind m k).
Proof.
  intros Hm Hk p. specialize (Hm p). unfold bind.
  destruct (m p) as [a p' | p' | p']; simpl in *; auto.
  eapply evolves_trans; [ exact Hm | apply Hk ].
Qed.

Lemma steps_deref (o : option AstNode) : steps (deref o).
Proof. intro p; unfold deref; destruct o; apply evolves_refl. Qed.

Lemma steps_built (o : option AstNode) : steps (built o).
Proof. intro p; unfold built; destruct o; apply evolves_refl. Qed.

Lemma steps_get_previous : steps get_previous.
Proof. intro p; apply evolves_refl. Qed.

Lemma steps_previous_type : steps previous_type.
Proof. intro p; apply evolves_refl. Qed.

Lemma steps_check (ty : TokenType) : steps (check ty).
Proof. intro p; apply evolves_refl. Qed.

Lemma steps_raw_paren_ahead : steps raw_paren_ahead.
Proof. intro p; apply evolves_refl. Qed.

Lemma steps_parserError (message : string) : steps (parserError message).
Proof.
  intro p; unfold parserError.
  destruct (panicMode p) eqn:E; simpl.
  - apply evolves_refl.
  - right; repeat split; auto. eexists; reflexivity.
Qed.

Lemma steps_advance_loop (fuel : nat) : steps (advance_loop fuel).
Proof.
  induction fuel as [| f IH]; intro p; simpl.
  - apply evolves_refl.
  - destruct (scanToken (lexer p)) as [t lx].
    destruct (negb (tt_eqb (tk_type t) TOKEN_ERROR)); simpl.
    + left; repeat split.
    + eapply evolves_trans;
        [ | apply (steps_bind (parserError (token_message t))
                              (fun _ => advance_loop f));
            [ apply steps_parserError | intro; exact IH ] ].
      left; repeat split.
Qed.

Lemma steps_advance : steps advance.
Proof.
  intro p; unfold advance.
  eapply evolves_trans; [ | apply steps_advance_loop ].
  left; repeat split.
Qed.

Lemma steps_p_match (ty : TokenType) : steps (p_match ty).
Proof.
  unfold p_match. apply steps_bind; [ apply steps_check | intro c ].
  destruct (negb c); [ apply steps_ret | ].
  apply steps_bind; [ apply steps_advance | intro; apply steps_ret ].
Qed.

Lemma steps_consume (ty : TokenType) (message : string) :
  steps (consume ty message).
Proof.
  unfold consume. apply steps_bind; [ apply steps_check | intro c ].
  destruct c; (apply steps_bind; [ | intro; apply steps_ret ]).
  - apply steps_advance.
  - apply steps_parserError.
Qed.

Lemma steps_orM (a b : PM bool) : steps a -> steps b -> steps (orM a b).
Proof.
  intros Ha Hb; unfold orM. apply steps_bind; [ exact Ha | intro x ].
  destruct x; [ apply steps_ret | exact Hb ].
Qed.

Lemma steps_not_at (ty : TokenType) : steps (not_at ty).
Proof.
  unfold not_at. apply steps_bind; [ apply steps_check | intro; apply steps_ret ].
Qed.

Lemma steps_inside_block : steps inside_block.
Proof.
  unfold inside_block. apply steps_bind; [ apply steps_not_at | intro a ].
  destruct a; [ apply steps_not_at | apply steps_ret ].
Qed.

Create HintDb steps.
#[local] Hint Resolve steps_ret steps_out_of_fuel steps_deref steps_built
  steps_get_previous steps_previous_type steps_check steps_raw_paren_ahead
  steps_parserError steps_advance steps_p_match steps_consume steps_orM
  steps_not_at steps_inside_block : steps.

(** One layer of a routine: split binds, case on the conditions, and
    close the leaves with the lemmas on the primitives and the
    hypotheses on the routines called. *)
Ltac steps_layer :=
  repeat match goal with
         | |- steps (bind _ _) => apply steps_bind; [ | intro ]
         | |- steps (if ?b then _ else _) => destruct b
         | |- steps (match ?x with _ => _ end) => destruct x
         | |- steps _ => solve [ auto 8 with steps ]
         end.

Lemma steps_match_type_keyword : steps match_type_keyword.
Proof. unfold match_type_keyword; steps_layer. Qed.

Lemma steps_binary_loop (matchOp : PM bool) (operand : PM (option AstNode)) :
  steps matchOp -> steps operand ->
  forall fuel expr, steps (binary_loop fuel matchOp operand expr).
Proof.
  intros Hm Ho fuel; induction fuel as [| f IH]; intro expr; simpl;
    steps_layer.
Qed.

Lemma steps_node_loop (more : PM bool) (item : PM (option AstNode)) :
  steps more -> steps item ->
  forall fuel acc, steps (node_loop fuel more item acc).
Proof.
  intros Hm Hi fuel; induction fuel as [| f IH]; intro acc; simpl;
    steps_layer.
Qed.

Lemma steps_args_loop (item : PM (option AstNode)) :
  steps item -> forall fuel acc, steps (args_loop fuel item acc).
Proof.
  intros Hi fuel; induction fuel as [| f IH]; intro acc; simpl; steps_layer.
Qed.

Lemma steps_params_loop :
  forall fuel acc, steps (params_loop fuel acc).
Proof.
  intro fuel; induction fuel as [| f IH]; intro acc; simpl; steps_layer.
Qed.

#[local] Hint Resolve steps_match_type_keyword steps_binary_loop
  steps_node_loop steps_args_loop steps_params_loop : steps.

Lemma grammar_steps_all (fuel : nat) : grammar_steps fuel.
Proof.
  induction fuel as [| f IH]; unfold grammar_steps.
  - repeat split; intros; apply steps_out_of_fuel.
  - destruct IH as (Hdecl & Hvar & Hfun & Hstmt & Hblock & Hif & Hwhile &
                    Hfor & Hret & Hes & Hexpr & Hassign & Hor & Hand & Heq &
                    Hcmp & Hterm & Hfactor & Hunary & Hcall & Hprim).
    repeat split; intros;
      cbn [declaration varDeclaration functionDeclaration statement
           blockStatement ifStatement whileStatement forStatement
           returnStatement expressionStatement expression assignment
           logicalOr logicalAnd equality comparison term factor unary
           call primary];
      steps_layer.
Qed.

Lemma steps_parse (fuel : nat) : steps (parse fuel).
Proof.
  unfold parse. pose proof (grammar_steps_all fuel) as (Hdecl & _).
  steps_layer.
Qed.

(** What [evolves] says of the flags and of the diagnostic stream. *)
Lemma evolves_panic (p p' : Parser) :
  evolves p p' ->
  (panicMode p = true -> panicMode p' = true /\ p_stderr p' = p_stderr p) /\
  (hadError p = true -> hadError p' = true) /\
  (List.length (p_stderr p') <= S (List.length (p_stderr p)))%nat.
Proof.
  intros [[Hpm [Hhe Hse]] | [Hn [Hpm [Hhe [d Hd]]]]].
  - repeat split; try congruence. rewrite Hse; auto.
  - repeat split; try congruence.
    rewrite Hd, length_app; simpl; lia.
Qed.

Lemma evolves_from_start (p p' : Parser) :
  panicMode p = false -> p_stderr p = [] -> evolves p p' ->
  (List.length (p_stderr p') <= 1)%nat /\
  (p_stderr p' <> [] -> panicMode p' = true /\ hadError p' = true).
Proof.
  intros Hp Hs [[Hpm [Hhe Hse]] | [Hn [Hpm [Hhe [d Hd]]]]].
  - rewrite Hse, Hs; simpl; split; [ lia | congruence ].
  - rewrite Hd, Hs; simpl; split; [ lia | auto ].
Qed.

Lemma evolves_parse_source (fuel : nat) (src : list Z) :
  evolves (mkParser (initLexer src) blank_token blank_token false false [])
          (final (parse_source fuel src)).
Proof.
  unfold parse_source, initParser.
  pose proof (steps_advance
                (mkParser (initLexer src) blank_token blank_token false false []))
    as Ha.
  destruct (advance _) as [u p1 | p1 | p1]; simpl in *; auto.
  eapply evolves_trans; [ exact Ha | apply steps_parse ].
Qed.

(** C10.  No routine of the parser leaves panic mode ([synchronize],
    the only code that clears the flag, is called by none of them):
    every routine, from every state and however it ends, either keeps
    the error state or makes the one step from normal mode to panic
    mode that prints one line.  Hence a routine started in panic mode
    ends in panic mode with the diagnostic stream unchanged, [hadError]
    once set stays set, [parserError] in panic mode does nothing, and a
    whole run from [initParser] prints at most one line, with both
    flags set when it printed one. *)
Theorem panic_mode_never_left :
  (forall fuel, grammar_steps fuel /\ steps (parse fuel)) /\
  (forall (A : Type) (m : PM A) (p : Parser),
      steps m ->
      (panicMode p = true ->
       panicMode (final (m p)) = true /\
       p_stderr (final (m p)) = p_stderr p) /\
      (hadError p = true -> hadError (final (m p)) = true)) /\
  (forall (message : string) (p : Parser),
      panicMode p = true -> parserError message p = Done tt p) /\
  (forall (fuel : nat) (src : list Z),
      (List.length (p_stderr (final (parse_source fuel src))) <= 1)%nat /\
      (p_stderr (final (parse_source fuel src)) <> [] ->
       panicMode (final (parse_source fuel src)) = true /\
       hadError (final (parse_source fuel src)) = true)).
Proof.
  split; [ intro fuel; split;
           [ apply grammar_steps_all | apply steps_parse ] | ].
  split; [ intros A m p Hm;
           destruct (evolves_panic p (final (m p)) (Hm p)) as (H1 & H2 & _);
           split; assumption | ].
  split; [ intros message p Hp; unfold parserError; rewrite Hp; reflexivity | ].
  intros fuel src.
  apply (evolves_from_start
           (mkParser (initLexer src) blank_token blank_token false false []));
    [ reflexivity | reflexivity | apply evolves_parse_source ].
Qed.

Lemma panic_mode_never_left_witness :
  panicMode panicking = true /\
  parserError "Expect expression." panicking = Done tt panicking /\
  panicMode (final (parse 20 panicking)) = true /\
  p_stderr (final (parse 20 panicking)) = p_stderr panicking.
Proof.
  destruct panic_mode_never_left as (Hall & Hrun & Hsilent & _).
  split; [ reflexivity | ].
  split; [ apply Hsilent; reflexivity | ].
  apply (proj1 (Hrun _ (parse 20) panicking (proj2 (Hall 20%nat))));
    reflexivity.
Defined.

(** ** The bound of the parser model *)

Lemma refines_refl {A : Type} (m : PM A) : refines m m.
Proof. intro p; unfold res_le; destruct (m p); auto. Qed.

Lemma refines_out_of_fuel {A : Type} (m : PM A) : refines out_of_fuel m.
Proof. intro p; exact I. Qed.

Lemma refines_bind {A B : Type} (m1 m2 : PM A) (k1 k2 : A -> PM B) :
  refines m1 m2 -> (forall a, refines (k1 a) (k2 a)) ->
  refines (bind m1 k1) (bind m2 k2).
Proof.
  intros Hm Hk p. specialize (Hm p). unfold bind.
  destruct (m1 p) as [a p' | p' | p']; simpl in Hm.
  - rewrite Hm. apply Hk.
  - rewrite Hm. reflexivity.
  - exact I.
Qed.

Create HintDb refines.
#[local] Hint Resolve refines_refl refines_out_of_fuel : refines.

Ltac refines_layer :=
  repeat match goal with
         | |- refines (bind _ _) (bind _ _) => apply refines_bind; [ | intro ]
         | |- refines (if ?b then _ else _) (if ?b then _ else _) => destruct b
         | |- refines (match ?x with _ => _ end) (match ?x with _ => _ end) =>
           destruct x
         | |- refines _ _ => solve [ auto 6 with refines ]
         end.

Lemma refines_binary_loop (matchOp : PM bool)
      (operand operand' : PM (option AstNode)) :
  refines operand operand' ->
  forall f g expr, (f <= g)%nat ->
    refines (binary_loop f matchOp operand expr)
            (binary_loop g matchOp operand' expr).
Proof.
  intros Ho f; induction f as [| f IH]; intros g expr Hle;
    [ apply refines_out_of_fuel | ].
  destruct g as [| g]; [ lia | ].
  assert (Hfg : (f <= g)%nat) by lia.
  cbn [binary_loop]; refines_layer.
Qed.

Lemma refines_node_loop (more : PM bool) (item item' : PM (option AstNode)) :
  refines item item' ->
  forall f g acc, (f <= g)%nat ->
    refines (node_loop f more item acc) (node_loop g more item' acc).
Proof.
  intros Hi f; induction f as [| f IH]; intros g acc Hle;
    [ apply refines_out_of_fuel | ].
  destruct g as [| g]; [ lia | ].
  assert (Hfg : (f <= g)%nat) by lia.
  cbn [node_loop]; refines_layer.
Qed.

Lemma refines_args_loop (item item' : PM (option AstNode)) :
  refines item item' ->
  forall f g acc, (f <= g)%nat ->
    refines (args_loop f item acc) (args_loop g item' acc).
Proof.
  intros Hi f; induction f as [| f IH]; intros g acc Hle;
    [ apply refines_out_of_fuel | ].
  destruct g as [| g]; [ lia | ].
  assert (Hfg : (f <= g)%nat) by lia.
  cbn [args_loop]; refines_layer.
Qed.

Lemma refines_params_loop :
  forall f g acc, (f <= g)%nat ->
    refines (params_loop f acc) (params_loop g acc).
Proof.
  intro f; induction f as [| f IH]; intros g acc Hle;
    [ apply refines_out_of_fuel | ].
  destruct g as [| g]; [ lia | ].
  assert (Hfg : (f <= g)%nat) by lia.
  cbn [params_loop]; refines_layer.
Qed.

#[local] Hint Resolve refines_binary_loop refines_node_loop refines_args_loop
  refines_params_loop : refines.

Lemma grammar_le_all (f : nat) : forall g, (f <= g)%nat -> grammar_le f g.
Proof.
  induction f as [| f IH]; intros g Hle; unfold grammar_le.
  - repeat split; intros; apply refines_out_of_fuel.
  - destruct g as [| g]; [ lia | ].
    assert (Hfg : (f <= g)%nat) by lia.
    destruct (IH g Hfg) as
        (Hdecl & Hvar & Hfun & Hstmt & Hblock & Hif & Hwhile &
         Hfor & Hret & Hes & Hexpr & Hassign & Hor & Hand & Heq &
         Hcmp & Hterm & Hfactor & Hunary & Hcall & Hprim).
    repeat split; intros;
      cbn [declaration varDeclaration functionDeclaration statement
           blockStatement ifStatement whileStatement forStatement
           returnStatement expressionStatement expression assignment
           logicalOr logicalAnd equality comparison term factor unary
           call primary];
      refines_layer.
Qed.

(** The result of [parse] on a source, once there is one, is the same
    for every larger bound. *)
Lemma parse_source_stable (f g : nat) (src : list Z) :
  (f <= g)%nat -> res_le (parse_source f src) (parse_source g src).
Proof.
  intro Hle. unfold parse_source.
  destruct (initParser (initLexer src)) as [u p | p | p]; simpl; auto.
  destruct (grammar_le_all f g Hle) as (Hdecl & _).
  unfold parse.
  apply (refines_bind _ _ _ _
           (refines_node_loop (not_at TOKEN_EOF) _ _ Hdecl f g [] Hle)
           (fun decls => refines_refl (ret (AST_PROGRAM 0 0 decls)))).
Qed.

Lemma expression_of_source_stable (f g : nat) (src : list Z) :
  (f <= g)%nat ->
  res_le (expression_of_source f src) (expression_of_source g src).
Proof.
  intro Hle. unfold expression_of_source.
  destruct (initParser (initLexer src)) as [u p | p | p]; simpl; auto.
  destruct (grammar_le_all f g Hle) as
      (_ & _ & _ & _ & _ & _ & _ & _ & _ & _ & Hexpr & _).
  apply Hexpr.
Qed.

(** ** Associativity *)

Lemma advance_loop_previous (fuel : nat) :
  forall p u p', advance_loop fuel p = Done u p' ->
                 p_previous p' = p_previous p.
Proof.
  induction fuel as [| f IH]; intros p u p' H; cbn [advance_loop] in H;
    [ discriminate | ].
  destruct (scanToken (lexer p)) as [t lx].
  destruct (negb (tt_eqb (tk_type t) TOKEN_ERROR)).
  - injection H as _ <-. reflexivity.
  - unfold bind, parserError in H. cbn [panicMode] in H.
    destruct (panicMode p); apply IH in H; exact H.
Qed.

(** [advance] makes the current token the previous one. *)
Lemma advance_previous (p p' : Parser) (u : unit) :
  advance p = Done u p' -> p_previous p' = p_current p.
Proof.
  unfold advance. intro H. apply advance_loop_previous in H. exact H.
Qed.

Lemma matches_p_match (ty : TokenType) : matches (p_match ty) [ty].
Proof.
  intro p.
  assert (E0 : p_match ty p =
               if tt_eqb (tk_type (p_current p)) ty
               then bind advance (fun _ => ret true) p
               else Done false p).
  { unfold p_match, check. unfold bind at 1.
    destruct (tt_eqb (tk_type (p_current p)) ty); reflexivity. }
  rewrite E0. unfold tt_eqb.
  destruct (TokenType_eq_dec (tk_type (p_current p)) ty) as [E | E].
  - split; [ reflexivity | ].
    intro H. exfalso; apply H; left; auto.
  - split; [ | reflexivity ].
    intros [H | []]. congruence.
Qed.

Lemma matches_orM (a b : PM bool) (oa ob : list TokenType) :
  matches a oa -> matches b ob -> matches (orM a b) (oa ++ ob).
Proof.
  intros Ha Hb p. destruct (Ha p) as [Ha1 Ha2]. destruct (Hb p) as [Hb1 Hb2].
  assert (E0 : orM a b p =
               match a p with
               | Done x p' => if x then Done true p' else b p'
               | NullDeref p' => NullDeref p'
               | OutOfFuel p' => OutOfFuel p'
               end).
  { unfold orM, bind. destruct (a p) as [[] p' | p' | p']; reflexivity. }
  rewrite E0.
  destruct (in_dec TokenType_eq_dec (tk_type (p_current p)) oa) as [Hin | Hout].
  - split; [ | intro H; exfalso; apply H, in_or_app; auto ].
    intros _. rewrite (Ha1 Hin). unfold bind.
    destruct (advance p); reflexivity.
  - rewrite (Ha2 Hout). split.
    + intro H. apply in_app_or in H as [H | H]; [ contradiction | ].
      exact (Hb1 H).
    + intro H. apply Hb2. intro H'. apply H, in_or_app; auto.
Qed.

(** The loop of a level nests to the left: after a first operand, two
    operators of the level, each followed by an operand, give
    [Binary(Binary(ea, op1, eb), op2, ec)]. *)
Lemma binary_loop_left (matchOp : PM bool) (operand : PM (option AstNode))
      (ops : list TokenType) :
  matches matchOp ops ->
  forall (ea : AstNode) (eb ec : option AstNode) (op1 op2 : TokenType)
         (p1 p2 p3 p4 p5 : Parser),
    tk_type (p_current p1) = op1 -> In op1 ops ->
    advance p1 = Done tt p2 ->
    operand p2 = Done eb p3 ->
    tk_type (p_current p3) = op2 -> In op2 ops ->
    advance p3 = Done tt p4 ->
    operand p4 = Done ec p5 ->
    ~ In (tk_type (p_current p5)) ops ->
    forall n,
      binary_loop (S (S (S n))) matchOp operand (Some ea) p1 =
      Done (Some (AST_BINARY (node_line ea) (node_column ea)
                    (Some (AST_BINARY (node_line ea) (node_column ea)
                                      (Some ea) op1 eb))
                    op2 ec)) p5.
Proof.
  intros Hm ea eb ec op1 op2 p1 p2 p3 p4 p5 T1 I1 A1 O2 T3 I3 A3 O4 Tend n.
  rewrite <- T1 in I1. rewrite <- T3 in I3.
  pose proof (advance_previous _ _ _ A1) as P2.
  pose proof (advance_previous _ _ _ A3) as P4.
  cbn [binary_loop].
  unfold bind at 1. rewrite (proj1 (Hm p1) I1).
  unfold bind at 1. rewrite A1. unfold ret at 1.
  unfold bind at 1, previous_type at 1.
  unfold bind at 1. rewrite O2.
  unfold bind at 1, built at 1, createBinary at 1.
  unfold bind at 1. rewrite (proj1 (Hm p3) I3).
  unfold bind at 1. rewrite A3. unfold ret at 1.
  unfold bind at 1, previous_type at 1.
  unfold bind at 1. rewrite O4.
  unfold bind at 1, built at 1, createBinary at 1.
  unfold bind at 1. rewrite (proj2 (Hm p5) Tend).
  unfold ret. rewrite P2, P4, T1, T3. reflexivity.
Qed.

Lemma operand_lifted (operand : nat -> PM (option AstNode)) (f g : nat)
      (p p' : Parser) (e : option AstNode) :
  refines (operand f) (operand g) ->
  operand f p = Done e p' -> operand g p = Done e p'.
Proof. intros R H. specialize (R p). rewrite H in R. exact R. Qed.

(** A level whose body is [expr = operand(); while (matchOp) ...]. *)
Lemma level_left (level operand : nat -> PM (option AstNode))
      (matchOp : PM bool) (ops : list TokenType) :
  (forall g, level (S g) =
             bind (operand g)
                  (fun expr => binary_loop g matchOp (operand g) expr)) ->
  matches matchOp ops ->
  (forall f g, (f <= g)%nat -> refines (operand f) (operand g)) ->
  forall (f : nat) (p : Parser) (ea : AstNode) (eb ec : option AstNode)
         (op1 op2 : TokenType) (p1 p2 p3 p4 p5 : Parser),
    operand f p = Done (Some ea) p1 ->
    tk_type (p_current p1) = op1 -> In op1 ops ->
    advance p1 = Done tt p2 ->
    operand f p2 = Done eb p3 ->
    tk_type (p_current p3) = op2 -> In op2 ops ->
    advance p3 = Done tt p4 ->
    operand f p4 = Done ec p5 ->
    ~ In (tk_type (p_current p5)) ops ->
    forall g, (f + 3 <= g)%nat ->
      level (S g) p =
      Done (Some (AST_BINARY (node_line ea) (node_column ea)
                    (Some (AST_BINARY (node_line ea) (node_column ea)
                                      (Some ea) op1 eb))
                    op2 ec)) p5.
Proof.
  intros Hbody Hm Hmono f p ea eb ec op1 op2 p1 p2 p3 p4 p5
         O0 T1 I1 A1 O2 T3 I3 A3 O4 Tend g Hg.
  assert (Hfg : (f <= g)%nat) by lia.
  pose proof (Hmono f g Hfg) as R.
  rewrite Hbody. unfold bind at 1.
  rewrite (operand_lifted operand f g _ _ _ R O0).
  destruct g as [| [| [| n]]]; try lia.
  apply (binary_loop_left matchOp _ ops Hm ea eb ec op1 op2 p1 p2 p3 p4 p5);
    try assumption.
  - exact (operand_lifted operand f _ _ _ _ R O2).
  - exact (operand_lifted operand f _ _ _ _ R O4).
Qed.

Lemma assignment_end (g : nat) (p p1 : Parser) (e : option AstNode) :
  logicalOr g p = Done e p1 ->
  tk_type (p_current p1) <> TOKEN_ASSIGN ->
  assignment (S g) p = Done e p1.
Proof.
  intros O T. cbn [assignment]. unfold bind at 1. rewrite O.
  unfold bind at 1.
  rewrite (proj2 (matches_p_match TOKEN_ASSIGN p1))
    by (intros [H | []]; congruence).
  reflexivity.
Qed.

Lemma assignment_step (g : nat) (p p1 p2 p3 : Parser) (la ca : Z) (na : Token)
      (value : option AstNode) :
  logicalOr g p = Done (Some (AST_VARIABLE la ca na)) p1 ->
  tk_type (p_current p1) = TOKEN_ASSIGN ->
  advance p1 = Done tt p2 ->
  assignment g p2 = Done value p3 ->
  assignment (S g) p =
  Done (Some (AST_ASSIGNMENT (tk_line na) (tk_column na) na value)) p3.
Proof.
  intros O T A V. cbn [assignment]. unfold bind at 1. rewrite O.
  unfold bind at 1.
  rewrite (proj1 (matches_p_match TOKEN_ASSIGN p1)) by (left; auto).
  unfold bind at 1. rewrite A. unfold ret at 1.
  unfold bind at 1. rewrite V.
  reflexivity.
Qed.

(** C7.  Binary operators associate to the left and assignment to the
    right.  For each of the six levels of binary operators, whatever
    the operands: when the operand routine returns [ea], [eb] and [ec]
    around two operators [op1] and [op2] of the level and the token
    after [ec] is no operator of the level, the level returns the node
    [Binary(Binary(ea, op1, eb), op2, ec)]; every one of the thirteen
    binary operators belongs to one of the levels.  When [logicalOr]
    returns the variables [a] and [b], each followed by [=], and then
    [ec], followed by something else, [assignment] returns the node
    [Assignment(a, Assignment(b, ec))].  On source text: for each of
    the thirteen operators the source [a op b op c] is scanned and
    parsed to the left-nested node, and [a = b = c] to the right-nested
    one, the parser stopping at the end of the input without a
    diagnostic. *)
Theorem binary_left_assignment_right :
  (forall level operand ops,
      In (level, operand, ops) binary_levels ->
      forall (f : nat) (p : Parser) (ea : AstNode) (eb ec : option AstNode)
             (op1 op2 : TokenType) (p1 p2 p3 p4 p5 : Parser),
        operand f p = Done (Some ea) p1 ->
        tk_type (p_current p1) = op1 -> In op1 ops ->
        advance p1 = Done tt p2 ->
        operand f p2 = Done eb p3 ->
        tk_type (p_current p3) = op2 -> In op2 ops ->
        advance p3 = Done tt p4 ->
        operand f p4 = Done ec p5 ->
        ~ In (tk_type (p_current p5)) ops ->
        forall g, (f + 3 <= g)%nat ->
          level (S g) p =
          Done (Some (AST_BINARY (node_line ea) (node_column ea)
                        (Some (AST_BINARY (node_line ea) (node_column ea)
                                          (Some ea) op1 eb))
                        op2 ec)) p5) /\
  (forall op, In op (map fst binary_operators) ->
              exists level operand ops,
                In (level, operand, ops) binary_levels /\ In op ops) /\
  (forall (f : nat) (p : Parser) (la ca lb cb : Z) (na nb : Token)
          (ec : option AstNode) (p1 p2 p3 p4 p5 : Parser),
      logicalOr f p = Done (Some (AST_VARIABLE la ca na)) p1 ->
      tk_type (p_current p1) = TOKEN_ASSIGN ->
      advance p1 = Done tt p2 ->
      logicalOr f p2 = Done (Some (AST_VARIABLE lb cb nb)) p3 ->
      tk_type (p_current p3) = TOKEN_ASSIGN ->
      advance p3 = Done tt p4 ->
      logicalOr f p4 = Done ec p5 ->
      tk_type (p_current p5) <> TOKEN_ASSIGN ->
      forall g, (f + 2 <= g)%nat ->
        assignment (S g) p =
        Done (Some (AST_ASSIGNMENT (tk_line na) (tk_column na) na
                      (Some (AST_ASSIGNMENT (tk_line nb) (tk_column nb) nb
                                            ec)))) p5) /\
  Forall (fun entry : TokenType * string =>
            exists fuel p,
              expression_of_source fuel (chain_source (snd entry)) =
                Done (left_nested (fst entry) (String.length (snd entry))) p /\
              clean_at_eof p)
         binary_operators /\
  (exists fuel p,
      expression_of_source fuel (bytes_of_string "a = b = c") =
        Done right_nested_assignment p /\
      clean_at_eof p).
Proof.
  split; [ | split; [ | split; [ | split ] ] ].
  - intros level operand ops Hin. unfold binary_levels in Hin.
    assert (Hmono : forall f g, (f <= g)%nat -> grammar_le f g)
      by (intros f g; apply grammar_le_all).
    repeat (destruct Hin as [Hin | Hin];
            [ injection Hin as <- <- <-;
              apply (level_left _ _ _ _ (fun g => eq_refl));
              [ repeat first [ apply matches_p_match
                             | apply (matches_orM _ _ [_] _) ]
              | intros f g Hle; apply (Hmono f g Hle) ]
            | ]).
    destruct Hin.
  - intros op Hin. unfold binary_operators in Hin. cbn [map fst] in Hin.
    assert (Hlevels :
              Forall (fun l => In l binary_levels) binary_levels)
      by (apply Forall_forall; auto).
    unfold binary_levels at 2 in Hlevels.
    repeat match type of Hlevels with
           | Forall _ (_ :: _) =>
             let H := fresh "L" in
             apply Forall_cons_iff in Hlevels as [H Hlevels]
           end.
    repeat (destruct Hin as [Hin | Hin];
            [ subst op;
              first [ eexists; eexists; eexists; split;
                      [ exact L | cbn [In]; solve [ auto 6 ] ]
                    | eexists; eexists; eexists; split;
                      [ exact L0 | cbn [In]; solve [ auto 6 ] ]
                    | eexists; eexists; eexists; split;
                      [ exact L1 | cbn [In]; solve [ auto 6 ] ]
                    | eexists; eexists; eexists; split;
                      [ exact L2 | cbn [In]; solve [ auto 6 ] ]
                    | eexists; eexists; eexists; split;
                      [ exact L3 | cbn [In]; solve [ auto 6 ] ]
                    | eexists; eexists; eexists; split;
                      [ exact L4 | cbn [In]; solve [ auto 6 ] ] ]
            | ]).
    destruct Hin.
  - intros f p la ca lb cb na nb ec p1 p2 p3 p4 p5 O0 T1 A1 O2 T3 A3 O4 Tend
           g Hg.
    destruct g as [| [| n]]; try lia.
    assert (Hfn : (f <= n)%nat) by lia.
    destruct (grammar_le_all f (S (S n)) ltac:(lia)) as
        (_ & _ & _ & _ & _ & _ & _ & _ & _ & _ & _ & _ & Hor2 & _).
    destruct (grammar_le_all f (S n) ltac:(lia)) as
        (_ & _ & _ & _ & _ & _ & _ & _ & _ & _ & _ & _ & Hor1 & _).
    destruct (grammar_le_all f n Hfn) as
        (_ & _ & _ & _ & _ & _ & _ & _ & _ & _ & _ & _ & Hor0 & _).
    apply (assignment_step (S (S n)) p p1 p2 p5 la ca na);
      [ exact (operand_lifted logicalOr f _ _ _ _ Hor2 O0) | exact T1
      | exact A1 | ].
    apply (assignment_step (S n) p2 p3 p4 p5 lb cb nb);
      [ exact (operand_lifted logicalOr f _ _ _ _ Hor1 O2) | exact T3
      | exact A3 | ].
    apply assignment_end;
      [ exact (operand_lifted logicalOr f _ _ _ _ Hor0 O4) | exact Tend ].
  - unfold binary_operators.
    repeat (apply Forall_cons;
            [ exists 20%nat; eexists; split;
              [ vm_compute; reflexivity | vm_compute; auto ] | ]).
    apply Forall_nil.
  - exists 20%nat; eexists; split; [ vm_compute; reflexivity | vm_compute; auto ].
Qed.

Lemma binary_left_assignment_right_witness :
  (exists p5,
      term 12 (parser_on (bytes_of_string "a - b + c")) =
      Done (Some (AST_BINARY 1 1
                    (Some (AST_BINARY 1 1 (Some (variable_at 0)) TOKEN_MINUS
                                      (Some (variable_at 4))))
                    TOKEN_PLUS
                    (Some (variable_at 8)))) p5) /\
  (exists p5,
      assignment 15 (parser_on (bytes_of_string "a = b = c")) =
      Done right_nested_assignment p5).
Proof.
  destruct binary_left_assignment_right as (Hbinary & _ & Hassign & _).
  split.
  - eexists.
    eapply (Hbinary term factor [TOKEN_PLUS; TOKEN_MINUS]
                    ltac:(cbn; auto 10)
                    8%nat (parser_on (bytes_of_string "a - b + c"))
                    (variable_at 0) (Some (variable_at 4))
                    (Some (variable_at 8)) TOKEN_MINUS TOKEN_PLUS).
    + vm_compute; reflexivity.
    + vm_compute; reflexivity.
    + cbn; auto.
    + vm_compute; reflexivity.
    + vm_compute; reflexivity.
    + vm_compute; reflexivity.
    + cbn; auto.
    + vm_compute; reflexivity.
    + vm_compute; reflexivity.
    + vm_compute. intros [H | [H | []]]; discriminate H.
    + lia.
  - eexists.
    eapply (Hassign 12%nat (parser_on (bytes_of_string "a = b = c"))
                    1 1 1 5 (ident_at 0) (ident_at 4)
                    (Some (variable_at 8))).
    + vm_compute; reflexivity.
    + vm_compute; reflexivity.
    + vm_compute; reflexivity.
    + vm_compute; reflexivity.
    + vm_compute; reflexivity.
    + vm_compute; reflexivity.
    + vm_compute; reflexivity.
    + vm_compute; discriminate.
    + lia.
Defined.

(** ** Every other failure is counted *)

(** Induction on a tree, through the lists and the optional children. *)
Section AstNode_nested_ind.
Variable P : AstNode -> Prop.

Hypothesis H_program : forall l c decls,
    Forall P decls -> P (AST_PROGRAM l c decls).
Hypothesis H_function : forall l c name rt params body,
    Popt P body -> P (AST_FUNCTION_DECL l c name rt params body).
Hypothesis H_var : forall l c name ty init,
    Popt P init -> P (AST_VAR_DECL l c name ty init).
Hypothesis H_block : forall l c stmts,
    Forall P stmts -> P (AST_BLOCK l c stmts).
Hypothesis H_if : forall l c cond th el,
    Popt P cond -> Popt P th -> Popt P el -> P (AST_IF l c cond th el).
Hypothesis H_while : forall l c cond body,
    Popt P cond -> Popt P body -> P (AST_WHILE l c cond body).
Hypothesis H_for : forall l c init cond incr body,
    Popt P init -> Popt P cond -> Popt P incr -> Popt P body ->
    P (AST_FOR l c init cond incr body).
Hypothesis H_return : forall l c value,
    Popt P value -> P (AST_RETURN l c value).
Hypothesis H_expression_stmt : forall l c e,
    Popt P e -> P (AST_EXPRESSION_STMT l c e).
Hypothesis H_binary : forall l c lhs op rhs,
    Popt P lhs -> Popt P rhs -> P (AST_BINARY l c lhs op rhs).
Hypothesis H_unary : forall l c op rhs,
    Popt P rhs -> P (AST_UNARY l c op rhs).
Hypothesis H_literal : forall l c value, P (AST_LITERAL l c value).
Hypothesis H_variable : forall l c name, P (AST_VARIABLE l c name).
Hypothesis H_assignment : forall l c name value,
    Popt P value -> P (AST_ASSIGNMENT l c name value).
Hypothesis H_call : forall l c name args,
    Forall (Popt P) args -> P (AST_CALL l c name args).

Fixpoint AstNode_nested_ind (n : AstNode) : P n :=
  let opt := fun o : option AstNode =>
               match o return Popt P o with
               | Some m => AstNode_nested_ind m
               | None => I
               end in
  let all := fix all (l : list AstNode) : Forall P l :=
               match l with
               | [] => Forall_nil P
               | x :: r => Forall_cons x (AstNode_nested_ind x) (all r)
               end in
  match n with
  | AST_PROGRAM l c decls => H_program l c decls (all decls)
  | AST_FUNCTION_DECL l c name rt params body =>
    H_function l c name rt params body (opt body)
  | AST_VAR_DECL l c name ty init => H_var l c name ty init (opt init)
  | AST_BLOCK l c stmts => H_block l c stmts (all stmts)
  | AST_IF l c cond th el => H_if l c cond th el (opt cond) (opt th) (opt el)
  | AST_WHILE l c cond body => H_while l c cond body (opt cond) (opt body)
  | AST_FOR l c init cond incr body =>
    H_for l c init cond incr body (opt init) (opt cond) (opt incr) (opt body)
  | AST_RETURN l c value => H_return l c value (opt value)
  | AST_EXPRESSION_STMT l c e => H_expression_stmt l c e (opt e)
  | AST_BINARY l c lhs op rhs => H_binary l c lhs op rhs (opt lhs) (opt rhs)
  | AST_UNARY l c op rhs => H_unary l c op rhs (opt rhs)
  | AST_LITERAL l c value => H_literal l c value
  | AST_VARIABLE l c name => H_variable l c name
  | AST_ASSIGNMENT l c name value => H_assignment l c name value (opt value)
  | AST_CALL l c name args =>
    H_call l c name args
           ((fix allo (l : list (option AstNode)) : Forall (Popt P) l :=
               match l with
               | [] => Forall_nil (Popt P)
               | x :: r => Forall_cons x (opt x) (allo r)
               end) args)
  end.
End AstNode_nested_ind.

Open Scope sm_scope.

Lemma error_lines_app (a b : list StderrLine) :
  error_lines (a ++ b) = (error_lines a + error_lines b)%nat.
Proof. unfold error_lines; rewrite filter_app, length_app; reflexivity. Qed.

Lemma grows_refl (st : SemState) : grows st st.
Proof. exists []; rewrite app_nil_r; split; reflexivity. Qed.

Lemma grows_trans (a b c : SemState) : grows a b -> grows b c -> grows a c.
Proof.
  intros [n1 [H1 E1]] [n2 [H2 E2]]. exists (n1 ++ n2); split.
  - rewrite H2, H1, app_assoc; reflexivity.
  - rewrite E2, E1, error_lines_app, Nat.add_comm, Nat.iter_add; reflexivity.
Qed.

Lemma grows_length (a b : SemState) :
  grows a b -> (List.length (sem_stderr a) <= List.length (sem_stderr b))%nat.
Proof. intros [n [H _]]; rewrite H, length_app; lia. Qed.

Lemma bindS_inv {A B : Type} (m : SM A) (k : A -> SM B) (st : SemState)
      (r : B * SemState) :
  bindS m k st = Some r ->
  exists a st1, m st = Some (a, st1) /\ k a st1 = Some r.
Proof.
  unfold bindS; destruct (m st) as [[a st1] |]; [ | discriminate ].
  intro H; exists a, st1; auto.
Qed.

Lemma tracked_bind {A B : Type} (m : SM A) (k : A -> SM B) :
  tracked m -> (forall a, tracked (k a)) -> tracked (bindS m k).
Proof.
  intros Hm Hk st b st' H.
  apply bindS_inv in H as (a & st1 & H1 & H2).
  eapply grows_trans; [ eapply Hm; exact H1 | eapply Hk; exact H2 ].
Qed.

Lemma tracked_retS {A : Type} (a : A) : tracked (retS a).
Proof. intros st x st' H; injection H as _ <-; apply grows_refl. Qed.

Lemma tracked_crashS {A : Type} : tracked (@crashS A).
Proof. intros st x st' H; discriminate. Qed.

Lemma tracked_report (line column : Z) (message : string) :
  tracked (report line column message).
Proof.
  intros st x st' H; injection H as _ <-.
  exists [ErrorLine line column message]; split; reflexivity.
Qed.

Lemma report_printed (line column : Z) (message : string) (st : SemState)
      (u : unit) (st' : SemState) :
  report line column message st = Some (u, st') -> printed st st'.
Proof.
  intro H; injection H as _ <-. unfold printed; simpl.
  rewrite length_app; simpl; lia.
Qed.

Lemma tracked_get_return_type : tracked get_return_type.
Proof. intros st x st' H; injection H as _ <-; apply grows_refl. Qed.

Lemma tracked_set_return_type (ty : TokenType) : tracked (set_return_type ty).
Proof.
  intros st x st' H; injection H as _ <-.
  exists []; simpl; rewrite app_nil_r; split; reflexivity.
Qed.

Lemma tracked_on_table (f : SymbolTable -> SymbolTable) : tracked (on_table f).
Proof.
  intros st x st' H; injection H as _ <-.
  exists []; simpl; rewrite app_nil_r; split; reflexivity.
Qed.

Lemma tracked_resolve (src : list Z) (name : Ptr) : tracked (resolve src name).
Proof. intros st x st' H; injection H as _ <-; apply grows_refl. Qed.

Lemma tracked_define_variable (src : list Z) (name : Ptr) (ty : TokenType)
      (line column : Z) :
  tracked (define (fun t => defineVariable src t name ty line column)).
Proof.
  intros st x st' H. unfold define, defineVariable in H.
  destruct (existsb _ _); injection H as _ <-; eexists; split; reflexivity.
Qed.

Lemma tracked_define_function (src : list Z) (name : Ptr) (ty : TokenType)
      (count : Z) (types : list TokenType) (line column : Z) :
  tracked (define (fun t => defineFunction src t name ty count types
                                           line column)).
Proof.
  intros st x st' H. unfold define, defineFunction in H.
  destruct (existsb _ _); injection H as _ <-; eexists; split; reflexivity.
Qed.

Create HintDb tracked.
#[local] Hint Resolve tracked_retS tracked_crashS tracked_report
  tracked_get_return_type tracked_set_return_type tracked_on_table
  tracked_resolve tracked_define_variable tracked_define_function : tracked.

Ltac tracked_layer :=
  repeat match goal with
         | |- tracked (bindS _ _) => apply tracked_bind; [ | intro ]
         | |- tracked (if ?b then _ else _) => destruct b
         | |- tracked (match ?x with _ => _ end) =>
           destruct x; cbn [Popt] in *
         | |- tracked _ => solve [ auto 6 with tracked ]
         end.

Lemma tracked_analyzeBinary_types (line column : Z) (op l r : TokenType) :
  tracked (analyzeBinary_types line column op l r).
Proof. unfold analyzeBinary_types; tracked_layer. Qed.

Lemma tracked_analyzeUnary_type (line column : Z) (op t : TokenType) :
  tracked (analyzeUnary_type line column op t).
Proof. unfold analyzeUnary_type; tracked_layer. Qed.

Lemma tracked_analyzeLiteral (src : list Z) (line column : Z) (value : Token) :
  tracked (analyzeLiteral src line column value).
Proof. unfold analyzeLiteral; tracked_layer. Qed.

Lemma tracked_analyzeVariable (src : list Z) (line column : Z) (name : Token) :
  tracked (analyzeVariable src line column name).
Proof. unfold analyzeVariable; tracked_layer. Qed.

Lemma tracked_analyzeAssignment_value (src : list Z) (line column : Z)
      (name : Token) (ty : TokenType) :
  tracked (analyzeAssignment_value src line column name ty).
Proof. unfold analyzeAssignment_value; tracked_layer. Qed.

Lemma tracked_check_argument (arg : option AstNode) (a p : TokenType) :
  tracked (check_argument arg a p).
Proof. unfold check_argument; tracked_layer. Qed.

Lemma tracked_check_condition (cond : option AstNode) (ty : TokenType) :
  tracked (check_condition cond ty).
Proof. unfold check_condition; tracked_layer. Qed.

#[local] Hint Resolve tracked_analyzeBinary_types tracked_analyzeUnary_type
  tracked_analyzeLiteral tracked_analyzeVariable
  tracked_analyzeAssignment_value tracked_check_argument
  tracked_check_condition : tracked.

Lemma tracked_arguments_loop (analyze : option AstNode -> SM TokenType)
      (args : list (option AstNode)) :
  Forall (fun a => tracked (analyze a)) args ->
  forall types, tracked (arguments_loop analyze args types).
Proof.
  induction 1 as [| a rest Ha _ IH]; intro types; cbn [arguments_loop];
    tracked_layer.
Qed.

Lemma tracked_analyzeExpression (src : list Z) (node : AstNode) :
  tracked (analyzeExpression src node).
Proof.
  induction node using AstNode_nested_ind; cbn [analyzeExpression];
    cbn [Popt] in *; tracked_layer.
  apply tracked_arguments_loop.
  eapply Forall_impl; [ | eassumption ].
  intros [a |] Ha; cbn [Popt] in Ha; auto with tracked.
Qed.

Lemma tracked_analyzeExpression_ptr (src : list Z) (o : option AstNode) :
  tracked (analyzeExpression_ptr src o).
Proof.
  destruct o; simpl; [ apply tracked_analyzeExpression | apply tracked_retS ].
Qed.

#[local] Hint Resolve tracked_analyzeExpression tracked_analyzeExpression_ptr
  : tracked.

Lemma checked_tracked (m : SM bool) : checked m -> tracked m.
Proof. intros H st b st' E; exact (proj1 (H st b st' E)). Qed.

Lemma checked_retS_true : checked (retS true).
Proof.
  intros st b st' H; injection H as <- <-.
  split; [ apply grows_refl | discriminate ].
Qed.

Lemma checked_crashS : checked crashS.
Proof. intros st b st' H; discriminate. Qed.

Lemma checked_bind_tracked {A : Type} (m : SM A) (k : A -> SM bool) :
  tracked m -> (forall a, checked (k a)) -> checked (bindS m k).
Proof.
  intros Hm Hk st b st' H.
  apply bindS_inv in H as (a & st1 & H1 & H2).
  pose proof (Hm _ _ _ H1) as G1.
  destruct (Hk a _ _ _ H2) as [G2 P2].
  split; [ eapply grows_trans; eassumption | ].
  intro Hb. pose proof (grows_length _ _ G1). specialize (P2 Hb).
  unfold printed in *; lia.
Qed.

(** After an analysis that may fail: when it failed it has printed, and
    what follows only has to keep the stream growing. *)
Lemma checked_bind (m : SM bool) (k : bool -> SM bool) :
  checked m -> checked (k true) -> tracked (k false) ->
  checked (bindS m k).
Proof.
  intros Hm Ht Hf st b st' H.
  apply bindS_inv in H as (a & st1 & H1 & H2).
  destruct (Hm _ _ _ H1) as [G1 P1].
  destruct a.
  - destruct (Ht _ _ _ H2) as [G2 P2].
    split; [ eapply grows_trans; eassumption | ].
    intro Hb. pose proof (grows_length _ _ G1). specialize (P2 Hb).
    unfold printed in *; lia.
  - pose proof (Hf _ _ _ H2) as G2.
    split; [ eapply grows_trans; eassumption | ].
    intros _. pose proof (grows_length _ _ G2). specialize (P1 eq_refl).
    unfold printed in *; lia.
Qed.

Lemma checked_report_false (line column : Z) (message : string) :
  checked (report line column message ;;; retS false).
Proof.
  intros st b st' H.
  apply bindS_inv in H as (u & st1 & H1 & H2). injection H2 as <- <-.
  split; [ eapply tracked_report; exact H1 | ].
  intros _; eapply report_printed; exact H1.
Qed.

Lemma checked_define_variable (src : list Z) (name : Ptr) (ty : TokenType)
      (line column : Z) :
  checked (symbol <- define (fun t => defineVariable src t name ty line column) ;;
           retS (match symbol with Some _ => true | None => false end)).
Proof.
  intros st b st' H.
  apply bindS_inv in H as (o & st1 & H1 & H2). injection H2 as <- <-.
  split; [ eapply tracked_define_variable; exact H1 | ].
  unfold define, defineVariable in H1.
  destruct (existsb _ _); injection H1 as <- <-; [ | discriminate ].
  intros _; unfold printed; simpl; rewrite length_app; simpl; lia.
Qed.

#[local] Hint Resolve checked_tracked : tracked.

Create HintDb checked.
#[local] Hint Resolve checked_retS_true checked_crashS checked_report_false
  checked_define_variable : checked.

Ltac checked_layer :=
  repeat match goal with
         | |- checked _ => solve [ auto 6 with checked tracked ]
         | |- checked (bindS _ _) =>
           first [ apply checked_bind;
                   [ solve [ checked_layer ]
                   | cbv beta iota delta [negb andb]
                   | solve [ cbv beta iota delta [negb andb]; tracked_layer ] ]
                 | apply checked_bind_tracked;
                   [ solve [ tracked_layer ] | intro ] ]
         | |- checked (if ?b then _ else _) => destruct b
         | |- checked (match ?x with _ => _ end) =>
           destruct x; cbn [Popt] in *
         end.

Lemma checked_analyzeVarDecl (src : list Z) (line column : Z) (name : Token)
      (ty : TokenType) (init : option AstNode) :
  checked (analyzeVarDecl src line column name ty init).
Proof. unfold analyzeVarDecl; checked_layer. Qed.

Lemma checked_analyzeReturnStatement (src : list Z) (line column : Z)
      (value : option AstNode) :
  checked (analyzeReturnStatement src line column value).
Proof. unfold analyzeReturnStatement; checked_layer. Qed.

Lemma checked_analyzeExpressionStatement (src : list Z) (e : option AstNode) :
  checked (analyzeExpressionStatement src e).
Proof. unfold analyzeExpressionStatement; checked_layer. Qed.

Lemma checked_declarations_loop (analyze : AstNode -> SM bool)
      (l : list AstNode) :
  Forall (fun d => checked (analyze d)) l ->
  checked (declarations_loop analyze l).
Proof.
  induction 1 as [| d rest Hd _ IH]; cbn [declarations_loop]; checked_layer.
Qed.

Lemma checked_analyzeBlock (analyze : AstNode -> SM bool) (l : list AstNode) :
  Forall (fun d => checked (analyze d)) l ->
  checked (analyzeBlock analyze l).
Proof.
  intro H. pose proof (checked_declarations_loop analyze l H) as Hl.
  unfold analyzeBlock; checked_layer.
Qed.

Lemma tracked_define_params (src : list Z) (params : list (Token * TokenType)) :
  tracked (define_params src params).
Proof.
  induction params as [| [name ty] rest IH]; cbn [define_params]; tracked_layer.
Qed.

#[local] Hint Resolve checked_analyzeVarDecl checked_analyzeReturnStatement
  checked_analyzeExpressionStatement : checked.
#[local] Hint Resolve tracked_define_params : tracked.

Lemma checked_analyzeNode (src : list Z) (node : AstNode) :
  forall entry, checked (analyzeNode src entry node).
Proof.
  induction node using AstNode_nested_ind; intro entry;
    cbn [analyzeNode]; cbn [Popt] in *.
  2: { destruct entry; [ | checked_layer ].
       destruct body as [b |]; [ | checked_layer ].
       destruct b; try solve [ clear H; checked_layer ].
       cbn [Popt] in H. pose proof (H AsStatement) as Hblock.
       cbn [analyzeNode] in Hblock. clear H.
       do 4 (apply checked_bind_tracked; [ solve [ tracked_layer ] | intro ]).
       apply checked_bind;
         [ exact Hblock
         | clear Hblock; cbv beta; checked_layer
         | clear Hblock; cbv beta; tracked_layer ]. }
  all: checked_layer;
    try (apply checked_analyzeBlock; eapply Forall_impl; [ | eassumption ];
         intros d Hd; apply Hd).
Qed.

Lemma tracked_register_functions (src : list Z) (decls : list AstNode) :
  tracked (register_functions src decls).
Proof.
  induction decls as [| d rest IH]; cbn [register_functions];
    [ apply tracked_retS | ].
  destruct d; tracked_layer.
Qed.

Lemma error_lines_zero (l : list StderrLine) :
  error_lines l = 0%nat -> Forall (fun x => is_error_line x = false) l.
Proof.
  unfold error_lines; induction l as [| x l IH]; simpl; [ constructor | ].
  destruct (is_error_line x) eqn:E; simpl; [ discriminate | ].
  intro H; constructor; auto.
Qed.

(** X20.  When [analyzeProgram], started with a count of 0, returns
    false, it has printed at least one line; the count was incremented once for
    each line of [semanticError]; so a failure with the count still at
    0 has printed only lines of the symbol table. *)
Lemma failure_is_printed (src : list Z) (program : AstNode)
      (st st' : SemState) :
  errorCount st = 0 ->
  analyzeProgram src program st = Some (false, st') ->
  exists new,
    sem_stderr st' = sem_stderr st ++ new /\ new <> [] /\
    errorCount st' = Nat.iter (error_lines new) int_succ 0 /\
    (error_lines new = 0%nat ->
     Forall (fun x => is_error_line x = false) new).
Proof.
  intros H0 H. destruct program; try discriminate. unfold analyzeProgram in H.
  apply bindS_inv in H as (u & st1 & H1 & H).
  apply bindS_inv in H as (ok & st2 & H2 & H3).
  pose proof (tracked_register_functions _ _ _ _ _ H1) as G1.
  assert (Hloop : checked (declarations_loop (analyzeDeclaration src)
                                             declarations)).
  { apply checked_declarations_loop. apply Forall_forall; intros d _.
    apply checked_analyzeNode. }
  destruct (Hloop _ _ _ H2) as [G2 P2].
  pose proof (grows_trans _ _ _ G1 G2) as [new [Hnew Hcount]].
  rewrite H0 in Hcount.
  destruct ok.
  - injection H3 as Hz <-.
    exists new; repeat split; auto using error_lines_zero.
    intro Hn; subst new. unfold error_lines in Hcount; simpl in Hcount.
    rewrite Hcount in Hz; discriminate.
  - injection H3 as <-.
    exists new; repeat split; auto using error_lines_zero.
    intro Hn; subst new. rewrite app_nil_r in Hnew.
    specialize (P2 eq_refl). pose proof (grows_length _ _ G1).
    unfold printed in P2. rewrite Hnew in P2. lia.
Qed.

(** When [analyzeProgram] returns true the count is 0. *)
Lemma success_means_zero (src : list Z) (program : AstNode)
      (st st' : SemState) :
  analyzeProgram src program st = Some (true, st') -> errorCount st' = 0.
Proof.
  intro H. destruct program; try discriminate. unfold analyzeProgram in H.
  apply bindS_inv in H as (u & st1 & _ & H).
  apply bindS_inv in H as (ok & st2 & _ & H).
  destruct ok; [ | discriminate ].
  injection H as Hz <-. apply Z.eqb_eq; exact Hz.
Qed.

Close Scope sm_scope.

(* ================================================================= *)
(** * Further properties of the code *)

(** ** The symbol table *)

Lemma bytes_eqb_refl (a : list Z) : bytes_eqb a a = true.
Proof.
  induction a as [| x a IH]; simpl; [ reflexivity | ].
  rewrite Z.eqb_refl, IH; reflexivity.
Qed.

Lemma cstr_until_nul (src : list Z) (p : Ptr) :
  until_nul (cstr src p) = cstr src p.
Proof. destruct p; simpl; apply until_nul_idempotent. Qed.

(** A name compares equal to its own copy. *)
Lemma strcmp_eq_copy (src : list Z) (name : Ptr) :
  strcmp_eq src (cstr src name) name = true.
Proof. unfold strcmp_eq; rewrite cstr_until_nul; apply bytes_eqb_refl. Qed.

(** X1.  Insert and look up.  When [defineVariable] or
    [defineFunction] returns a symbol, [resolveSymbol] on the new table
    with the same name pointer returns that symbol, in front of any
    older symbol of that name; the symbol carries the given type, the
    current depth for a variable and depth 0 for a function, and the
    definition printed nothing. *)
Theorem defined_name_resolves :
  forall (src : list Z) (t t' : SymbolTable) (name : Ptr) (ty : TokenType)
         (line column : Z) (sym : Symbol) (out : list StderrLine),
    (defineVariable src t name ty line column = (Some sym, t', out) ->
     resolveSymbol src t' name = Some sym /\
     first t' = sym :: first t /\ scopeDepth t' = scopeDepth t /\
     sym_type sym = SYMBOL_VARIABLE /\ dataType sym = ty /\
     sym_scopeDepth sym = scopeDepth t /\ out = []) /\
    (forall count types,
        defineFunction src t name ty count types line column
          = (Some sym, t', out) ->
        resolveSymbol src t' name = Some sym /\
        first t' = sym :: first t /\ scopeDepth t' = scopeDepth t /\
        sym_type sym = SYMBOL_FUNCTION /\ dataType sym = ty /\
        paramCount sym = count /\ sym_scopeDepth sym = 0 /\ out = []).
Proof.
  intros src t t' name ty line column sym out; split.
  - unfold defineVariable. destruct (existsb _ _); [ discriminate | ].
    intro H; injection H as <- <- <-.
    unfold resolveSymbol; simpl. rewrite strcmp_eq_copy. repeat split.
  - intros count types. unfold defineFunction.
    destruct (existsb _ _); [ discriminate | ].
    intro H; injection H as <- <- <-.
    unfold resolveSymbol; simpl. rewrite strcmp_eq_copy. repeat split.
Qed.

Lemma defined_name_resolves_witness :
  let src := bytes_of_string "x" in
  let sym := mkSymbol (bytes_of_string "x") SYMBOL_VARIABLE TOKEN_INT 0 [] 0 in
  defineVariable src initSymbolTable (SrcPtr 0) TOKEN_INT 1 1 =
    (Some sym, mkSymbolTable [sym] 0, []) /\
  resolveSymbol src (mkSymbolTable [sym] 0) (SrcPtr 0) = Some sym.
Proof.
  split; [ reflexivity | ].
  apply (proj1 (defined_name_resolves (bytes_of_string "x") initSymbolTable
                  _ (SrcPtr 0) TOKEN_INT 1 1 _ []) eq_refl).
Defined.

Lemma int_succ_below_max (d : Z) :
  INT_MIN <= d < INT_MAX -> int_succ d = d + 1.
Proof.
  unfold int_succ, wrap_int, INT_MAX, INT_MIN; intros H.
  rewrite Z.mod_small by lia. lia.
Qed.

Lemma int_pred_above_min (d : Z) :
  INT_MIN < d <= INT_MAX -> int_pred d = d - 1.
Proof.
  unfold int_pred, wrap_int, INT_MAX, INT_MIN; intros H.
  rewrite Z.mod_small by lia. lia.
Qed.

(** [defineVariable] keeps the depth of the table and only ever adds,
    in front, a symbol of the current depth. *)
Lemma defineVariable_adds (src : list Z) (t : SymbolTable) (name : Ptr)
      (ty : TokenType) (line column : Z) :
  let t' := snd (fst (defineVariable src t name ty line column)) in
  scopeDepth t' = scopeDepth t /\
  (first t' = first t \/
   exists s, first t' = s :: first t /\ sym_scopeDepth s = scopeDepth t).
Proof.
  unfold defineVariable. destruct (existsb _ _); simpl; split; auto.
  right; eexists; split; reflexivity.
Qed.

Lemma defineVariables_adds (src : list Z) (defs : list (Ptr * TokenType)) :
  forall t,
    scopeDepth (defineVariables src t defs) = scopeDepth t /\
    exists added,
      first (defineVariables src t defs) = added ++ first t /\
      Forall (fun s => sym_scopeDepth s = scopeDepth t) added.
Proof.
  induction defs as [| [name ty] rest IH]; intro t; simpl.
  - split; [ reflexivity | exists []; split; [ reflexivity | constructor ] ].
  - destruct (defineVariable_adds src t name ty 0 0) as [Hd Hf].
    destruct (IH (snd (fst (defineVariable src t name ty 0 0))))
      as [Hd' [added [Ha HF]]].
    rewrite Hd in Hd', HF. split; [ exact Hd' | ].
    destruct Hf as [Hf | [s [Hf Hs]]]; rewrite Hf in Ha.
    + exists added; auto.
    + exists (added ++ [s]); split.
      * rewrite Ha, <- app_assoc; reflexivity.
      * apply Forall_app; split; [ exact HF | constructor; auto ].
Qed.

(** Filtering out one depth removes the symbols of that depth and keeps
    the shallower ones. *)
Lemma filter_scope (d : Z) (added old : list Symbol) :
  Forall (fun s => sym_scopeDepth s = d) added ->
  Forall (fun s => sym_scopeDepth s < d) old ->
  filter (fun s => negb (sym_scopeDepth s =? d)) (added ++ old) = old.
Proof.
  intros Ha Ho. rewrite filter_app.
  replace (filter _ added) with (@nil Symbol).
  - simpl. induction Ho as [| s old Hs _ IH]; simpl; [ reflexivity | ].
    destruct (sym_scopeDepth s =? d) eqn:E;
      [ apply Z.eqb_eq in E; lia | simpl; rewrite IH; reflexivity ].
  - induction Ha as [| s added Hs _ IH]; simpl; [ reflexivity | ].
    rewrite Hs, Z.eqb_refl; simpl; exact IH.
Qed.

(** X2.  Leaving a scope undoes it.  On a table none of whose symbols
    is deeper than the current scope, and below the largest depth,
    opening a scope, defining any variables in it and closing the scope
    gives back the table exactly: every symbol defined in the scope is
    removed, every older symbol is kept in its place, the depth is
    restored. *)
Theorem endScope_restores_table :
  forall (src : list Z) (t : SymbolTable) (defs : list (Ptr * TokenType)),
    well_scoped t ->
    INT_MIN <= scopeDepth t < INT_MAX ->
    endScope (defineVariables src (beginScope t) defs) = t.
Proof.
  intros src t defs Hw Hd.
  destruct (defineVariables_adds src defs (beginScope t))
    as [Hdepth [added [Hfirst Hadded]]].
  unfold endScope. rewrite Hdepth, Hfirst.
  cbn [beginScope scopeDepth first] in *.
  rewrite (int_succ_below_max _ Hd) in *.
  rewrite filter_scope;
    [ | exact Hadded
      | eapply Forall_impl; [ | exact Hw ]; simpl; intros; lia ].
  rewrite int_pred_above_min by (unfold INT_MAX, INT_MIN in *; lia).
  replace (scopeDepth t + 1 - 1) with (scopeDepth t) by lia.
  destruct t; reflexivity.
Qed.

Lemma endScope_restores_table_witness :
  let src := bytes_of_string "x y" in
  let outer := mkSymbol (bytes_of_string "x y") SYMBOL_VARIABLE TOKEN_INT 0 [] 0 in
  let t := mkSymbolTable [outer] 0 in
  well_scoped t /\ INT_MIN <= scopeDepth t < INT_MAX /\
  List.length (first (defineVariables src (beginScope t)
                        [(SrcPtr 0, TOKEN_FLOAT); (SrcPtr 2, TOKEN_CHAR)])) = 3%nat /\
  endScope (defineVariables src (beginScope t)
              [(SrcPtr 0, TOKEN_FLOAT); (SrcPtr 2, TOKEN_CHAR)]) = t.
Proof.
  assert (Hw : well_scoped
                 (mkSymbolTable
                    [mkSymbol (bytes_of_string "x y") SYMBOL_VARIABLE
                              TOKEN_INT 0 [] 0] 0))
    by (repeat constructor; simpl; lia).
  assert (Hd : INT_MIN <= 0 < INT_MAX) by (unfold INT_MIN, INT_MAX; lia).
  split; [ exact Hw | ]. split; [ exact Hd | ]. split; [ reflexivity | ].
  apply (endScope_restores_table (bytes_of_string "x y") _ _ Hw Hd).
Defined.

(** ** Type inference *)

Open Scope sm_scope.

Lemma same_symbols_refl (st : SemState) : same_symbols st st.
Proof. split; reflexivity. Qed.

Lemma same_symbols_trans (a b c : SemState) :
  same_symbols a b -> same_symbols b c -> same_symbols a c.
Proof. intros [H1 H2] [H3 H4]; split; congruence. Qed.

Lemma keeps_bind {A B : Type} (m : SM A) (k : A -> SM B) :
  keeps m -> (forall a, keeps (k a)) -> keeps (bindS m k).
Proof.
  intros Hm Hk st b st' H.
  apply bindS_inv in H as (a & st1 & H1 & H2).
  eapply same_symbols_trans; [ eapply Hm; exact H1 | eapply Hk; exact H2 ].
Qed.

Lemma keeps_retS {A : Type} (a : A) : keeps (retS a).
Proof. intros st x st' H; injection H as _ <-; apply same_symbols_refl. Qed.

Lemma keeps_crashS {A : Type} : keeps (@crashS A).
Proof. intros st x st' H; discriminate. Qed.

Lemma keeps_report (line column : Z) (message : string) :
  keeps (report line column message).
Proof. intros st x st' H; injection H as _ <-; split; reflexivity. Qed.

Lemma keeps_get_return_type : keeps get_return_type.
Proof. intros st x st' H; injection H as _ <-; apply same_symbols_refl. Qed.

Lemma keeps_resolve (src : list Z) (name : Ptr) : keeps (resolve src name).
Proof. intros st x st' H; injection H as _ <-; apply same_symbols_refl. Qed.

Create HintDb keeps.
#[local] Hint Resolve keeps_retS keeps_crashS keeps_report
  keeps_get_return_type keeps_resolve : keeps.

Ltac keeps_layer :=
  repeat match goal with
         | |- keeps (bindS _ _) => apply keeps_bind; [ | intro ]
         | |- keeps (if ?b then _ else _) => destruct b
         | |- keeps (match ?x with _ => _ end) =>
           destruct x; cbn [Popt] in *
         | |- keeps _ => solve [ auto 6 with keeps ]
         end.

Lemma keeps_analyzeBinary_types (line column : Z) (op l r : TokenType) :
  keeps (analyzeBinary_types line column op l r).
Proof. unfold analyzeBinary_types; keeps_layer. Qed.

Lemma keeps_analyzeUnary_type (line column : Z) (op t : TokenType) :
  keeps (analyzeUnary_type line column op t).
Proof. unfold analyzeUnary_type; keeps_layer. Qed.

Lemma keeps_analyzeLiteral (src : list Z) (line column : Z) (value : Token) :
  keeps (analyzeLiteral src line column value).
Proof. unfold analyzeLiteral; keeps_layer. Qed.

Lemma keeps_analyzeVariable (src : list Z) (line column : Z) (name : Token) :
  keeps (analyzeVariable src line column name).
Proof. unfold analyzeVariable; keeps_layer. Qed.

Lemma keeps_analyzeAssignment_value (src : list Z) (line column : Z)
      (name : Token) (ty : TokenType) :
  keeps (analyzeAssignment_value src line column name ty).
Proof. unfold analyzeAssignment_value; keeps_layer. Qed.

Lemma keeps_check_argument (arg : option AstNode) (a p : TokenType) :
  keeps (check_argument arg a p).
Proof. unfold check_argument; keeps_layer. Qed.

Lemma keeps_check_condition (cond : option AstNode) (ty : TokenType) :
  keeps (check_condition cond ty).
Proof. unfold check_condition; keeps_layer. Qed.

#[local] Hint Resolve keeps_analyzeBinary_types keeps_analyzeUnary_type
  keeps_analyzeLiteral keeps_analyzeVariable keeps_analyzeAssignment_value
  keeps_check_argument keeps_check_condition : keeps.

Lemma keeps_arguments_loop (analyze : option AstNode -> SM TokenType)
      (args : list (option AstNode)) :
  Forall (fun a => keeps (analyze a)) args ->
  forall types, keeps (arguments_loop analyze args types).
Proof.
  induction 1 as [| a rest Ha _ IH]; intro types; cbn [arguments_loop];
    keeps_layer.
Qed.

Lemma keeps_analyzeExpression (src : list Z) (node : AstNode) :
  keeps (analyzeExpression src node).
Proof.
  induction node using AstNode_nested_ind; cbn [analyzeExpression];
    cbn [Popt] in *; keeps_layer.
  apply keeps_arguments_loop.
  eapply Forall_impl; [ | eassumption ].
  intros [a |] Ha; cbn [Popt] in Ha; auto with keeps.
Qed.

Lemma keeps_analyzeExpression_ptr (src : list Z) (o : option AstNode) :
  keeps (analyzeExpression_ptr src o).
Proof.
  destruct o; simpl; [ apply keeps_analyzeExpression | apply keeps_retS ].
Qed.

#[local] Hint Resolve keeps_analyzeExpression keeps_analyzeExpression_ptr
  : keeps.

(** *** Type inference always returns *)

Lemma returns_retS {A : Type} (a : A) : returns (retS a).
Proof. intro st; exists a, st; reflexivity. Qed.

Lemma returns_bind {A B : Type} (m : SM A) (k : A -> SM B) :
  returns m -> (forall a, returns (k a)) -> returns (bindS m k).
Proof.
  intros Hm Hk st. destruct (Hm st) as (a & st1 & H1).
  destruct (Hk a st1) as (b & st2 & H2).
  exists b, st2. unfold bindS; rewrite H1; exact H2.
Qed.

Lemma returns_report (line column : Z) (message : string) :
  returns (report line column message).
Proof. intro st; eexists; eexists; reflexivity. Qed.

Lemma returns_resolve (src : list Z) (name : Ptr) : returns (resolve src name).
Proof. intro st; eexists; eexists; reflexivity. Qed.

Lemma returns_get_return_type : returns get_return_type.
Proof. intro st; eexists; eexists; reflexivity. Qed.

Create HintDb returns.
#[local] Hint Resolve returns_retS returns_report returns_resolve
  returns_get_return_type : returns.

Ltac returns_layer :=
  repeat match goal with
         | |- returns (bindS _ _) => apply returns_bind; [ | intro ]
         | |- returns (if ?b then _ else _) => destruct b
         | |- returns (match ?x with _ => _ end) =>
           destruct x; cbn [Popt] in *
         | |- returns _ => solve [ auto 6 with returns ]
         end.

Lemma returns_analyzeBinary_types (line column : Z) (op l r : TokenType) :
  returns (analyzeBinary_types line column op l r).
Proof. unfold analyzeBinary_types; returns_layer. Qed.

Lemma returns_analyzeUnary_type (line column : Z) (op t : TokenType) :
  returns (analyzeUnary_type line column op t).
Proof. unfold analyzeUnary_type; returns_layer. Qed.

Lemma returns_analyzeLiteral (src : list Z) (line column : Z) (value : Token) :
  returns (analyzeLiteral src line column value).
Proof. unfold analyzeLiteral; returns_layer. Qed.

Lemma returns_analyzeVariable (src : list Z) (line column : Z) (name : Token) :
  returns (analyzeVariable src line column name).
Proof. unfold analyzeVariable; returns_layer. Qed.

Lemma returns_analyzeAssignment_value (src : list Z) (line column : Z)
      (name : Token) (ty : TokenType) :
  returns (analyzeAssignment_value src line column name ty).
Proof. unfold analyzeAssignment_value; returns_layer. Qed.

#[local] Hint Resolve returns_analyzeBinary_types returns_analyzeUnary_type
  returns_analyzeLiteral returns_analyzeVariable
  returns_analyzeAssignment_value : returns.

(** A null argument is typed [TOKEN_ERROR], so the argument check
    never reads its position. *)
Lemma returns_argument (analyze : option AstNode -> SM TokenType)
      (a : option AstNode) (paramType : TokenType) :
  returns (analyze a) ->
  (a = None -> forall st ty st', analyze a st = Some (ty, st') ->
                                 ty = TOKEN_ERROR) ->
  returns (argType <- analyze a ;; check_argument a argType paramType).
Proof.
  intros Hr Hn st. destruct (Hr st) as (ty & st1 & H1).
  unfold bindS; rewrite H1. unfold check_argument.
  destruct a as [n |].
  - destruct (negb (tt_eqb ty TOKEN_ERROR) && negb (tt_eqb ty paramType));
      eexists; eexists; reflexivity.
  - rewrite (Hn eq_refl _ _ _ H1). simpl. eexists; eexists; reflexivity.
Qed.

Lemma returns_arguments_loop (analyze : option AstNode -> SM TokenType)
      (args : list (option AstNode)) :
  analyze None = retS TOKEN_ERROR ->
  Forall (fun a => returns (analyze a)) args ->
  forall types, returns (arguments_loop analyze args types).
Proof.
  intros Hnone. induction 1 as [| a rest Ha _ IH]; intro types;
    cbn [arguments_loop]; [ apply returns_retS | ].
  intro st. destruct (Ha st) as (ty & st1 & H1).
  unfold bindS at 1; rewrite H1.
  assert (Hc : exists u st2,
             check_argument a ty (hd TOKEN_EOF types) st1 = Some (u, st2)).
  { unfold check_argument. destruct a as [n |].
    - destruct (negb (tt_eqb ty TOKEN_ERROR) &&
                negb (tt_eqb ty (hd TOKEN_EOF types)));
        eexists; eexists; reflexivity.
    - rewrite Hnone in H1. injection H1 as <- <-. simpl.
      eexists; eexists; reflexivity. }
  destruct Hc as (u & st2 & H2). unfold bindS; rewrite H2. apply IH.
Qed.

Lemma returns_analyzeExpression (src : list Z) (node : AstNode) :
  returns (analyzeExpression src node).
Proof.
  induction node using AstNode_nested_ind; cbn [analyzeExpression];
    cbn [Popt] in *; returns_layer.
  apply returns_arguments_loop; [ reflexivity | ].
  eapply Forall_impl; [ | eassumption ].
  intros [a |] Ha; cbn [Popt] in Ha; auto with returns.
Qed.

(** X3.  Type inference is safe and leaves the symbols alone.  On
    every tree, null children included, and in every state,
    [analyzeExpression] returns a type; the symbol table and the current
    return type are what they were; lines were only appended to the
    diagnostic stream, and the error count was incremented once for each
    line of [semanticError] among them. *)
Theorem analyzeExpression_is_safe :
  forall (src : list Z) (node : AstNode) (st : SemState),
  exists ty st',
    analyzeExpression src node st = Some (ty, st') /\
    table st' = table st /\
    currentFunctionReturnType st' = currentFunctionReturnType st /\
    exists new,
      sem_stderr st' = sem_stderr st ++ new /\
      errorCount st' = Nat.iter (error_lines new) int_succ (errorCount st).
Proof.
  intros src node st.
  destruct (returns_analyzeExpression src node st) as (ty & st' & H).
  exists ty, st'. split; [ exact H | ].
  destruct (keeps_analyzeExpression src node _ _ _ H) as [Ht Hc].
  split; [ exact Ht | ]. split; [ exact Hc | ].
  exact (tracked_analyzeExpression src node _ _ _ H).
Qed.

(** *** The inferred type is a type *)

Lemma resolve_in_In (src : list Z) (l : list Symbol) (name : Ptr) (s : Symbol) :
  resolve_in src l name = Some s -> In s l.
Proof.
  induction l as [| x l IH]; simpl; [ discriminate | ].
  destruct (strcmp_eq src (sym_name x) name).
  - intro H; injection H as <-; auto.
  - intro H; auto.
Qed.

Lemma gives_type_bind_unit {A : Type} (m : SM A) (k : SM TokenType) :
  keeps m -> gives_type k -> gives_type (bindS m (fun _ => k)).
Proof.
  intros Hm Hk st ty st' Ht H.
  apply bindS_inv in H as (a & st1 & H1 & H2).
  destruct (Hm _ _ _ H1) as [E _].
  eapply Hk; [ rewrite E; exact Ht | exact H2 ].
Qed.

Lemma gives_type_retS (ty : TokenType) :
  ty = TOKEN_ERROR \/ is_type_keyword ty = true -> gives_type (retS ty).
Proof. intros Hty st t st' _ H; injection H as <- _; exact Hty. Qed.

Lemma gives_type_error (line column : Z) (message : string) :
  gives_type (report line column message ;;; retS TOKEN_ERROR).
Proof.
  apply gives_type_bind_unit; [ apply keeps_report | ].
  apply gives_type_retS; auto.
Qed.

Lemma gives_type_analyzeBinary_types (line column : Z) (op l r : TokenType) :
  gives_type (analyzeBinary_types line column op l r).
Proof.
  unfold analyzeBinary_types.
  repeat match goal with
         | |- gives_type (if ?b then _ else _) => destruct b
         | |- gives_type (retS _) => apply gives_type_retS; auto
         | |- gives_type (bindS _ _) => apply gives_type_error
         end.
Qed.

Lemma gives_type_analyzeUnary_type (line column : Z) (op t : TokenType) :
  t = TOKEN_ERROR \/ is_type_keyword t = true ->
  gives_type (analyzeUnary_type line column op t).
Proof.
  intro Ht. unfold analyzeUnary_type.
  repeat match goal with
         | |- gives_type (if ?b then _ else _) => destruct b
         | |- gives_type (retS _) => apply gives_type_retS; auto
         | |- gives_type (bindS _ _) => apply gives_type_error
         end.
Qed.

Lemma gives_type_resolved (src : list Z) (name : Ptr) (st : SemState)
      (s : Symbol) :
  typed_table (table st) ->
  resolveSymbol src (table st) name = Some s ->
  is_type_keyword (dataType s) = true.
Proof.
  intros Ht H. apply resolve_in_In in H.
  unfold typed_table in Ht. rewrite Forall_forall in Ht. auto.
Qed.

Lemma gives_type_analyzeExpression (src : list Z) (node : AstNode) :
  gives_type (analyzeExpression src node).
Proof.
  induction node using AstNode_nested_ind; cbn [analyzeExpression];
    cbn [Popt] in *;
    try solve [ apply gives_type_error ].
  - (* binary *)
    intros st ty st' Ht R.
    apply bindS_inv in R as (lt & st1 & R1 & R).
    apply bindS_inv in R as (rt & st2 & R2 & R).
    eapply gives_type_analyzeBinary_types; [ | exact R ].
    assert (K1 : same_symbols st st1)
      by (destruct lhs; [ eapply keeps_analyzeExpression; exact R1
                        | injection R1 as _ <-; apply same_symbols_refl ]).
    assert (K2 : same_symbols st1 st2)
      by (destruct rhs; [ eapply keeps_analyzeExpression; exact R2
                        | injection R2 as _ <-; apply same_symbols_refl ]).
    destruct K1 as [E1 _], K2 as [E2 _]. rewrite E2, E1; exact Ht.
  - (* unary *)
    intros st ty st' Ht R.
    apply bindS_inv in R as (ot & st1 & R1 & R).
    assert (Hot : ot = TOKEN_ERROR \/ is_type_keyword ot = true).
    { destruct rhs as [r |]; cbn [Popt] in *;
        [ eapply H; eassumption | injection R1 as <- _; auto ]. }
    assert (K1 : same_symbols st st1)
      by (destruct rhs; [ eapply keeps_analyzeExpression; exact R1
                        | injection R1 as _ <-; apply same_symbols_refl ]).
    eapply (gives_type_analyzeUnary_type _ _ _ _ Hot); [ | exact R ].
    destruct K1 as [E1 _]; rewrite E1; exact Ht.
  - (* literal *)
    intros st ty st' Ht R. unfold analyzeLiteral in R.
    destruct (tk_type value);
      try (eapply gives_type_error; eassumption).
    + destruct (strchr_found _ _ _); injection R as <- _; auto.
    + injection R as <- _; auto.
  - (* variable *)
    intros st ty st' Ht R. unfold analyzeVariable in R.
    apply bindS_inv in R as (o & st1 & R1 & R). injection R1 as <- <-.
    destruct (resolveSymbol src (table st) (tk_start name)) as [s |] eqn:E;
      [ | eapply gives_type_error; eassumption ].
    destruct (sym_type s); [ | eapply gives_type_error; eassumption ].
    injection R as <- _. right. eapply gives_type_resolved; eassumption.
  - (* assignment *)
    intros st ty st' Ht R.
    apply bindS_inv in R as (vt & st1 & R1 & R).
    assert (Hvt : vt = TOKEN_ERROR \/ is_type_keyword vt = true).
    { destruct value as [v |]; cbn [Popt] in *;
        [ eapply H; eassumption | injection R1 as <- _; auto ]. }
    unfold analyzeAssignment_value in R.
    apply bindS_inv in R as (o & st2 & R2 & R). injection R2 as <- <-.
    destruct (resolveSymbol src (table st1) (tk_start name)) as [s |];
      [ | left; apply bindS_inv in R as (? & ? & _ & R);
          injection R as <- _; reflexivity ].
    destruct (sym_type s);
      [ | left; apply bindS_inv in R as (? & ? & _ & R);
          injection R as <- _; reflexivity ].
    destruct (negb (tt_eqb vt TOKEN_ERROR) && negb (tt_eqb vt (dataType s)));
      [ left; apply bindS_inv in R as (? & ? & _ & R);
        injection R as <- _; reflexivity
      | injection R as <- _; exact Hvt ].
  - (* call *)
    intros st ty st' Ht R.
    apply bindS_inv in R as (o & st1 & R1 & R). injection R1 as <- <-.
    destruct (resolveSymbol src (table st) (tk_start name)) as [s |] eqn:E;
      [ | eapply gives_type_error; eassumption ].
    destruct (sym_type s); [ eapply gives_type_error; eassumption | ].
    destruct (negb (Z.of_nat (List.length args) =? paramCount s));
      [ eapply gives_type_error; eassumption | ].
    apply bindS_inv in R as (u & st2 & _ & R). injection R as <- _.
    right. eapply gives_type_resolved; eassumption.
Qed.

(** X4.  With a symbol table whose symbols all carry one of the four
    type keywords, the type [analyzeExpression] infers for any tree is
    one of the four type keywords or the error sentinel: no other token
    kind leaves type inference. *)
Theorem inferred_type_is_a_type :
  forall (src : list Z) (node : AstNode) (st st' : SemState) (ty : TokenType),
    typed_table (table st) ->
    analyzeExpression src node st = Some (ty, st') ->
    ty = TOKEN_ERROR \/ is_type_keyword ty = true.
Proof.
  intros src node st st' ty Ht H.
  eapply gives_type_analyzeExpression; eassumption.
Qed.

Lemma inferred_type_is_a_type_witness :
  typed_table (table fresh_state) /\
  exists st',
    analyzeExpression two_numbers (AST_LITERAL 1 1 number_one) fresh_state
      = Some (TOKEN_FLOAT, st') /\
    (TOKEN_FLOAT = TOKEN_ERROR \/ is_type_keyword TOKEN_FLOAT = true).
Proof.
  assert (Ht : typed_table (table fresh_state)) by constructor.
  split; [ exact Ht | ].
  exists fresh_state.
  assert (E : analyzeExpression two_numbers (AST_LITERAL 1 1 number_one)
                                fresh_state = Some (TOKEN_FLOAT, fresh_state))
    by reflexivity.
  split; [ exact E | ].
  exact (inferred_type_is_a_type two_numbers _ _ _ _ Ht E).
Defined.

(** ** The error count *)

Lemma iter_int_succ (n : nat) (c : Z) :
  INT_MIN <= c -> c + Z.of_nat n <= INT_MAX ->
  Nat.iter n int_succ c = c + Z.of_nat n.
Proof.
  induction n as [| n IH]; intros Hc Hn; simpl Nat.iter; [ lia | ].
  rewrite IH by lia. rewrite int_succ_below_max by lia. lia.
Qed.

Lemma tracked_analyzeProgram (src : list Z) (program : AstNode) :
  tracked (analyzeProgram src program).
Proof.
  destruct program; try apply tracked_crashS.
  unfold analyzeProgram.
  apply tracked_bind; [ apply tracked_register_functions | intros _ ].
  apply tracked_bind.
  - apply checked_tracked, checked_declarations_loop.
    apply Forall_forall; intros d _. apply checked_analyzeNode.
  - intros [|]; [ | apply tracked_retS ].
    intros st b st' H; injection H as _ <-; apply grows_refl.
Qed.

(** X5.  The error count counts the reported errors.  Whatever the
    program and however [analyzeProgram] ends, the diagnostic stream has
    only been appended to, and, as long as the counter does not
    overflow, the error count has grown by exactly the number of lines
    written through [semanticError]. *)
Theorem error_count_counts_error_lines :
  forall (src : list Z) (program : AstNode) (st st' : SemState) (b : bool),
    analyzeProgram src program st = Some (b, st') ->
    exists new,
      sem_stderr st' = sem_stderr st ++ new /\
      (INT_MIN <= errorCount st ->
       errorCount st + Z.of_nat (error_lines new) <= INT_MAX ->
       errorCount st' = errorCount st + Z.of_nat (error_lines new)).
Proof.
  intros src program st st' b H.
  destruct (tracked_analyzeProgram src program _ _ _ H) as [new [Hs Hc]].
  exists new; split; [ exact Hs | ].
  intros H1 H2. rewrite Hc. apply iter_int_succ; assumption.
Qed.

Lemma error_count_counts_error_lines_witness :
  exists st',
    analyzeProgram declare_then_use declare_then_use_ast fresh_state
      = Some (false, st') /\
    exists new,
      sem_stderr st' = sem_stderr fresh_state ++ new /\
      (INT_MIN <= errorCount fresh_state ->
       errorCount fresh_state + Z.of_nat (error_lines new) <= INT_MAX ->
       errorCount st' = errorCount fresh_state + Z.of_nat (error_lines new)).
Proof.
  eexists; split; [ vm_compute; reflexivity | ].
  apply (error_count_counts_error_lines declare_then_use declare_then_use_ast
                                        fresh_state _ false).
  vm_compute; reflexivity.
Defined.

Lemma failure_is_printed_witness :
  errorCount fresh_state = 0 /\
  exists st',
    analyzeProgram (bytes_of_string "x") declared_twice_ast fresh_state
      = Some (false, st') /\
    exists new,
      sem_stderr st' = sem_stderr fresh_state ++ new /\ new <> [] /\
      errorCount st' = Nat.iter (error_lines new) int_succ 0 /\
      (error_lines new = 0%nat ->
       Forall (fun x => is_error_line x = false) new).
Proof.
  split; [ reflexivity | ].
  eexists; split; [ vm_compute; reflexivity | ].
  apply (failure_is_printed (bytes_of_string "x") declared_twice_ast
                            fresh_state); [ reflexivity | ].
  vm_compute; reflexivity.
Defined.

(** ** Scopes are balanced *)

Lemma extends_refl (st : SemState) : extends st st.
Proof.
  split; [ reflexivity | ]. split; [ reflexivity | ].
  exists []; split; [ reflexivity | constructor ].
Qed.

Lemma extends_trans (a b c : SemState) :
  extends a b -> extends b c -> extends a c.
Proof.
  intros (C1 & D1 & l1 & F1 & A1) (C2 & D2 & l2 & F2 & A2).
  split; [ congruence | ]. split; [ congruence | ].
  exists (l2 ++ l1); split.
  - rewrite F2, F1, app_assoc; reflexivity.
  - apply Forall_app; split; [ rewrite <- D1; exact A2 | exact A1 ].
Qed.

Lemma same_symbols_extends (a b : SemState) : same_symbols a b -> extends a b.
Proof.
  intros [Ht Hc]. split; [ exact Hc | ]. rewrite Ht.
  split; [ reflexivity | ]. exists []; split; [ reflexivity | constructor ].
Qed.

Lemma scoped_le (st : SemState) (n m : nat) :
  (m <= n)%nat -> scoped st n -> scoped st m.
Proof. intros Hle (Hw & Hlo & Hhi); repeat split; auto; lia. Qed.

Lemma scoped_same (st st' : SemState) (n : nat) :
  same_symbols st st' -> scoped st n -> scoped st' n.
Proof. intros [Ht _] H; unfold scoped in *; rewrite Ht; exact H. Qed.

Lemma scoped_extends (st st' : SemState) (n : nat) :
  extends st st' -> scoped st n -> scoped st' n.
Proof.
  intros (_ & D & l & F & A) (Hw & Hlo & Hhi).
  unfold scoped, well_scoped in *. rewrite D, F.
  repeat split; auto. apply Forall_app; split; [ | exact Hw ].
  eapply Forall_impl; [ | exact A ]. simpl; intros; lia.
Qed.

Lemma on_table_inv (f : SymbolTable -> SymbolTable) (st : SemState) (u : unit)
      (st' : SemState) :
  on_table f st = Some (u, st') ->
  table st' = f (table st) /\
  currentFunctionReturnType st' = currentFunctionReturnType st.
Proof. intro H; injection H as _ <-; split; reflexivity. Qed.

Lemma scoped_beginScope (st st' : SemState) (n : nat) :
  scoped st (S n) -> table st' = beginScope (table st) -> scoped st' n.
Proof.
  intros (Hw & Hlo & Hhi) Ht. unfold scoped, well_scoped in *.
  rewrite Ht; cbn [beginScope first scopeDepth].
  rewrite int_succ_below_max by lia.
  repeat split; try lia.
  eapply Forall_impl; [ | exact Hw ]. simpl; intros; lia.
Qed.

(** Closing a scope that was opened on [t0] and in which only symbols
    of the inner depth were added gives [t0] back. *)
Lemma scope_closed (t0 t2 : SymbolTable) (added : list Symbol) :
  well_scoped t0 -> INT_MIN <= scopeDepth t0 < INT_MAX ->
  scopeDepth t2 = int_succ (scopeDepth t0) ->
  first t2 = added ++ first t0 ->
  Forall (fun s => sym_scopeDepth s = int_succ (scopeDepth t0)) added ->
  endScope t2 = t0.
Proof.
  intros Hw Hd Hdepth Hfirst Hadded.
  unfold endScope. rewrite Hdepth, Hfirst.
  rewrite (int_succ_below_max _ Hd) in *.
  rewrite filter_scope;
    [ | exact Hadded
      | eapply Forall_impl; [ | exact Hw ]; simpl; intros; lia ].
  rewrite int_pred_above_min by (unfold INT_MAX, INT_MIN in *; lia).
  replace (scopeDepth t0 + 1 - 1) with (scopeDepth t0) by lia.
  destruct t0; reflexivity.
Qed.

Lemma define_variable_extends (src : list Z) (name : Ptr) (ty : TokenType)
      (line column : Z) (st : SemState) (o : option Symbol) (st' : SemState) :
  define (fun t => defineVariable src t name ty line column) st
    = Some (o, st') ->
  extends st st'.
Proof.
  unfold define. intro H.
  pose proof (defineVariable_adds src (table st) name ty line column)
    as [Hd Hf].
  destruct (defineVariable src (table st) name ty line column)
    as [[r t'] lines].
  injection H as _ <-. simpl in *.
  split; [ reflexivity | ]. split; [ exact Hd | ].
  destruct Hf as [Hf | [s [Hf Hs]]].
  - exists []; split; [ exact Hf | constructor ].
  - exists [s]; split; [ exact Hf | constructor; auto ].
Qed.

Lemma define_params_extends (src : list Z) (params : list (Token * TokenType)) :
  forall st u st',
    define_params src params st = Some (u, st') -> extends st st'.
Proof.
  induction params as [| [name ty] rest IH]; intros st u st' H;
    cbn [define_params] in H.
  - injection H as _ <-; apply extends_refl.
  - apply bindS_inv in H as (o & st1 & H1 & H).
    eapply extends_trans;
      [ eapply define_variable_extends; exact H1 | eapply IH; exact H ].
Qed.

Lemma analyzeVarDecl_extends (src : list Z) (line column : Z) (name : Token)
      (ty : TokenType) (init : option AstNode) (st : SemState) (b : bool)
      (st' : SemState) :
  analyzeVarDecl src line column name ty init st = Some (b, st') ->
  extends st st'.
Proof.
  unfold analyzeVarDecl. intro H.
  apply bindS_inv in H as (u & st1 & H1 & H).
  apply bindS_inv in H as (o & st2 & H2 & H). injection H as _ <-.
  eapply extends_trans; [ | eapply define_variable_extends; exact H2 ].
  apply same_symbols_extends.
  assert (K : keeps (match init with
                     | Some i =>
                       initType <- analyzeExpression src i ;;
                       if negb (tt_eqb initType ty) &&
                          negb (tt_eqb initType TOKEN_ERROR)
                       then report line column
                                   "Type mismatch in variable initialization."
                       else retS tt
                     | None => retS tt
                     end)) by keeps_layer.
  eapply K; exact H1.
Qed.

Lemma keeps_analyzeReturnStatement (src : list Z) (line column : Z)
      (value : option AstNode) :
  keeps (analyzeReturnStatement src line column value).
Proof. unfold analyzeReturnStatement; keeps_layer. Qed.

Lemma keeps_analyzeExpressionStatement (src : list Z) (e : option AstNode) :
  keeps (analyzeExpressionStatement src e).
Proof. unfold analyzeExpressionStatement; keeps_layer. Qed.

Lemma nesting_le_list_max (l : list AstNode) :
  Forall (fun d => (nesting d <= list_max (map nesting l))%nat) l.
Proof.
  assert (H : Forall (fun k => (k <= list_max (map nesting l))%nat)
                     (map nesting l))
    by (apply list_max_le; apply Nat.le_refl).
  rewrite Forall_map in H. exact H.
Qed.

Lemma declarations_loop_extends (src : list Z) (l : list AstNode) (n : nat) :
  Forall (balanced src) l ->
  Forall (fun d => (nesting d <= n)%nat) l ->
  forall st b st',
    scoped st n ->
    declarations_loop (analyzeNode src AsDeclaration) l st = Some (b, st') ->
    extends st st'.
Proof.
  intros HB HN. induction HB as [| d rest Hd _ IH];
    intros st b st' Hs H; cbn [declarations_loop] in H.
  - injection H as _ <-; apply extends_refl.
  - inversion HN as [| ? ? Hn HN']; subst.
    apply bindS_inv in H as (ok & st1 & H1 & H).
    destruct (Hd AsDeclaration st ok st1 (scoped_le _ _ _ Hn Hs) H1)
      as [E1 _].
    destruct ok.
    + eapply extends_trans; [ exact E1 | ].
      eapply IH; [ exact HN' | eapply scoped_extends; eassumption | exact H ].
    + injection H as _ <-; exact E1.
Qed.

Lemma analyzeBlock_keeps (src : list Z) (stmts : list AstNode) :
  Forall (balanced src) stmts ->
  forall st b st',
    scoped st (S (list_max (map nesting stmts))) ->
    analyzeBlock (analyzeNode src AsDeclaration) stmts st = Some (b, st') ->
    same_symbols st st'.
Proof.
  intros HB st b st' Hs H. unfold analyzeBlock in H.
  apply bindS_inv in H as (u1 & st1 & H1 & H).
  apply bindS_inv in H as (ok & st2 & H2 & H).
  apply bindS_inv in H as (u2 & st3 & H3 & H). injection H as _ <-.
  apply on_table_inv in H1 as [T1 C1]. apply on_table_inv in H3 as [T3 C3].
  pose proof (scoped_beginScope _ _ _ Hs T1) as Hs1.
  destruct (declarations_loop_extends src stmts _ HB
              (nesting_le_list_max stmts) _ _ _ Hs1 H2)
    as (C2 & D2 & added & F2 & A2).
  destruct Hs as (Hw & Hlo & Hhi).
  split; [ | congruence ].
  rewrite T3. rewrite T1 in D2, F2, A2.
  cbn [beginScope first scopeDepth] in D2, F2, A2.
  eapply scope_closed; try eassumption. lia.
Qed.

Lemma keeps_unknown (line column : Z) (message : string) :
  keeps (report line column message ;;; retS false).
Proof. keeps_layer. Qed.

Lemma balanced_of_keeps (src : list Z) (node : AstNode) :
  (forall entry, keeps (analyzeNode src entry node)) -> balanced src node.
Proof.
  intros K entry st b st' _ H. pose proof (K entry _ _ _ H) as S.
  split; [ apply same_symbols_extends; exact S | intros _; exact S ].
Qed.

(** A statement child: the pointer is read, then the node is analyzed
    as a statement. *)
Lemma statement_child_keeps (src : list Z) (o : option AstNode) (n : nat) :
  Popt (balanced src) o ->
  (match o with Some m => nesting m | None => O end <= n)%nat ->
  forall st b st',
    scoped st n ->
    match o with
    | Some m => analyzeNode src AsStatement m
    | None => crashS
    end st = Some (b, st') ->
    same_symbols st st'.
Proof.
  intros HB Hn st b st' Hs H. destruct o as [m |]; [ | discriminate ].
  cbn [Popt] in HB.
  destruct (HB AsStatement st b st' (scoped_le _ _ _ Hn Hs) H) as [_ S].
  apply S. destruct m; reflexivity.
Qed.

Lemma balanced_all (src : list Z) (node : AstNode) : balanced src node.
Proof.
  induction node using AstNode_nested_ind;
    try (apply balanced_of_keeps; intro entry; cbn [analyzeNode];
         solve [ keeps_layer
               | apply keeps_analyzeReturnStatement
               | apply keeps_analyzeExpressionStatement ]).
  - (* function *)
    intros entry st b st' Hs R. cbn [analyzeNode] in R.
    assert (S : same_symbols st st');
      [ | split; [ apply same_symbols_extends; exact S | intros _; exact S ] ].
    destruct entry; [ | eapply keeps_unknown; exact R ].
    apply bindS_inv in R as (prev & s0 & R0 & R). injection R0 as <- <-.
    apply bindS_inv in R as (u1 & s1 & R1 & R). injection R1 as _ <-.
    apply bindS_inv in R as (u2 & s2 & R2 & R).
    apply on_table_inv in R2 as [T2 C2].
    apply bindS_inv in R as (u3 & s3 & R3 & R).
    apply define_params_extends in R3.
    apply bindS_inv in R as (res & s4 & R4 & R).
    apply bindS_inv in R as (u5 & s5 & R5 & R).
    apply on_table_inv in R5 as [T5 C5].
    apply bindS_inv in R as (u6 & s6 & R6 & R).
    injection R6 as _ <-. injection R as _ <-.
    cbn [nesting] in Hs. simpl in T2, C2.
    destruct body as [bn |]; [ | discriminate ].
    destruct bn; try discriminate. cbn [Popt] in H.
    pose proof (scoped_beginScope st s2 _ Hs T2) as Hs2.
    pose proof (scoped_extends _ _ _ R3 Hs2) as Hs3.
    destruct (H AsStatement s3 res s4 Hs3 R4) as [_ K4].
    specialize (K4 eq_refl). destruct K4 as [T4 C4].
    destruct R3 as (C3 & D3 & added & F3 & A3).
    destruct Hs as (Hw & Hlo & Hhi).
    split; [ | reflexivity ]. simpl.
    rewrite T5, T4. rewrite T2 in D3, F3, A3.
    cbn [beginScope first scopeDepth] in D3, F3, A3.
    eapply scope_closed; try eassumption. lia.
  - (* variable declaration *)
    intros entry st b st' Hs R. cbn [analyzeNode] in R.
    destruct entry.
    + split; [ eapply analyzeVarDecl_extends; exact R | discriminate ].
    + pose proof (keeps_unknown _ _ _ _ _ _ R) as S.
      split; [ apply same_symbols_extends; exact S | intros _; exact S ].
  - (* block *)
    intros entry st b st' Hs R. cbn [analyzeNode] in R. cbn [nesting] in Hs.
    pose proof (analyzeBlock_keeps src stmts H _ _ _ Hs R) as S.
    split; [ apply same_symbols_extends; exact S | intros _; exact S ].
  - (* if *)
    intros entry st b st' Hs R. cbn [analyzeNode] in R. cbn [nesting] in Hs.
    assert (S : same_symbols st st');
      [ | split; [ apply same_symbols_extends; exact S | intros _; exact S ] ].
    apply bindS_inv in R as (ct & s1 & R1 & R).
    apply keeps_analyzeExpression_ptr in R1.
    apply bindS_inv in R as (u2 & s2 & R2 & R).
    apply keeps_check_condition in R2.
    apply bindS_inv in R as (tr & s3 & R3 & R).
    pose proof (same_symbols_trans _ _ _ R1 R2) as S2.
    pose proof (scoped_same _ _ _ S2 Hs) as Hs2.
    eapply (statement_child_keeps src th _ H0 (Nat.le_max_l _ _)) in R3;
      [ | exact Hs2 ].
    pose proof (scoped_same _ _ _ R3 Hs2) as Hs3.
    apply bindS_inv in R as (er & s4 & R4 & R). injection R as _ <-.
    assert (S4 : same_symbols s3 s4).
    { destruct el as [e |]; [ | injection R4 as _ <-; apply same_symbols_refl ].
      cbn [Popt] in H1.
      destruct (H1 AsStatement s3 er s4
                   (scoped_le _ _ _ (Nat.le_max_r _ _) Hs3) R4) as [_ K].
      apply K. destruct e; reflexivity. }
    eauto using same_symbols_trans.
  - (* while *)
    intros entry st b st' Hs R. cbn [analyzeNode] in R. cbn [nesting] in Hs.
    assert (S : same_symbols st st');
      [ | split; [ apply same_symbols_extends; exact S | intros _; exact S ] ].
    apply bindS_inv in R as (ct & s1 & R1 & R).
    apply keeps_analyzeExpression_ptr in R1.
    apply bindS_inv in R as (u2 & s2 & R2 & R).
    apply keeps_check_condition in R2.
    pose proof (same_symbols_trans _ _ _ R1 R2) as S2.
    pose proof (scoped_same _ _ _ S2 Hs) as Hs2.
    eapply (statement_child_keeps src body _ H0 (Nat.le_refl _)) in R;
      [ | exact Hs2 ].
    eauto using same_symbols_trans.
  - (* for *)
    intros entry st b st' Hs R. cbn [analyzeNode] in R. cbn [nesting] in Hs.
    assert (S : same_symbols st st');
      [ | split; [ apply same_symbols_extends; exact S | intros _; exact S ] ].
    apply bindS_inv in R as (u1 & s1 & R1 & R).
    apply on_table_inv in R1 as [T1 C1].
    pose proof (scoped_beginScope st s1 _ Hs T1) as Hs1.
    apply bindS_inv in R as (ok & s2 & R2 & R).
    assert (E2 : extends s1 s2).
    { destruct init as [i |]; [ | injection R2 as _ <-; apply extends_refl ].
      cbn [Popt] in H.
      apply (H AsDeclaration s1 ok s2
               (scoped_le _ _ _ (Nat.le_max_l _ _) Hs1) R2). }
    pose proof (scoped_extends _ _ _ E2 Hs1) as Hs2.
    assert (Close : forall s5 s6 u,
               same_symbols s2 s5 -> on_table endScope s5 = Some (u, s6) ->
               same_symbols st s6).
    { intros s5 s6 u [T5 C5] R6. apply on_table_inv in R6 as [T6 C6].
      destruct E2 as (C2 & D2 & added & F2 & A2).
      destruct Hs as (Hw & Hlo & Hhi).
      split; [ | congruence ].
      rewrite T6, T5. rewrite T1 in D2, F2, A2.
      cbn [beginScope first scopeDepth] in D2, F2, A2.
      eapply scope_closed; try eassumption. lia. }
    destruct ok; cbn [negb] in R.
    + apply bindS_inv in R as (u3 & s3 & R3 & R).
      assert (S3 : same_symbols s2 s3).
      { destruct cond as [c0 |];
          [ | injection R3 as _ <-; apply same_symbols_refl ].
        apply bindS_inv in R3 as (ct & s3' & R3a & R3b).
        apply keeps_analyzeExpression in R3a.
        apply keeps_check_condition in R3b.
        eauto using same_symbols_trans. }
      apply bindS_inv in R as (u4 & s4 & R4 & R).
      assert (S4 : same_symbols s3 s4).
      { destruct incr as [i0 |];
          [ | injection R4 as _ <-; apply same_symbols_refl ].
        apply bindS_inv in R4 as (it & s4' & R4a & R4b).
        apply keeps_analyzeExpression in R4a. injection R4b as _ <-.
        exact R4a. }
      apply bindS_inv in R as (res & s5 & R5 & R).
      pose proof (same_symbols_trans _ _ _ S3 S4) as S24.
      eapply (statement_child_keeps src body _ H2 (Nat.le_max_r _ _)) in R5;
        [ | eapply scoped_same; eassumption ].
      apply bindS_inv in R as (u6 & s6 & R6 & R). injection R as _ <-.
      eapply Close; [ | exact R6 ]. eauto using same_symbols_trans.
    + apply bindS_inv in R as (u6 & s6 & R6 & R). injection R as _ <-.
      eapply Close; [ apply same_symbols_refl | exact R6 ].
Qed.

(** X6.  Scopes are balanced.  In a state whose table is well scoped
    and has room for the scopes the node opens, the analysis of any
    node, as a declaration or as a statement, whether it succeeds or
    fails, ends with the scope depth and the current return type it
    started with.  Unless the node is a variable declaration the whole
    symbol table is what it was: whatever a block, a function, an if, a
    while or a for declared is gone when it ends.  A variable
    declaration only adds symbols of the current depth in front. *)
Theorem scopes_are_balanced :
  forall (src : list Z) (node : AstNode) (entry : Entry)
         (st st' : SemState) (b : bool),
    scoped st (nesting node) ->
    analyzeNode src entry node st = Some (b, st') ->
    currentFunctionReturnType st' = currentFunctionReturnType st /\
    scopeDepth (table st') = scopeDepth (table st) /\
    (declares entry node = false -> table st' = table st) /\
    exists added,
      first (table st') = added ++ first (table st) /\
      Forall (fun s => sym_scopeDepth s = scopeDepth (table st)) added.
Proof.
  intros src node entry st st' b Hs H.
  destruct (balanced_all src node entry st b st' Hs H)
    as [(C & D & added & F & A) S].
  split; [ exact C | ]. split; [ exact D | ].
  split; [ intro Hd; exact (proj1 (S Hd)) | ].
  exists added; auto.
Qed.

Lemma scopes_are_balanced_witness :
  let src := bytes_of_string "x" in
  let node := AST_BLOCK 0 0 [createVarDecl (ident_at 0) TOKEN_INT None] in
  scoped fresh_state (nesting node) /\
  analyzeNode src AsStatement node fresh_state = Some (true, fresh_state) /\
  table fresh_state = table fresh_state.
Proof.
  assert (Hs : scoped fresh_state
                      (nesting (AST_BLOCK 0 0
                                  [createVarDecl (ident_at 0) TOKEN_INT None]))).
  { split; [ constructor | ].
    split; [ unfold INT_MIN; simpl; lia | unfold INT_MAX; simpl; lia ]. }
  assert (E : analyzeNode (bytes_of_string "x") AsStatement
                (AST_BLOCK 0 0 [createVarDecl (ident_at 0) TOKEN_INT None])
                fresh_state = Some (true, fresh_state)) by reflexivity.
  split; [ exact Hs | ]. split; [ exact E | ].
  exact (proj1 (proj2 (proj2 (scopes_are_balanced _ _ _ _ _ _ Hs E)))
               eq_refl).
Defined.

Close Scope sm_scope.

(** ** The lexer: positions and progress *)

Lemma follows_refl (lx : Lexer) : follows lx lx.
Proof. repeat split; auto. Qed.

Lemma follows_trans (a b c : Lexer) : follows a b -> follows b c -> follows a c.
Proof.
  intros (S1 & T1 & C1 & B1) (S2 & T2 & C2 & B2).
  repeat split; try congruence; try lia; auto.
Qed.

Lemma peek_nonzero_in_bounds (lx : Lexer) :
  peek lx <> 0 -> (S (current lx) <= List.length (source lx))%nat.
Proof.
  intro H.
  destruct (Nat.le_gt_cases (List.length (source lx)) (current lx)) as [L | L];
    [ rewrite (peek_past_end lx L) in H; congruence | lia ].
Qed.

(** Reading a byte that is not the NUL stays inside the text. *)
Lemma follows_lex_advance (lx : Lexer) :
  peek lx <> 0 -> follows lx (snd (lex_advance lx)).
Proof.
  intro H. repeat split; simpl; auto.
  intros _. unfold in_bounds; simpl. apply peek_nonzero_in_bounds; exact H.
Qed.

Lemma follows_advance_while (cond : Z -> bool) (fuel : nat) (lx : Lexer) :
  cond 0 = false -> follows lx (advance_while cond fuel lx).
Proof.
  intro H0. revert lx; induction fuel as [| f IH]; intro lx; simpl;
    [ apply follows_refl | ].
  destruct (cond (peek lx)) eqn:E; [ | apply follows_refl ].
  eapply follows_trans; [ | apply IH ].
  apply follows_lex_advance. intro Hz; rewrite Hz, H0 in E; discriminate.
Qed.

Lemma follows_set_line_column (lx : Lexer) (l c : Z) :
  follows lx (set_line_column lx l c).
Proof. repeat split; auto. Qed.

Lemma follows_string_loop (fuel : nat) (lx : Lexer) :
  follows lx (string_loop fuel lx).
Proof.
  revert lx; induction fuel as [| f IH]; intro lx; simpl;
    [ apply follows_refl | ].
  destruct (negb (peek lx =? 34) && negb (isAtEnd lx)) eqn:E;
    [ | apply follows_refl ].
  apply andb_prop in E as [_ E]. unfold isAtEnd in E.
  assert (Hnz : peek lx <> 0)
    by (intro Hz; rewrite Hz in E; discriminate).
  eapply follows_trans; [ | apply IH ].
  destruct (peek lx =? 10).
  - eapply follows_trans; [ apply follows_set_line_column | ].
    apply follows_lex_advance. exact Hnz.
  - apply follows_lex_advance. exact Hnz.
Qed.

Lemma follows_skipWhitespace_loop (fuel : nat) (lx : Lexer) :
  follows lx (skipWhitespace_loop fuel lx).
Proof.
  revert lx; induction fuel as [| f IH]; intro lx;
    cbn [skipWhitespace_loop]; [ apply follows_refl | ].
  destruct ((peek lx =? 32) || (peek lx =? 13) || (peek lx =? 9)) eqn:E1.
  { eapply follows_trans; [ | apply IH ]. apply follows_lex_advance.
    apply orb_prop in E1 as [E1 | E1];
      [ apply orb_prop in E1 as [E1 | E1] | ];
      apply Z.eqb_eq in E1; lia. }
  destruct (peek lx =? 10) eqn:E2.
  { eapply follows_trans; [ | apply IH ].
    eapply follows_trans; [ apply follows_set_line_column | ].
    apply follows_lex_advance.
    apply Z.eqb_eq in E2. unfold peek, set_line_column in *; simpl; lia. }
  destruct (peek lx =? 47); [ | apply follows_refl ].
  destruct (peekNext lx =? 47); [ | apply follows_refl ].
  eapply follows_trans; [ | apply IH ].
  apply follows_advance_while. reflexivity.
Qed.

Lemma follows_skipWhitespace (lx : Lexer) : follows lx (skipWhitespace lx).
Proof. apply follows_skipWhitespace_loop. Qed.

Lemma follows_lex_match (lx : Lexer) (expected : Z) :
  follows lx (snd (lex_match lx expected)).
Proof.
  unfold lex_match. destruct (isAtEnd lx) eqn:E; [ apply follows_refl | ].
  destruct (negb (peek lx =? expected)); [ apply follows_refl | ].
  simpl. unfold isAtEnd in E. apply Z.eqb_neq in E.
  exact (follows_lex_advance lx E).
Qed.

Lemma token_of_makeToken (lx lx' : Lexer) (ty : TokenType) :
  follows lx lx' -> ty <> TOKEN_EOF -> token_of lx (makeToken lx' ty, lx').
Proof. intros F H; repeat split; try apply F; auto. Qed.

Lemma token_of_errorToken (lx lx' : Lexer) (message : string) :
  follows lx lx' -> token_of lx (errorToken lx' message, lx').
Proof.
  intros F; repeat split; try apply F; simpl; try discriminate.
  intro H; congruence.
Qed.

Lemma lookup_keyword_not_eof (lx : Lexer) (ty : TokenType) :
  lookup_keyword lx hindiKeywords = Some ty -> ty <> TOKEN_EOF.
Proof.
  intro H. apply lookup_keyword_some in H as [kw [Hin _]].
  unfold hindiKeywords in Hin; simpl in Hin.
  repeat (destruct Hin as [Hin | Hin];
          [ injection Hin as _ <-; discriminate | ]).
  contradiction.
Qed.

Lemma token_of_identifier (lx : Lexer) : token_of lx (identifier lx).
Proof.
  unfold identifier.
  pose proof (follows_advance_while isIdentifierPart (remaining lx) lx
                                    eq_refl) as F.
  destruct (lookup_keyword _ hindiKeywords) as [ty |] eqn:E.
  - apply token_of_makeToken; [ exact F | ].
    eapply lookup_keyword_not_eof; exact E.
  - apply token_of_makeToken; [ exact F | discriminate ].
Qed.

Lemma token_of_number (lx : Lexer) : token_of lx (number lx).
Proof.
  unfold number.
  pose proof (follows_advance_while isDigit (remaining lx) lx eq_refl) as F1.
  destruct ((peek _ =? 46) && isDigit (peekNext _)) eqn:E.
  - apply token_of_makeToken; [ | discriminate ].
    eapply follows_trans; [ exact F1 | ].
    eapply follows_trans; [ | apply follows_advance_while; reflexivity ].
    apply follows_lex_advance.
    apply andb_prop in E as [E _]. apply Z.eqb_eq in E. lia.
  - apply token_of_makeToken; [ exact F1 | discriminate ].
Qed.

Lemma token_of_lex_string (lx : Lexer) : token_of lx (lex_string lx).
Proof.
  unfold lex_string.
  pose proof (follows_string_loop (remaining lx) lx) as F1.
  destruct (isAtEnd (string_loop (remaining lx) lx)) eqn:E.
  - apply token_of_errorToken; exact F1.
  - apply token_of_makeToken; [ | discriminate ].
    eapply follows_trans; [ exact F1 | ].
    apply follows_lex_advance. unfold isAtEnd in E.
    apply Z.eqb_neq in E; exact E.
Qed.

Lemma token_of_two_char (lx : Lexer) (second : Z) (yes no : TokenType) :
  yes <> TOKEN_EOF -> no <> TOKEN_EOF ->
  token_of lx (two_char lx second yes no).
Proof.
  intros Hy Hn. unfold two_char.
  pose proof (follows_lex_match lx second) as F.
  destruct (lex_match lx second) as [m lx1]; simpl in F.
  apply token_of_makeToken; [ exact F | destruct m; assumption ].
Qed.

Lemma token_of_and_or (lx : Lexer) (second : Z) (ty : TokenType) :
  ty <> TOKEN_EOF ->
  token_of lx (let (m, lx2) := lex_match lx second in
               if m then (makeToken lx2 ty, lx2)
               else (errorToken lx2 "Unexpected character.", lx2)).
Proof.
  intro Hty. pose proof (follows_lex_match lx second) as F.
  destruct (lex_match lx second) as [m lx1]; simpl in F.
  destruct m; [ apply token_of_makeToken | apply token_of_errorToken ]; auto.
Qed.

(** The two ways [scanToken] ends: at the NUL with an EOF token that
    consumes nothing, or with a token that starts where the white space
    ends and consumes at least the byte read first. *)
Lemma scanToken_cases (lx : Lexer) :
  let lxw := skipWhitespace lx in
  let l0 := mkLexer (source lxw) (current lxw) (current lxw) (line lxw)
                    (column lxw) in
  (isAtEnd l0 = true /\ scanToken lx = (makeToken l0 TOKEN_EOF, l0)) \/
  (isAtEnd l0 = false /\
   token_of (snd (lex_advance l0)) (scanToken lx)).
Proof.
  intros lxw l0. unfold scanToken. fold lxw. fold l0.
  destruct (isAtEnd l0) eqn:E; [ left; auto | right; split; [ reflexivity | ] ].
  unfold lex_advance; cbv zeta iota beta. cbn [snd].
  set (lx1 := mkLexer (source l0) (start l0) (S (current l0)) (line l0)
                      (int_succ (column l0))).
  repeat match goal with
         | |- context [if ?b then _ else _] => destruct b
         end;
    first [ apply token_of_identifier
          | apply token_of_number
          | apply token_of_lex_string
          | apply token_of_and_or; discriminate
          | apply token_of_two_char; discriminate
          | apply token_of_errorToken; apply follows_refl
          | apply token_of_makeToken; [ apply follows_refl | discriminate ] ].
Qed.

Lemma makeToken_type (lx : Lexer) (ty : TokenType) :
  tk_type (makeToken lx ty) = ty.
Proof. reflexivity. Qed.

(** Where [scanToken] leaves the lexer. *)
Lemma scanToken_follows (lx : Lexer) :
  in_bounds lx ->
  source (snd (scanToken lx)) = source lx /\
  in_bounds (snd (scanToken lx)) /\
  (current lx <= start (snd (scanToken lx)))%nat /\
  (start (snd (scanToken lx)) <= current (snd (scanToken lx)))%nat /\
  (tk_type (fst (scanToken lx)) <> TOKEN_EOF ->
   (start (snd (scanToken lx)) < current (snd (scanToken lx)))%nat) /\
  (tk_type (fst (scanToken lx)) <> TOKEN_ERROR ->
   fst (scanToken lx) =
   makeToken (snd (scanToken lx)) (tk_type (fst (scanToken lx)))).
Proof.
  intro Hb.
  destruct (follows_skipWhitespace lx) as (Ws & _ & Wc & Wb).
  specialize (Wb Hb). unfold in_bounds in *.
  destruct (scanToken_cases lx) as [[E ->] | [E T]]; cbn [fst snd].
  - simpl. repeat split; try tauto; try lia.
  - destruct T as ((Ts & Tt & Tc & Tb) & Teof & Tmk).
    cbn [lex_advance snd source start current] in Ts, Tt, Tc, Tb.
    unfold isAtEnd in E. apply Z.eqb_neq in E.
    apply peek_nonzero_in_bounds in E. cbn [source current] in E.
    unfold in_bounds in Tb; cbn [source current] in Tb.
    specialize (Tb E). rewrite Ts, Tt.
    repeat split; try tauto; try lia.
    rewrite <- Ts; exact Tb.
Qed.

Lemma tt_eqb_eq (a b : TokenType) : tt_eqb a b = true <-> a = b.
Proof.
  unfold tt_eqb; destruct (TokenType_eq_dec a b); split; congruence.
Qed.

Lemma tt_eqb_neq (a b : TokenType) : tt_eqb a b = false <-> a <> b.
Proof.
  unfold tt_eqb; destruct (TokenType_eq_dec a b); split; congruence.
Qed.

(** An EOF token is returned at the NUL only. *)
Lemma scanToken_eof (lx : Lexer) :
  tk_type (fst (scanToken lx)) = TOKEN_EOF ->
  isAtEnd (token_start lx) = true /\
  scanToken lx = (makeToken (token_start lx) TOKEN_EOF, token_start lx).
Proof.
  intro H. destruct (scanToken_cases lx) as [[E R] | [_ T]].
  - split; assumption.
  - destruct T as (_ & T & _); contradiction.
Qed.

Lemma skipWhitespace_at_end (lx : Lexer) :
  isAtEnd lx = true -> skipWhitespace lx = lx.
Proof.
  unfold isAtEnd; intro H. apply Z.eqb_eq in H.
  unfold skipWhitespace; cbn [skipWhitespace_loop]. rewrite H; reflexivity.
Qed.

(** X7.  Once [scanToken] has returned the EOF token, every later call
    returns the same token and leaves the lexer as it is: the token is
    empty and stands at the NUL. *)
Theorem scanToken_eof_is_final :
  forall lx : Lexer,
    tk_type (fst (scanToken lx)) = TOKEN_EOF ->
    scanToken (snd (scanToken lx)) = scanToken lx /\
    tk_length (fst (scanToken lx)) = 0 /\
    peek (snd (scanToken lx)) = 0.
Proof.
  intros lx H. apply scanToken_eof in H as [E R]. rewrite R; cbn [fst snd].
  split; [ | split ].
  - unfold scanToken at 1. rewrite (skipWhitespace_at_end _ E).
    change (mkLexer (source (token_start lx)) (current (token_start lx))
                    (current (token_start lx)) (line (token_start lx))
                    (column (token_start lx)))
      with (token_start lx).
    rewrite E; reflexivity.
  - simpl. rewrite Nat.sub_diag; reflexivity.
  - unfold isAtEnd in E. apply Z.eqb_eq in E; exact E.
Qed.

Lemma scanToken_eof_is_final_witness :
  let lx := initLexer (bytes_of_string "a // b") in
  let lx1 := snd (scanToken lx) in
  scanToken (snd (scanToken lx1)) = scanToken lx1 /\
  tk_length (fst (scanToken lx1)) = 0 /\
  peek (snd (scanToken lx1)) = 0.
Proof.
  apply (scanToken_eof_is_final
           (snd (scanToken (initLexer (bytes_of_string "a // b"))))).
  vm_compute; reflexivity.
Defined.

Lemma makeToken_begin_end (lx : Lexer) (ty : TokenType) :
  (start lx <= current lx)%nat ->
  token_begin (makeToken lx ty) = start lx /\
  token_end (makeToken lx ty) = current lx.
Proof.
  intro H; unfold token_end, token_begin; simpl.
  rewrite Nat2Z.id; split; lia.
Qed.

Lemma tokens_from_ends (fuel : nat) (lx : Lexer) :
  in_bounds lx ->
  (List.length (source lx) - current lx < fuel)%nat ->
  exists ts t,
    tokens_from fuel lx = ts ++ [t] /\
    tk_type t = TOKEN_EOF /\ tk_length t = 0 /\
    Forall (fun t' => tk_type t' <> TOKEN_EOF) ts.
Proof.
  revert lx; induction fuel as [| f IH]; intros lx Hb Hf; [ lia | ].
  cbn [tokens_from].
  destruct (scanToken_follows lx Hb) as (Fs & Fb & Fc & Fsc & Fne & _).
  pose proof (scanToken_eof lx) as Heof.
  destruct (scanToken lx) as [t lx'] eqn:R; cbn [fst snd] in *.
  destruct (tt_eqb (tk_type t) TOKEN_EOF) eqn:E.
  - apply tt_eqb_eq in E. exists [], t. repeat split; auto.
    destruct (Heof E) as [_ Rt]. injection Rt as -> _.
    simpl. rewrite Nat.sub_diag; reflexivity.
  - apply tt_eqb_neq in E. specialize (Fne E).
    destruct (IH lx' Fb) as (ts & t' & Rts & Ht' & Hl' & Hall).
    { unfold in_bounds in *; rewrite Fs in *; lia. }
    exists (t :: ts), t'. rewrite Rts. repeat split; auto.
Qed.

(** X8.  The token stream the driver prints in its tokenize-only mode
    is finite and ends with the one EOF token of the stream; that token
    is empty.  In a source of [n] bytes the loop calls [scanToken] at
    most [n + 1] times. *)
Theorem tokenize_ends_with_eof :
  forall src : list Z,
    exists ts t,
      tokenize src = ts ++ [t] /\
      tk_type t = TOKEN_EOF /\ tk_length t = 0 /\
      Forall (fun t' => tk_type t' <> TOKEN_EOF) ts /\
      (List.length ts <= List.length src)%nat.
Proof.
  intro src. unfold tokenize.
  destruct (tokens_from_ends (S (List.length src)) (initLexer src))
    as (ts & t & R & Ht & Hl & Hall).
  - unfold in_bounds; simpl; lia.
  - simpl; lia.
  - exists ts, t. repeat split; auto.
    assert (Hlen : forall fuel lx,
               (List.length (tokens_from fuel lx) <= fuel)%nat).
    { induction fuel as [| f IH]; intro lx; cbn [tokens_from]; [ simpl; lia | ].
      destruct (scanToken lx) as [t0 lx0].
      destruct (tt_eqb (tk_type t0) TOKEN_EOF); simpl;
        [ lia | specialize (IH lx0); lia ]. }
    specialize (Hlen (S (List.length src)) (initLexer src)).
    rewrite R, length_app in Hlen; simpl in Hlen; lia.
Qed.

Lemma tokens_from_in_order (fuel : nat) (lx : Lexer) (pos : nat) :
  in_bounds lx -> (pos <= current lx)%nat ->
  in_order pos (List.length (source lx)) (slices (tokens_from fuel lx)).
Proof.
  revert lx pos; induction fuel as [| f IH]; intros lx pos Hb Hp;
    cbn [tokens_from].
  { simpl. unfold in_bounds in Hb; lia. }
  destruct (scanToken_follows lx Hb) as (Fs & Fb & Fc & Fsc & Fne & Fmk).
  destruct (scanToken lx) as [t lx'] eqn:R; cbn [fst snd] in *.
  assert (Hslice : is_slice t = true ->
                   tk_start t = SrcPtr (token_begin t) /\
                   token_begin t = start lx' /\ token_end t = current lx').
  { unfold is_slice. intro Hs. apply negb_true_iff, tt_eqb_neq in Hs.
    rewrite (Fmk Hs).
    destruct (makeToken_begin_end lx' (tk_type t) Fsc) as [B E].
    rewrite B, E. auto. }
  rewrite <- Fs.
  destruct (tt_eqb (tk_type t) TOKEN_EOF) eqn:E.
  - apply tt_eqb_eq in E. unfold slices; cbn [filter].
    assert (Hs : is_slice t = true) by (unfold is_slice; rewrite E; reflexivity).
    rewrite Hs. destruct (Hslice Hs) as (P & B & En).
    cbn [in_order]. rewrite B, En. unfold in_bounds in Fb.
    repeat split; auto; try lia; try congruence.
  - apply tt_eqb_neq in E. specialize (Fne E).
    unfold slices; cbn [filter]. fold (slices (tokens_from f lx')).
    destruct (is_slice t) eqn:Hs.
    + destruct (Hslice eq_refl) as (P & B & En).
      cbn [in_order]. rewrite B, En.
      repeat split; auto; try lia; try congruence.
    + apply IH; [ exact Fb | lia ].
Qed.

(** X9.  The tokens of the stream that are not error tokens are slices
    of the source: they point into it, lie one after the other without
    overlap, in the order of the stream, end within the text, and none
    but the EOF token is empty. *)
Theorem token_slices_in_order :
  forall src : list Z,
    in_order 0 (List.length src) (slices (tokenize src)).
Proof.
  intro src. unfold tokenize.
  apply (tokens_from_in_order (S (List.length src)) (initLexer src) 0).
  - unfold in_bounds; simpl; lia.
  - simpl; lia.
Qed.

(** ** The lexer: the bytes of identifiers and numbers *)

(** Every byte a loop [while (cond(peek)) advance] passes satisfies the
    condition. *)
Lemma advance_while_all (cond : Z -> bool) (fuel : nat) (lx : Lexer) (i : nat) :
  (current lx <= i < current (advance_while cond fuel lx))%nat ->
  cond (byte_at (source lx) i) = true.
Proof.
  revert lx; induction fuel as [| f IH]; intros lx Hi; simpl in Hi; [ lia | ].
  destruct (cond (peek lx)) eqn:E; [ | lia ].
  destruct (Nat.eq_dec i (current lx)) as [-> | Hne]; [ exact E | ].
  apply (IH (snd (lex_advance lx))). simpl; lia.
Qed.

(** The branch of [scanToken] that returns an identifier. *)
Lemma scanToken_identifier (lx : Lexer) :
  tk_type (fst (scanToken lx)) = TOKEN_IDENTIFIER ->
  isIdentifierStart (peek (token_start lx)) = true /\
  scanToken lx = identifier (snd (lex_advance (token_start lx))).
Proof.
  unfold scanToken. fold (token_start lx).
  destruct (isAtEnd (token_start lx)); [ discriminate | ].
  unfold lex_advance; cbv zeta iota beta. cbn [snd].
  destruct (isIdentifierStart (peek (token_start lx))); [ auto | ].
  destruct (isDigit (peek (token_start lx))).
  { unfold number. destruct (_ && _); discriminate. }
  repeat match goal with
         | |- context [if ?b then _ else _] => destruct b; try discriminate
         end;
    unfold two_char, lex_string;
    repeat match goal with
           | |- context [lex_match ?a ?b] => destruct (lex_match a b) as [[] ?]
           | |- context [if ?b then _ else _] => destruct b
           end; discriminate.
Qed.

(** The branch of [scanToken] that returns a number. *)
Lemma scanToken_number (lx : Lexer) :
  tk_type (fst (scanToken lx)) = TOKEN_NUMBER ->
  isDigit (peek (token_start lx)) = true /\
  scanToken lx = number (snd (lex_advance (token_start lx))).
Proof.
  unfold scanToken. fold (token_start lx).
  destruct (isAtEnd (token_start lx)); [ discriminate | ].
  unfold lex_advance; cbv zeta iota beta. cbn [snd].
  destruct (isIdentifierStart (peek (token_start lx))).
  { intro H. rewrite identifier_is_never_keyword in H by reflexivity.
    discriminate. }
  destruct (isDigit (peek (token_start lx))); [ auto | ].
  repeat match goal with
         | |- context [if ?b then _ else _] => destruct b; try discriminate
         end;
    unfold two_char, lex_string;
    repeat match goal with
           | |- context [lex_match ?a ?b] => destruct (lex_match a b) as [[] ?]
           | |- context [if ?b then _ else _] => destruct b
           end; discriminate.
Qed.

Lemma token_start_source (lx : Lexer) :
  source (token_start lx) = source lx.
Proof. unfold token_start; simpl. apply follows_skipWhitespace. Qed.

(** X10.  An identifier token is a maximal run of identifier bytes: it
    begins with a byte [isIdentifierStart] accepts, every byte of it is
    accepted by [isIdentifierPart], and the byte after it is not. *)
Theorem identifier_is_maximal_run :
  forall (lx lx' : Lexer) (t : Token),
    scanToken lx = (t, lx') ->
    tk_type t = TOKEN_IDENTIFIER ->
    tk_start t = SrcPtr (start lx') /\
    tk_length t = Z.of_nat (current lx' - start lx') /\
    (start lx' < current lx')%nat /\
    isIdentifierStart (byte_at (source lx) (start lx')) = true /\
    (forall i, (start lx' <= i < current lx')%nat ->
               isIdentifierPart (byte_at (source lx) i) = true) /\
    isIdentifierPart (byte_at (source lx) (current lx')) = false.
Proof.
  intros lx lx' t R Ht.
  assert (H : tk_type (fst (scanToken lx)) = TOKEN_IDENTIFIER)
    by (rewrite R; exact Ht).
  apply scanToken_identifier in H as [Hs Hid].
  rewrite R in Hid. unfold identifier in Hid.
  set (lx1 := snd (lex_advance (token_start lx))) in *.
  set (lx2 := advance_while isIdentifierPart (remaining lx1) lx1) in *.
  assert (Hlx' : lx' = lx2 /\ t = makeToken lx2 TOKEN_IDENTIFIER).
  { destruct (lookup_keyword lx2 hindiKeywords);
      injection Hid as Et El; subst; split; auto.
    simpl in Ht; rewrite Ht; reflexivity. }
  destruct Hlx' as [-> ->].
  destruct (advance_while_source_start isIdentifierPart (remaining lx1) lx1)
    as [Hsrc Hst].
  pose proof (advance_while_current isIdentifierPart (remaining lx1) lx1) as Hc.
  pose proof (advance_while_remaining_stops isIdentifierPart lx1 eq_refl)
    as Hstop.
  fold lx2 in Hsrc, Hst, Hc, Hstop.
  assert (Hsrc1 : source lx1 = source lx)
    by (unfold lx1; simpl; apply follows_skipWhitespace).
  assert (Hst1 : start lx1 = current (skipWhitespace lx)) by reflexivity.
  assert (Hc1 : current lx1 = S (current (skipWhitespace lx))) by reflexivity.
  assert (Hpk : peek (token_start lx) = byte_at (source lx) (start lx2)).
  { unfold peek. rewrite token_start_source, Hst, Hst1. reflexivity. }
  rewrite Hpk in Hs.
  repeat split; try reflexivity; try lia; try exact Hs.
  - intros i Hi.
    destruct (Nat.eq_dec i (start lx2)) as [-> | Hne].
    + unfold isIdentifierPart; rewrite Hs; reflexivity.
    + rewrite <- Hsrc1.
      apply (advance_while_all isIdentifierPart (remaining lx1) lx1).
      fold lx2. lia.
  - unfold peek in Hstop. rewrite Hsrc, Hsrc1 in Hstop. exact Hstop.
Qed.

Lemma identifier_is_maximal_run_witness :
  let lx := initLexer (bytes_of_string "  ab1+c") in
  let r := scanToken lx in
  tk_start (fst r) = SrcPtr (start (snd r)) /\
  tk_length (fst r) = Z.of_nat (current (snd r) - start (snd r)) /\
  (start (snd r) < current (snd r))%nat /\
  isIdentifierStart (byte_at (source lx) (start (snd r))) = true /\
  (forall i, (start (snd r) <= i < current (snd r))%nat ->
             isIdentifierPart (byte_at (source lx) i) = true) /\
  isIdentifierPart (byte_at (source lx) (current (snd r))) = false.
Proof.
  apply (identifier_is_maximal_run
           (initLexer (bytes_of_string "  ab1+c"))
           (snd (scanToken (initLexer (bytes_of_string "  ab1+c"))))
           (fst (scanToken (initLexer (bytes_of_string "  ab1+c"))))).
  - vm_compute; reflexivity.
  - vm_compute; reflexivity.
Defined.

(** X11.  A number token is a non-empty run of digits, optionally
    followed by one '.' and a second non-empty run of digits; the byte
    after it is not a digit.  A '.' that no digit follows is not part of
    the token. *)
Theorem number_is_digits_dot_digits :
  forall (lx lx' : Lexer) (t : Token),
    scanToken lx = (t, lx') ->
    tk_type t = TOKEN_NUMBER ->
    tk_start t = SrcPtr (start lx') /\
    tk_length t = Z.of_nat (current lx' - start lx') /\
    isDigit (byte_at (source lx) (current lx')) = false /\
    exists k,
      (start lx' < k <= current lx')%nat /\
      (forall i, (start lx' <= i < k)%nat ->
                 isDigit (byte_at (source lx) i) = true) /\
      (k = current lx' \/
       (byte_at (source lx) k = 46 /\ (S k < current lx')%nat /\
        forall i, (k < i < current lx')%nat ->
                  isDigit (byte_at (source lx) i) = true)).
Proof.
  intros lx lx' t R Ht.
  assert (H : tk_type (fst (scanToken lx)) = TOKEN_NUMBER)
    by (rewrite R; exact Ht).
  apply scanToken_number in H as [Hs Hnum].
  rewrite R in Hnum. unfold number in Hnum.
  set (lx1 := snd (lex_advance (token_start lx))) in *.
  set (lxa := advance_while isDigit (remaining lx1) lx1) in *.
  assert (Hsrc1 : source lx1 = source lx)
    by (unfold lx1; simpl; apply follows_skipWhitespace).
  assert (Hc1 : current lx1 = S (start lx1)) by reflexivity.
  assert (Hpk : peek (token_start lx) = byte_at (source lx) (start lx1)).
  { unfold peek. rewrite token_start_source. reflexivity. }
  rewrite Hpk in Hs.
  destruct (advance_while_source_start isDigit (remaining lx1) lx1)
    as [Hsrca Hsta].
  pose proof (advance_while_current isDigit (remaining lx1) lx1) as Hca.
  pose proof (advance_while_remaining_stops isDigit lx1 eq_refl) as Hstopa.
  fold lxa in Hsrca, Hsta, Hca, Hstopa.
  assert (Hfirst : forall i, (start lx1 <= i < current lxa)%nat ->
                             isDigit (byte_at (source lx) i) = true).
  { intros i Hi. destruct (Nat.eq_dec i (start lx1)) as [-> | Hne];
      [ exact Hs | ].
    rewrite <- Hsrc1.
    apply (advance_while_all isDigit (remaining lx1) lx1). fold lxa. lia. }
  set (lx2 := snd (lex_advance lxa)) in *.
  set (lx3 := advance_while isDigit (remaining lx2) lx2) in *.
  destruct ((peek lxa =? 46) && isDigit (peekNext lxa)) eqn:E;
    injection Hnum as -> ->.
  - apply andb_prop in E as [Edot Enext]. apply Z.eqb_eq in Edot.
    destruct (advance_while_source_start isDigit (remaining lx2) lx2)
      as [Hsrc3 Hst3].
    pose proof (advance_while_remaining_stops isDigit lx2 eq_refl) as Hstop3.
    fold lx3 in Hsrc3, Hst3, Hstop3.
    assert (Hsrc2 : source lx2 = source lx)
      by (unfold lx2; simpl; congruence).
    assert (Hprog : (S (current lx2) <= current lx3)%nat).
    { unfold lx3, remaining. apply advance_while_progress.
      unfold peekNext, isAtEnd in Enext. rewrite Edot in Enext.
      simpl in Enext. exact Enext. }
    assert (Hc2 : current lx2 = S (current lxa)) by reflexivity.
    assert (Hst2 : start lx2 = start lxa) by reflexivity.
    unfold peek in Hstop3, Edot.
    rewrite Hsrc3, Hsrc2 in Hstop3. rewrite Hsrca, Hsrc1 in Edot.
    repeat split; try exact Hstop3.
    exists (current lxa). rewrite Hst3, Hst2, Hsta.
    split; [ lia | ]. split; [ exact Hfirst | ].
    right. split; [ exact Edot | ]. split; [ lia | ].
    intros i Hi. rewrite <- Hsrc2.
    apply (advance_while_all isDigit (remaining lx2) lx2). fold lx3. lia.
  - unfold peek in Hstopa. rewrite Hsrca, Hsrc1 in Hstopa.
    repeat split; try exact Hstopa.
    exists (current lxa). rewrite Hsta.
    split; [ lia | ]. split; [ exact Hfirst | ]. left; reflexivity.
Qed.

Lemma number_is_digits_dot_digits_witness :
  let lx := initLexer (bytes_of_string "12.5.") in
  let r := scanToken lx in
  tk_start (fst r) = SrcPtr (start (snd r)) /\
  tk_length (fst r) = Z.of_nat (current (snd r) - start (snd r)) /\
  isDigit (byte_at (source lx) (current (snd r))) = false /\
  exists k,
    (start (snd r) < k <= current (snd r))%nat /\
    (forall i, (start (snd r) <= i < k)%nat ->
               isDigit (byte_at (source lx) i) = true) /\
    (k = current (snd r) \/
     (byte_at (source lx) k = 46 /\ (S k < current (snd r))%nat /\
      forall i, (k < i < current (snd r))%nat ->
                isDigit (byte_at (source lx) i) = true)).
Proof.
  apply (number_is_digits_dot_digits
           (initLexer (bytes_of_string "12.5."))
           (snd (scanToken (initLexer (bytes_of_string "12.5."))))
           (fst (scanToken (initLexer (bytes_of_string "12.5."))))).
  - vm_compute; reflexivity.
  - vm_compute; reflexivity.
Defined.

(** ** The parser: [advance] always returns *)

Open Scope pm_scope.

Lemma advance_loop_returns (fuel : nat) (p : Parser) :
  in_bounds (lexer p) ->
  (List.length (source (lexer p)) - current (lexer p) < fuel)%nat ->
  exists p',
    advance_loop fuel p = Done tt p' /\
    tk_type (p_current p') <> TOKEN_ERROR /\
    p_previous p' = p_previous p /\
    in_bounds (lexer p') /\
    source (lexer p') = source (lexer p) /\
    (current (lexer p) <= current (lexer p'))%nat /\
    (tk_type (p_current p') <> TOKEN_EOF ->
     (current (lexer p) < current (lexer p'))%nat).
Proof.
  revert p; induction fuel as [| f IH]; intros p Hb Hf; [ lia | ].
  cbn [advance_loop].
  destruct (scanToken_follows (lexer p) Hb) as (Fs & Fb & Fc & Fsc & Fne & _).
  destruct (scanToken (lexer p)) as [t lx] eqn:R; cbn [fst snd] in *.
  destruct (tt_eqb (tk_type t) TOKEN_ERROR) eqn:E; cbn [negb].
  - apply tt_eqb_eq in E.
    assert (Hlt : (start lx < current lx)%nat)
      by (apply Fne; rewrite E; discriminate).
    unfold bind, parserError; cbn [panicMode].
    destruct (panicMode p);
      match goal with
      | |- exists p', advance_loop f ?q = _ /\ _ =>
        destruct (IH q) as (p' & R' & Ht & Hp & Hb' & Hs & Hc & _);
          [ exact Fb | unfold in_bounds in *; simpl; rewrite Fs in *; lia | ];
          exists p'; simpl in *; repeat split; auto; try congruence; lia
      end.
  - apply tt_eqb_neq in E. eexists; repeat split; simpl; auto; try lia.
    intro Hne. specialize (Fne Hne). lia.
Qed.

(** X12.  [advance] returns for every parser whose lexer stands inside
    the text: it skips the error tokens, so the new current token is
    never an error token, the old current token becomes the previous
    one, and the lexer stays inside the same text; unless the new token
    is EOF the lexer has moved forward. *)
Theorem advance_always_returns :
  forall p : Parser,
    in_bounds (lexer p) ->
    exists p',
      advance p = Done tt p' /\
      tk_type (p_current p') <> TOKEN_ERROR /\
      p_previous p' = p_current p /\
      in_bounds (lexer p') /\
      source (lexer p') = source (lexer p) /\
      (current (lexer p) <= current (lexer p'))%nat /\
      (tk_type (p_current p') <> TOKEN_EOF ->
       (current (lexer p) < current (lexer p'))%nat).
Proof.
  intros p Hb. unfold advance.
  apply (advance_loop_returns (S (remaining (lexer p)))
           (mkParser (lexer p) (p_current p) (p_current p) (hadError p)
                     (panicMode p) (p_stderr p))).
  - exact Hb.
  - unfold remaining; simpl; lia.
Qed.

Lemma advance_always_returns_witness :
  exists p',
    initParser (initLexer (bytes_of_string "@@ x")) = Done tt p' /\
    tk_type (p_current p') <> TOKEN_ERROR /\
    p_previous p' = blank_token /\
    in_bounds (lexer p') /\
    source (lexer p') = bytes_of_string "@@ x" /\
    (0 <= current (lexer p'))%nat /\
    (tk_type (p_current p') <> TOKEN_EOF -> (0 < current (lexer p'))%nat).
Proof.
  apply (advance_always_returns
           (mkParser (initLexer (bytes_of_string "@@ x")) blank_token
                     blank_token false false [])).
  unfold in_bounds; simpl; lia.
Defined.

(** ** The parser: a parse without error gives a complete tree *)

Lemma clean_ret {A : Type} (Q : A -> Prop) (a : A) : Q a -> clean Q (ret a).
Proof. intros HQ p a' p' Hs R. injection R as <- <-. auto. Qed.

Lemma clean_out_of_fuel {A : Type} (Q : A -> Prop) : clean Q out_of_fuel.
Proof. intros p a p' _ R; discriminate. Qed.

Lemma clean_weaken {A : Type} (Q Q' : A -> Prop) (m : PM A) :
  (forall a, Q a -> Q' a) -> clean Q m -> clean Q' m.
Proof.
  intros HQ Hm p a p' Hs R. destruct (Hm p a p' Hs R) as [Hs' H].
  split; [ exact Hs' | ]. intro He. destruct (H He); auto.
Qed.

(** The continuation is proved with the result of the first part as a
    premise of its own result: whether that premise holds is known only
    once the whole run has ended without error. *)
Lemma clean_bind {A B : Type} (Qm : A -> Prop) (Q : B -> Prop)
      (m : PM A) (k : A -> PM B) :
  clean Qm m -> (forall a, clean (fun b => Qm a -> Q b) (k a)) ->
  clean Q (bind m k).
Proof.
  intros Hm Hk p b p'' Hs R. unfold bind in R.
  destruct (m p) as [a p' | |] eqn:E; try discriminate.
  destruct (Hm p a p' Hs E) as [Hs' Hm'].
  destruct (Hk a p' b p'' Hs' R) as [Hs'' Hk'].
  split; [ exact Hs'' | ]. intro He. destruct (Hk' He) as [He' HQ].
  destruct (Hm' He') as [He0 HQm]. auto.
Qed.

Lemma clean_of_steps {A : Type} (m : PM A) :
  steps m -> clean (fun _ => True) m.
Proof.
  intros Hm p a p' Hs R. specialize (Hm p). rewrite R in Hm; simpl in Hm.
  unfold sound in *.
  destruct Hm as [(Hpm & Hhe & _) | (Hn & Hpm & Hhe & _)].
  - split; [ intro H; rewrite Hhe; apply Hs; rewrite <- Hpm; exact H | ].
    intro; split; [ congruence | exact I ].
  - split; [ intro; assumption | ]. intro; congruence.
Qed.

(** After [parserError] the parser has an error. *)
Lemma clean_parserError (message : string) :
  clean (fun _ => False) (parserError message).
Proof.
  intros p a p' Hs R. unfold parserError in R.
  destruct (panicMode p) eqn:E; injection R as <- <-; simpl.
  - split; [ exact Hs | ]. intro He. rewrite (Hs E) in He; discriminate.
  - split; [ intro; reflexivity | ]. intro; discriminate.
Qed.

Lemma clean_deref (o : option AstNode) :
  clean (fun e => o = Some e) (deref o).
Proof.
  intros p a p' Hs R. unfold deref in R.
  destruct o; [ injection R as <- <- | discriminate ]. auto.
Qed.

Lemma clean_built (o : option AstNode) : clean (fun r => r = o) (built o).
Proof.
  intros p a p' Hs R. unfold built in R.
  destruct o; [ injection R as <- <- | discriminate ]. auto.
Qed.

(** Without an error [consume] has found its token. *)
Lemma clean_consume (ty : TokenType) (message : string) :
  clean (fun ok => ok = true) (consume ty message).
Proof.
  unfold consume.
  eapply clean_bind; [ apply clean_of_steps, steps_check | intro c ].
  destruct c.
  - eapply clean_bind; [ apply clean_of_steps, steps_advance | intro ].
    apply clean_ret; auto.
  - eapply clean_bind; [ apply clean_parserError | intro ].
    apply clean_ret. cbv beta. tauto.
Qed.

Lemma forallb_snoc {A : Type} (f : A -> bool) (l : list A) (a : A) :
  forallb f l = true -> f a = true -> forallb f (l ++ [a]) = true.
Proof.
  intros Hl Ha. rewrite forallb_app, Hl; simpl. rewrite Ha; reflexivity.
Qed.

Lemma present_optional (o : option AstNode) :
  present o = true -> optional o = true.
Proof. destruct o; [ auto | discriminate ]. Qed.

Lemma block_ptr_present (o : option AstNode) :
  block_ptr o = true -> present o = true.
Proof. destruct o as [[] |]; try discriminate; intro H; exact H. Qed.

Lemma present_some (o : option AstNode) :
  present o = true -> exists n, o = Some n /\ complete n = true.
Proof. destruct o as [n |]; [ exists n; auto | discriminate ]. Qed.

Lemma present_createFor (i c inc b : option AstNode) :
  optional i = true -> optional c = true -> optional inc = true ->
  present b = true -> present (Some (createFor i c inc b)) = true.
Proof.
  intros Hi Hc Hinc Hb. unfold createFor.
  destruct i, c, inc, b; simpl in *;
    rewrite ?Hi, ?Hc, ?Hinc, ?Hb; try reflexivity; discriminate.
Qed.

(** The end of a branch: the premises gathered on the way give the
    completeness of the node built. *)
Ltac clean_finish :=
  cbv beta; intros; subst;
  try solve [ apply present_createFor; assumption ];
  repeat match goal with
         | H : present ?o = true |- _ =>
           is_var o; apply present_some in H; destruct H as (? & -> & H)
         | H : block_ptr ?o = true |- _ =>
           is_var o; destruct o as [[] |]; try discriminate H
         | H : Some _ = Some _ |- _ => injection H as H; subst
         | H : False |- _ => contradiction
         | H : false = true |- _ => discriminate H
         end;
  unfold createIf, createWhile, createExpressionStmt, createBinary,
    createUnary, createVarDecl, createFor, createReturn, createLiteral,
    createVariable, createAssignment in *;
  repeat match goal with
         | |- context [match ?o with Some _ => _ | None => _ end] =>
           is_var o; destruct o
         end;
  cbn [present optional block_ptr complete forallb andb] in *;
  repeat match goal with
         | H : ?x = true, H' : context [?x] |- _ => rewrite H in H'
         | H : ?x = true |- context [?x] => rewrite H
         end;
  cbn [andb] in *;
  repeat match goal with
         | H : false = true |- _ => discriminate H
         | H : true = true -> _ |- _ => specialize (H eq_refl)
         end;
  auto using forallb_snoc, present_optional, block_ptr_present.

(** A call whose result is known from a lemma or from a hypothesis. *)
(** The loops of the grammar; their lemmas are added below. *)
Ltac clean_loops := fail.

Ltac clean_call :=
  first [ match goal with
          | H : clean _ ?m |- clean _ ?m => exact H
          | H : forall _, clean _ _ |- clean _ _ => apply H
          end
        | clean_loops
        | apply clean_consume
        | apply clean_deref
        | apply clean_built
        | apply clean_parserError
        | apply clean_of_steps; solve [ steps_layer ] ].

Ltac clean_layer :=
  repeat match goal with
         | |- clean _ (bind _ _) => eapply clean_bind; [ clean_first | intro ]
         | |- clean _ (if ?b then _ else _) => destruct b
         | |- clean _ (match ?x with _ => _ end) => destruct x
         | |- clean _ (ret _) => apply clean_ret; solve [ clean_finish ]
         | |- clean _ out_of_fuel => apply clean_out_of_fuel
         | |- clean _ _ =>
           eapply clean_weaken; [ | clean_call ]; solve [ clean_finish ]
         end
with clean_first :=
  first [ match goal with
          | |- @clean (option AstNode) ?Q (if _ then _ else _) =>
            is_evar Q; unify Q (fun o : option AstNode => optional o = true);
            solve [ clean_layer ]
          | |- @clean (list (option AstNode)) ?Q (if _ then _ else _) =>
            is_evar Q;
            unify Q (fun l : list (option AstNode) => forallb present l = true);
            solve [ clean_layer ]
          end
        | clean_call ].

Lemma clean_binary_loop (matchOp : PM bool) (operand : PM (option AstNode)) :
  steps matchOp -> clean (fun o => present o = true) operand ->
  forall fuel expr,
    clean (fun r => present expr = true -> present r = true)
          (binary_loop fuel matchOp operand expr).
Proof.
  intros Hm Ho fuel; induction fuel as [| f IH]; intro expr;
    cbn [binary_loop]; clean_layer.
Qed.

Lemma clean_node_loop (more : PM bool) (item : PM (option AstNode)) :
  steps more -> clean (fun o => present o = true) item ->
  forall fuel acc,
    clean (fun l => forallb complete acc = true -> forallb complete l = true)
          (node_loop fuel more item acc).
Proof.
  intros Hm Hi fuel; induction fuel as [| f IH]; intro acc;
    cbn [node_loop]; clean_layer.
Qed.

Lemma clean_args_loop (item : PM (option AstNode)) :
  clean (fun o => present o = true) item ->
  forall fuel acc,
    clean (fun l => forallb present acc = true -> forallb present l = true)
          (args_loop fuel item acc).
Proof.
  intros Hi fuel; induction fuel as [| f IH]; intro acc;
    cbn [args_loop]; clean_layer.
Qed.

Ltac clean_loops ::=
  first [ eapply clean_binary_loop; [ solve [ steps_layer ] | clean_call ]
        | eapply clean_node_loop; [ solve [ steps_layer ] | clean_call ]
        | eapply clean_args_loop; clean_call ].

Lemma grammar_clean_all (fuel : nat) : grammar_clean fuel.
Proof.
  induction fuel as [| f IH]; unfold grammar_clean.
  - repeat apply conj; intros; apply clean_out_of_fuel.
  - destruct IH as (Hdecl & Hvar & Hfun & Hstmt & Hblock & Hif & Hwhile &
                    Hfor & Hret & Hes & Hexpr & Hassign & Hor & Hand & Heq &
                    Hcmp & Hterm & Hfactor & Hunary & Hcall & Hprim).
    pose proof (grammar_steps_all f) as
        (Sdecl & Svar & Sfun & Sstmt & Sblock & Sif & Swhile &
         Sfor & Sret & Ses & Sexpr & Sassign & Sor & Sand & Seq &
         Scmp & Sterm & Sfactor & Sunary & Scall & Sprim).
    repeat apply conj; intros;
      cbn [declaration varDeclaration functionDeclaration statement
           blockStatement ifStatement whileStatement forStatement
           returnStatement expressionStatement expression assignment
           logicalOr logicalAnd equality comparison term factor unary
           call primary];
      clean_layer.
Qed.

Lemma clean_parse (fuel : nat) :
  clean (fun program => complete program = true /\
                        exists decls, program = AST_PROGRAM 0 0 decls)
        (parse fuel).
Proof.
  unfold parse. pose proof (grammar_clean_all fuel) as (Hdecl & _).
  pose proof (grammar_steps_all fuel) as (Sdecl & _).
  eapply clean_bind; [ clean_call | intro decls ].
  apply clean_ret. cbv beta. intro H. split; [ apply H; reflexivity | ].
  exists decls; reflexivity.
Qed.

Lemma parse_source_clean (fuel : nat) (src : list Z) (program : AstNode)
      (p : Parser) :
  parse_source fuel src = Done program p ->
  hadError p = false ->
  sound p /\ complete program = true /\
  exists decls, program = AST_PROGRAM 0 0 decls.
Proof.
  intros R He. unfold parse_source, initParser in R.
  set (p0 := mkParser (initLexer src) blank_token blank_token false false [])
    in *.
  assert (Hs0 : sound p0) by (intro H; discriminate H).
  destruct (advance p0) as [u p1 | p1 | p1] eqn:Ra; try discriminate.
  destruct (clean_of_steps advance steps_advance p0 u p1 Hs0 Ra) as [Hs1 _].
  destruct (clean_parse fuel p1 program p Hs1 R) as [Hs Hq].
  destruct (Hq He) as (_ & Hc & Hd). auto.
Qed.

(** X13.  When the driver's parse of a source ends without error, the
    tree is a program node in which every child the later stages read
    without a null check is present, and nothing was written to the
    diagnostic stream. *)
Theorem parse_without_error_is_complete :
  forall (fuel : nat) (src : list Z) (program : AstNode) (p : Parser),
    parse_source fuel src = Done program p ->
    hadError p = false ->
    complete program = true /\
    (exists decls, program = AST_PROGRAM 0 0 decls) /\
    panicMode p = false /\
    p_stderr p = [].
Proof.
  intros fuel src program p R He.
  pose proof (evolves_parse_source fuel src) as Hev. rewrite R in Hev.
  cbn [final] in Hev.
  destruct (parse_source_clean fuel src program p R He) as (Hs & Hc & Hd).
  split; [ exact Hc | ]. split; [ exact Hd | ].
  destruct (evolves_from_start
              (mkParser (initLexer src) blank_token blank_token false false [])
              p eq_refl eq_refl Hev) as [_ Hne].
  assert (Hst : p_stderr p = []).
  { destruct (p_stderr p) eqn:E; [ reflexivity | ].
    destruct Hne as [_ Hh]; [ discriminate | congruence ]. }
  split; [ | exact Hst ].
  destruct (panicMode p) eqn:E; [ | reflexivity ].
  rewrite (Hs E) in He; discriminate.
Qed.

Lemma parse_without_error_is_complete_witness :
  exists program p,
    parse_source 30 (bytes_of_string "f(1, -x) + 2; { y = 3; }")
    = Done program p /\
    complete program = true /\
    (exists decls, program = AST_PROGRAM 0 0 decls) /\
    panicMode p = false /\
    p_stderr p = [].
Proof.
  destruct (parse_source 30 (bytes_of_string "f(1, -x) + 2; { y = 3; }"))
    as [program p | p | p] eqn:R; try (vm_compute in R; discriminate R).
  exists program, p. split; [ reflexivity | ].
  apply (parse_without_error_is_complete
           30 (bytes_of_string "f(1, -x) + 2; { y = 3; }") program p R).
  vm_compute in R. injection R as _ <-. reflexivity.
Defined.

Close Scope pm_scope.
Open Scope sm_scope.

(** ** The analyzer reads no null pointer in a complete tree *)

Lemma returns_on_table (f : SymbolTable -> SymbolTable) : returns (on_table f).
Proof. intro st; eexists; eexists; reflexivity. Qed.

Lemma returns_set_return_type (ty : TokenType) : returns (set_return_type ty).
Proof. intro st; eexists; eexists; reflexivity. Qed.

Lemma returns_define
      (f : SymbolTable -> option Symbol * SymbolTable * list StderrLine) :
  returns (define f).
Proof.
  intro st. unfold define. destruct (f (table st)) as [[r t'] lines].
  eexists; eexists; reflexivity.
Qed.

#[local] Hint Resolve returns_on_table returns_set_return_type returns_define
  returns_analyzeExpression : returns.

Lemma returns_define_params (src : list Z) (params : list (Token * TokenType)) :
  returns (define_params src params).
Proof.
  induction params as [| [name ty] rest IH]; cbn [define_params];
    returns_layer.
Qed.

Lemma returns_check_condition (c : AstNode) (ty : TokenType) :
  returns (check_condition (Some c) ty).
Proof. unfold check_condition; returns_layer. Qed.

Lemma returns_analyzeVarDecl (src : list Z) (line column : Z) (name : Token)
      (varType : TokenType) (initializer : option AstNode) :
  returns (analyzeVarDecl src line column name varType initializer).
Proof. unfold analyzeVarDecl; returns_layer. Qed.

Lemma returns_analyzeReturnStatement (src : list Z) (line column : Z)
      (value : option AstNode) :
  returns (analyzeReturnStatement src line column value).
Proof. unfold analyzeReturnStatement; returns_layer. Qed.

Lemma returns_analyzeExpressionStatement (src : list Z) (e : option AstNode) :
  returns (analyzeExpressionStatement src e).
Proof.
  unfold analyzeExpressionStatement, analyzeExpression_ptr; returns_layer.
Qed.

Lemma returns_analyzeExpression_ptr (src : list Z) (o : option AstNode) :
  returns (analyzeExpression_ptr src o).
Proof. unfold analyzeExpression_ptr; returns_layer. Qed.

Lemma returns_declarations_loop (f : AstNode -> SM bool) (l : list AstNode) :
  Forall (fun d => returns (f d)) l -> returns (declarations_loop f l).
Proof.
  induction 1 as [| d rest Hd _ IH]; cbn [declarations_loop]; returns_layer.
Qed.

Lemma returns_analyzeBlock (f : AstNode -> SM bool) (l : list AstNode) :
  Forall (fun d => returns (f d)) l -> returns (analyzeBlock f l).
Proof.
  intro H. pose proof (returns_declarations_loop f l H).
  unfold analyzeBlock; returns_layer.
Qed.

#[local] Hint Resolve returns_define_params returns_check_condition
  returns_analyzeVarDecl returns_analyzeReturnStatement
  returns_analyzeExpressionStatement returns_analyzeExpression_ptr : returns.

(** The children of a complete node that are analyzed as statements. *)
Lemma complete_children (P : AstNode -> Prop) (l : list AstNode) :
  Forall (fun n => complete n = true -> P n) l ->
  forallb complete l = true -> Forall P l.
Proof.
  induction 1 as [| n rest Hn _ IH]; cbn [forallb]; intro Hc;
    [ constructor | ].
  apply andb_prop in Hc as [H1 H2]. constructor; auto.
Qed.

Lemma returns_analyzeNode (src : list Z) (node : AstNode) :
  complete node = true ->
  forall entry, returns (analyzeNode src entry node).
Proof.
  induction node using AstNode_nested_ind; intros Hc entry;
    cbn [complete] in Hc;
    repeat match goal with
           | H : _ && _ = true |- _ => apply andb_prop in H as [? ?]
           end;
    repeat match goal with
           | H : match ?o with Some _ => _ | None => false end = true |- _ =>
             destruct o; [ | discriminate H ]
           | H : match ?o with Some _ => _ | None => true end = true |- _ =>
             destruct o
           | H : match ?n with AST_BLOCK _ _ _ => _ | _ => _ end = true |- _ =>
             destruct n; try discriminate H
           end;
    cbn [Popt] in *;
    cbn [analyzeNode];
    try (destruct entry);
    returns_layer;
    match goal with
    | HF : Forall _ ?l, HC : forallb complete ?l = true
      |- returns (analyzeBlock _ ?l) =>
      apply returns_analyzeBlock;
        apply (complete_children
                 (fun n => returns (analyzeNode src AsDeclaration n)) l);
        [ eapply Forall_impl; [ | exact HF ];
          cbv beta; intros n Hn Hcn; apply Hn; exact Hcn
        | exact HC ]
    | IH : _ -> forall entry, returns (analyzeNode _ entry _),
      HC : forallb complete ?l = true
      |- returns (analyzeBlock _ ?l) =>
      exact (IH HC AsStatement)
    end.
Qed.

Lemma returns_register_functions (src : list Z) (decls : list AstNode) :
  returns (register_functions src decls).
Proof.
  induction decls as [| d rest IH]; cbn [register_functions];
    [ apply returns_retS | ].
  destruct d; returns_layer.
Qed.

Lemma returns_analyzeProgram (src : list Z) (line column : Z)
      (declarations : list AstNode) :
  forallb complete declarations = true ->
  returns (analyzeProgram src (AST_PROGRAM line column declarations)).
Proof.
  intro Hc. pose proof (returns_register_functions src declarations).
  assert (returns (declarations_loop (analyzeDeclaration src) declarations)).
  { apply returns_declarations_loop.
    apply (complete_children
             (fun n => returns (analyzeDeclaration src n)) declarations);
      [ | exact Hc ].
    apply Forall_forall. intros n _ Hn.
    apply returns_analyzeNode; exact Hn. }
  cbn [analyzeProgram]. returns_layer.
  intro st; eexists; eexists; reflexivity.
Qed.

(** X14.  In a complete tree the analyzer reads no null pointer and no
    node of the wrong kind: [analyzeProgram], [analyzeDeclaration] and
    [analyzeStatement] return from every state. *)
Theorem complete_tree_is_analyzed :
  forall (src : list Z) (node : AstNode) (st : SemState),
    complete node = true ->
    (forall entry, exists ok st', analyzeNode src entry node st = Some (ok, st')) /\
    (forall line column declarations,
        node = AST_PROGRAM line column declarations ->
        exists ok st', analyzeProgram src node st = Some (ok, st')).
Proof.
  intros src node st Hc. split.
  - intro entry. apply returns_analyzeNode; exact Hc.
  - intros line column declarations ->.
    apply returns_analyzeProgram; exact Hc.
Qed.

Lemma complete_tree_is_analyzed_witness :
  (forall entry, exists ok st',
      analyzeNode parameter_then_use entry parameter_then_use_ast fresh_state
      = Some (ok, st')) /\
  (forall line column declarations,
      parameter_then_use_ast = AST_PROGRAM line column declarations ->
      exists ok st',
        analyzeProgram parameter_then_use parameter_then_use_ast fresh_state
        = Some (ok, st')).
Proof.
  apply (complete_tree_is_analyzed parameter_then_use parameter_then_use_ast
                                   fresh_state).
  reflexivity.
Defined.

Close Scope sm_scope.
Open Scope gm_scope.

(** ** The code generator reads no null pointer in a complete tree *)

Lemma generateExpression_complete (src : list Z) (node : AstNode) :
  complete node = true -> exists text, generateExpression src node = Some text.
Proof.
  induction node using AstNode_nested_ind; intro Hc;
    cbn [complete] in Hc;
    repeat match goal with
           | H : _ && _ = true |- _ => apply andb_prop in H as [? ?]
           end;
    repeat match goal with
           | H : match ?o with Some _ => _ | None => false end = true |- _ =>
             destruct o; [ | discriminate H ]
           end;
    cbn [Popt] in *;
    cbn [generateExpression];
    repeat match goal with
           | IH : complete ?n = true -> exists _, generateExpression _ ?n = _,
             H : complete ?n = true |- _ =>
             destruct (IH H) as [? ->]; clear IH
           end;
    try solve [ eexists; reflexivity ].
  - destruct (tk_type value); eexists; reflexivity.
  - assert (Hargs : forall first_one,
               exists text,
                 (fix arguments_text (first_one : bool)
                      (args : list (option AstNode)) {struct args}
                    : option (list Z) :=
                    match args with
                    | [] => Some []
                    | a :: rest =>
                      match
                        match a with
                        | Some n => generateExpression src n
                        | None => None
                        end, arguments_text false rest
                      with
                      | Some t, Some ts =>
                        Some ((if first_one then []
                               else bytes_of_string ", ") ++ t ++ ts)
                      | _, _ => None
                      end
                    end) first_one args = Some text).
    { induction H as [| a rest Ha _ IH]; intro first_one;
        [ eexists; reflexivity | ].
      cbn [forallb] in Hc. apply andb_prop in Hc as [Hc1 Hc2].
      destruct a as [n |]; [ | discriminate Hc1 ].
      cbn [Popt] in Ha. destruct (Ha Hc1) as [t ->].
      destruct (IH Hc2 false) as [ts ->].
      eexists; reflexivity. }
    destruct (Hargs true) as [text ->]. eexists; reflexivity.
Qed.

Lemma appends_skipG (n : nat) : appends_at n skipG.
Proof.
  intros [out lvl] _ _. exists []. unfold skipG; simpl.
  rewrite app_nil_r; reflexivity.
Qed.

Lemma appends_emit (n : nat) (text : list Z) : appends_at n (emit text).
Proof. intros ctx _ _. exists text. reflexivity. Qed.

Lemma appends_emit_string (n : nat) (text : string) :
  appends_at n (emit_string text).
Proof. apply appends_emit. Qed.

Lemma appends_emitIndentation (n : nat) : appends_at n emitIndentation.
Proof. intros ctx _ _. eexists. reflexivity. Qed.

Lemma appends_thenG (n : nat) (a b : GM) :
  appends_at n a -> appends_at n b -> appends_at n (a >> b).
Proof.
  intros Ha Hb ctx H1 H2. destruct (Ha ctx H1 H2) as [t1 R1].
  unfold thenG; rewrite R1.
  destruct (Hb (mkCodeGen (output ctx ++ t1) (indentLevel ctx)) H1 H2)
    as [t2 R2].
  rewrite R2; simpl. exists (t1 ++ t2). rewrite app_assoc; reflexivity.
Qed.

Lemma appends_le (n n' : nat) (m : GM) :
  (n <= n')%nat -> appends_at n m -> appends_at n' m.
Proof. intros Hle Hm ctx H1 H2. apply Hm; lia. Qed.

Lemma appends_emit_expression (n : nat) (src : list Z) (o : option AstNode) :
  present o = true -> appends_at n (emit_expression src o).
Proof.
  intros Hp ctx _ _. destruct o as [e |]; [ | discriminate Hp ].
  destruct (generateExpression_complete src e Hp) as [text R].
  unfold emit_expression; rewrite R. exists text; reflexivity.
Qed.

Create HintDb appends.
#[local] Hint Resolve appends_skipG appends_emit appends_emit_string
  appends_emitIndentation appends_emit_expression : appends.

Ltac appends_layer :=
  repeat match goal with
         | |- appends_at _ (_ >> _) => apply appends_thenG
         | |- appends_at _ (if ?b then _ else _) => destruct b
         | |- appends_at _ (match ?x with _ => _ end) => destruct x
         | |- appends_at _ _ => solve [ auto with appends ]
         end.

Lemma appends_emit_params (n : nat) (src : list Z)
      (params : list (Token * TokenType)) :
  forall first_one, appends_at n (emit_params src first_one params).
Proof.
  induction params as [| [name ty] rest IH]; intro first_one;
    cbn [emit_params]; appends_layer.
Qed.

Lemma appends_generateVarDecl (n : nat) (src : list Z) (name : Token)
      (ty : TokenType) (init : option AstNode) :
  optional init = true -> appends_at n (generateVarDecl src name ty init).
Proof.
  intro H. unfold generateVarDecl.
  destruct init; appends_layer.
Qed.

Lemma appends_generateReturnStatement (n : nat) (src : list Z)
      (value : option AstNode) :
  optional value = true -> appends_at n (generateReturnStatement src value).
Proof.
  intro H. unfold generateReturnStatement.
  destruct value; appends_layer.
Qed.

Lemma appends_generateExpressionStatement (n : nat) (src : list Z)
      (e : option AstNode) :
  present e = true -> appends_at n (generateExpressionStatement src e).
Proof. intro H. unfold generateExpressionStatement. appends_layer. Qed.

Lemma appends_for_header (n : nat) (src : list Z)
      (init cond inc : option AstNode) :
  optional init = true -> optional cond = true -> optional inc = true ->
  appends_at n (for_header src init cond inc).
Proof.
  intros Hi Hc Hinc. unfold for_header.
  destruct cond, inc; destruct init as [[] |];
    cbn [optional complete] in Hi;
    appends_layer;
    match goal with
    | |- appends_at _ (match ?o with Some _ => _ | None => _ end) =>
      destruct o; appends_layer
    end.
Qed.

Lemma appends_generate_each (n : nat) (f : AstNode -> GM) (l : list AstNode) :
  Forall (fun d => appends_at n (f d)) l -> appends_at n (generate_each f l).
Proof.
  induction 1 as [| d rest Hd _ IH]; cbn [generate_each]; appends_layer.
Qed.

Lemma appends_generate_top (n : nat) (f : AstNode -> GM) (l : list AstNode) :
  Forall (fun d => appends_at n (f d)) l -> appends_at n (generate_top f l).
Proof.
  induction 1 as [| d rest Hd _ IH]; cbn [generate_top]; appends_layer.
Qed.

(** A block raises the level for its statements and lowers it again. *)
Lemma appends_generateBlock (n : nat) (f : AstNode -> GM) (l : list AstNode) :
  Forall (fun d => appends_at n (f d)) l ->
  appends_at (S n) (generateBlock f l).
Proof.
  intros H ctx H1 H2.
  pose proof (appends_generate_each n f l H) as He.
  unfold generateBlock, thenG, emitIndentation, emit, set_indent.
  cbn [output indentLevel].
  rewrite (int_succ_below_max (indentLevel ctx)) by lia.
  match goal with
  | |- context [generate_each f l ?c] =>
    destruct (He c) as [text R]; [ simpl; lia | simpl; lia | rewrite R ]
  end.
  cbn [output indentLevel].
  rewrite int_pred_above_min by (unfold INT_MAX, INT_MIN in *; lia).
  replace (indentLevel ctx + 1 - 1) with (indentLevel ctx) by lia.
  eexists. rewrite <- !app_assoc. reflexivity.
Qed.

#[local] Hint Resolve appends_emit_params appends_generateVarDecl
  appends_generateReturnStatement appends_generateExpressionStatement
  appends_for_header : appends.

Lemma appends_children (src : list Z) (l : list AstNode) :
  Forall (fun n => complete n = true ->
                   forall entry,
                     appends_at (nesting n) (generateNode src entry n)) l ->
  forallb complete l = true ->
  Forall (fun d => appends_at (list_max (map nesting l))
                              (generateNode src AsDeclaration d)) l.
Proof.
  intros HF Hc.
  pose proof (complete_children
                (fun n => forall entry,
                     appends_at (nesting n) (generateNode src entry n))
                l HF Hc) as H.
  pose proof (nesting_le_list_max l) as Hle.
  rewrite Forall_forall in *. intros d Hd.
  eapply appends_le; [ apply Hle; exact Hd | apply H; exact Hd ].
Qed.

Lemma appends_generateNode (src : list Z) (node : AstNode) :
  complete node = true ->
  forall entry, appends_at (nesting node) (generateNode src entry node).
Proof.
  induction node using AstNode_nested_ind; intros Hc entry;
    cbn [complete] in Hc;
    repeat match goal with
           | H : _ && _ = true |- _ => apply andb_prop in H as [? ?]
           end;
    repeat match goal with
           | H : match ?o with Some _ => _ | None => false end = true |- _ =>
             destruct o; [ | discriminate H ]
           | H : match ?o with Some _ => _ | None => true end = true |- _ =>
             change (optional o = true) in H
           | H : match ?n with AST_BLOCK _ _ _ => _ | _ => _ end = true |- _ =>
             destruct n; try discriminate H
           end;
    cbn [Popt] in *;
    cbn [generateNode nesting];
    try (destruct entry);
    appends_layer;
    cbn [Popt optional] in *;
    try match goal with
        | HF : Forall _ ?l, HC : forallb complete ?l = true
          |- appends_at _ (generateBlock _ ?l) =>
          apply appends_generateBlock; apply appends_children; assumption
        | IH : _ -> forall entry, appends_at _ (generateNode _ entry _),
          HC : forallb complete ?l = true
          |- appends_at _ (generateBlock _ ?l) =>
          eapply appends_le; [ | exact (IH HC AsStatement) ];
            cbn [nesting]; lia
        | IH : complete ?a = true ->
               forall entry, appends_at _ (generateNode _ entry ?a)
          |- appends_at _ (generateNode _ _ ?a) =>
          eapply appends_le; [ | apply IH; assumption ]; lia
        end.
Qed.

Lemma appends_generateCode (src : list Z) (line column : Z)
      (declarations : list AstNode) (ctx : CodeGenContext) :
  forallb complete declarations = true ->
  INT_MIN <= indentLevel ctx ->
  indentLevel ctx + Z.of_nat (list_max (map nesting declarations)) < INT_MAX ->
  exists text,
    generateCode src (AST_PROGRAM line column declarations) ctx =
    Some (mkCodeGen (output ctx ++ includes ++ text) (indentLevel ctx)).
Proof.
  intros Hc H1 H2.
  assert (Htop : appends_at (list_max (map nesting declarations))
                            (generate_top (generateDeclaration src)
                                          declarations)).
  { apply appends_generate_top. apply appends_children; [ | exact Hc ].
    apply Forall_forall. intros n _. apply appends_generateNode. }
  cbn [generateCode]. unfold thenG, emit. cbn [output indentLevel].
  match goal with
  | |- context [generate_top _ _ ?c] =>
    destruct (Htop c) as [text R]; [ exact H1 | exact H2 | rewrite R ]
  end.
  exists text. cbn [output indentLevel]. unfold includes.
  rewrite <- !app_assoc. reflexivity.
Qed.

(** X15.  On a complete tree the code generator reads no null pointer:
    [generateDeclaration] and [generateStatement] return, they have
    only appended to the output, and the indentation level is what it
    was; [generateCode] writes the two include lines first.  The level
    must leave room for the blocks nested in the tree. *)
Theorem complete_tree_is_generated :
  forall (src : list Z) (node : AstNode) (ctx : CodeGenContext),
    complete node = true ->
    INT_MIN <= indentLevel ctx ->
    indentLevel ctx + Z.of_nat (nesting node) < INT_MAX ->
    (forall entry, exists text,
        generateNode src entry node ctx =
        Some (mkCodeGen (output ctx ++ text) (indentLevel ctx))) /\
    (forall line column declarations,
        node = AST_PROGRAM line column declarations ->
        exists text,
          generateCode src node ctx =
          Some (mkCodeGen (output ctx ++ includes ++ text) (indentLevel ctx))).
Proof.
  intros src node ctx Hc H1 H2. split.
  - intro entry. apply (appends_generateNode src node Hc entry ctx H1 H2).
  - intros line column declarations ->.
    apply appends_generateCode; assumption.
Qed.

Lemma complete_tree_is_generated_witness :
  (forall entry, exists text,
      generateNode parameter_then_use entry parameter_then_use_ast initCodeGen
      = Some (mkCodeGen ([] ++ text) 0)) /\
  (forall line column declarations,
      parameter_then_use_ast = AST_PROGRAM line column declarations ->
      exists text,
        generateCode parameter_then_use parameter_then_use_ast initCodeGen
        = Some (mkCodeGen ([] ++ includes ++ text) 0)).
Proof.
  apply (complete_tree_is_generated parameter_then_use parameter_then_use_ast
                                    initCodeGen).
  - reflexivity.
  - vm_compute; discriminate.
  - vm_compute; reflexivity.
Defined.

(** ** From an error-free parse to the generated code *)

(** X16.  The stages of the driver fit together: when the parse of a
    source ends without error, semantic analysis of the tree returns
    and code generation, started on an empty file at level 0, returns
    with the include lines followed by the code, the level back at 0.
    Neither stage reads a null pointer.  The tree must nest fewer than
    [INT_MAX] scopes. *)
Theorem error_free_parse_compiles :
  forall (fuel : nat) (src : list Z) (program : AstNode) (p : Parser),
    parse_source fuel src = Done program p ->
    hadError p = false ->
    Z.of_nat (nesting program) < INT_MAX ->
    (exists ok st,
        analyzeProgram src program fresh_state = Some (ok, st)) /\
    (exists text,
        generateCode src program initCodeGen =
        Some (mkCodeGen (includes ++ text) 0)).
Proof.
  intros fuel src program p R He Hn.
  destruct (parse_source_clean fuel src program p R He)
    as (_ & Hc & decls & ->).
  split.
  - apply returns_analyzeProgram; exact Hc.
  - apply (appends_generateCode src 0 0 decls initCodeGen Hc).
    + unfold INT_MIN; simpl; lia.
    + exact Hn.
Qed.

Lemma error_free_parse_compiles_witness :
  exists program p,
    parse_source 30 (bytes_of_string "f(1, -x) + 2; { y = 3; }")
    = Done program p /\
    (exists ok st,
        analyzeProgram (bytes_of_string "f(1, -x) + 2; { y = 3; }") program
                       fresh_state = Some (ok, st)) /\
    (exists text,
        generateCode (bytes_of_string "f(1, -x) + 2; { y = 3; }") program
                     initCodeGen = Some (mkCodeGen (includes ++ text) 0)).
Proof.
  destruct (parse_source 30 (bytes_of_string "f(1, -x) + 2; { y = 3; }"))
    as [program p | p | p] eqn:R; try (vm_compute in R; discriminate R).
  exists program, p. split; [ reflexivity | ].
  apply (error_free_parse_compiles
           30 (bytes_of_string "f(1, -x) + 2; { y = 3; }") program p R).
  - vm_compute in R. injection R as _ <-. reflexivity.
  - vm_compute in R. injection R as <- _. vm_compute. reflexivity.
Defined.

Close Scope gm_scope.

(** ** Resynchronisation *)

Open Scope pm_scope.

Lemma synchronize_loop_returns (fuel : nat) (p : Parser) :
  in_bounds (lexer p) ->
  (tk_type (p_current p) = TOKEN_EOF /\ (1 <= fuel)%nat) \/
  (List.length (source (lexer p)) - current (lexer p) + 1 < fuel)%nat ->
  exists p',
    synchronize_loop fuel p = Done tt p' /\
    (tk_type (p_current p') = TOKEN_EOF \/
     tk_type (p_previous p') = TOKEN_SEMICOLON \/
     synchronize_stop (tk_type (p_current p')) = true) /\
    source (lexer p') = source (lexer p) /\
    (current (lexer p) <= current (lexer p'))%nat.
Proof.
  revert p; induction fuel as [| f IH]; intros p Hb Hf; [ lia | ].
  cbn [synchronize_loop].
  destruct (tt_eqb (tk_type (p_current p)) TOKEN_EOF) eqn:E1.
  { apply tt_eqb_eq in E1. exists p; auto. }
  destruct (tt_eqb (tk_type (p_previous p)) TOKEN_SEMICOLON) eqn:E2.
  { apply tt_eqb_eq in E2. exists p; auto. }
  destruct (synchronize_stop (tk_type (p_current p))) eqn:E3.
  { exists p; auto. }
  apply tt_eqb_neq in E1.
  destruct Hf as [[Hf _] | Hf]; [ contradiction | ].
  destruct (advance_loop_returns (S (remaining (lexer p)))
              (mkParser (lexer p) (p_current p) (p_current p) (hadError p)
                        (panicMode p) (p_stderr p)) Hb)
    as (p1 & R1 & _ & _ & Hb1 & Hs1 & Hc1 & Hp1);
    [ unfold remaining; simpl; lia | ].
  fold (advance p) in R1. cbn [lexer] in Hs1, Hc1, Hp1.
  unfold bind; rewrite R1.
  destruct (IH p1 Hb1) as (p' & R' & Hstop & Hs' & Hc').
  - destruct (TokenType_eq_dec (tk_type (p_current p1)) TOKEN_EOF) as [He | Hne].
    + left; split; [ exact He | lia ].
    + right. specialize (Hp1 Hne). unfold in_bounds in Hb1.
      rewrite Hs1 in *. lia.
  - exists p'. repeat split; auto; try congruence; lia.
Qed.

(** X18.  [synchronize] returns for every parser whose lexer stands
    inside the text, and where it stops the current token is EOF or
    one of the keywords that begin a declaration or a statement, or the
    previous token is a semicolon. *)
Theorem synchronize_stops_at_boundary :
  forall p : Parser,
    in_bounds (lexer p) ->
    exists p',
      synchronize p = Done tt p' /\
      (tk_type (p_current p') = TOKEN_EOF \/
       tk_type (p_previous p') = TOKEN_SEMICOLON \/
       synchronize_stop (tk_type (p_current p')) = true) /\
      source (lexer p') = source (lexer p) /\
      (current (lexer p) <= current (lexer p'))%nat.
Proof.
  intros p Hb. unfold synchronize.
  apply (synchronize_loop_returns (S (remaining (lexer p)))
           (mkParser (lexer p) (p_current p) (p_previous p) (hadError p) false
                     (p_stderr p))).
  - exact Hb.
  - right. unfold remaining; simpl; lia.
Qed.

Lemma synchronize_stops_at_boundary_witness :
  exists p',
    synchronize (mkParser (initLexer (bytes_of_string "a b; c"))
                          (ident_at 0) blank_token true true []) =
    Done tt p' /\
    (tk_type (p_current p') = TOKEN_EOF \/
     tk_type (p_previous p') = TOKEN_SEMICOLON \/
     synchronize_stop (tk_type (p_current p')) = true) /\
    source (lexer p') = bytes_of_string "a b; c" /\
    (0 <= current (lexer p'))%nat.
Proof.
  apply (synchronize_stops_at_boundary
           (mkParser (initLexer (bytes_of_string "a b; c"))
                     (ident_at 0) blank_token true true [])).
  unfold in_bounds; simpl; lia.
Defined.

Close Scope pm_scope.

(** ** The lexer: string literals *)

(** Every byte the loop of [string] passes is neither the closing
    quote nor the NUL. *)
Lemma string_loop_all (fuel : nat) (lx : Lexer) (i : nat) :
  (current lx <= i < current (string_loop fuel lx))%nat ->
  byte_at (source lx) i <> 34 /\ byte_at (source lx) i <> 0.
Proof.
  revert lx; induction fuel as [| f IH]; intros lx Hi;
    cbn [string_loop] in Hi; [ lia | ].
  destruct (negb (peek lx =? 34) && negb (isAtEnd lx)) eqn:E; [ | lia ].
  destruct (Nat.eq_dec i (current lx)) as [-> | Hne].
  - apply andb_prop in E as [E1 E2]. unfold isAtEnd in E2.
    apply negb_true_iff in E1, E2. apply Z.eqb_neq in E1, E2.
    split; assumption.
  - destruct (peek lx =? 10);
      match type of Hi with
      | context [string_loop f ?l] =>
        apply (IH l); split; [ | apply Hi ]
      end;
      cbn [snd lex_advance current set_line_column]; lia.
Qed.

(** The branch of [scanToken] that returns a string. *)
Lemma scanToken_string (lx : Lexer) :
  tk_type (fst (scanToken lx)) = TOKEN_STRING ->
  peek (token_start lx) = 34 /\
  scanToken lx = lex_string (snd (lex_advance (token_start lx))).
Proof.
  unfold scanToken. fold (token_start lx).
  destruct (isAtEnd (token_start lx)); [ discriminate | ].
  unfold lex_advance; cbv zeta iota beta. cbn [snd].
  destruct (isIdentifierStart (peek (token_start lx))).
  { intro H. rewrite identifier_is_never_keyword in H by reflexivity.
    discriminate. }
  destruct (isDigit (peek (token_start lx))).
  { unfold number. destruct (_ && _); discriminate. }
  repeat match goal with
         | |- context [if ?b then _ else _] =>
           destruct b eqn:?; try discriminate
         end;
    try solve [ intro; split; [ apply Z.eqb_eq; assumption | reflexivity ] ];
    unfold two_char;
    repeat match goal with
           | |- context [lex_match ?a ?b] => destruct (lex_match a b) as [[] ?]
           end; discriminate.
Qed.

(** A string token begins and ends with a double quote, has no double
    quote and no NUL in between, and is therefore at least two bytes
    long. *)
Lemma string_token_shape :
  forall (lx lx' : Lexer) (t : Token),
    scanToken lx = (t, lx') ->
    tk_type t = TOKEN_STRING ->
    tk_start t = SrcPtr (start lx') /\
    tk_length t = Z.of_nat (current lx' - start lx') /\
    2 <= tk_length t /\
    byte_at (source lx) (start lx') = 34 /\
    byte_at (source lx) (current lx' - 1) = 34 /\
    (forall i, (start lx' < i < current lx' - 1)%nat ->
               byte_at (source lx) i <> 34 /\ byte_at (source lx) i <> 0).
Proof.
  intros lx lx' t R Ht.
  assert (H : tk_type (fst (scanToken lx)) = TOKEN_STRING)
    by (rewrite R; exact Ht).
  apply scanToken_string in H as [Hq Hstr].
  rewrite R in Hstr. unfold lex_string in Hstr. cbv zeta in Hstr.
  set (lx1 := snd (lex_advance (token_start lx))) in *.
  set (lx2 := string_loop (remaining lx1) lx1) in *.
  set (lx3 := snd (lex_advance lx2)) in *.
  assert (Hsrc1 : source lx1 = source lx)
    by (unfold lx1; simpl; apply follows_skipWhitespace).
  assert (Hc1 : current lx1 = S (start lx1)) by reflexivity.
  assert (Hpk : peek (token_start lx) = byte_at (source lx) (start lx1)).
  { unfold peek. rewrite token_start_source. reflexivity. }
  rewrite Hpk in Hq.
  destruct (follows_string_loop (remaining lx1) lx1) as (Hsrc2 & Hst2 & Hc2 & _).
  fold lx2 in Hsrc2, Hst2, Hc2.
  assert (Hstop : negb (peek lx2 =? 34) && negb (isAtEnd lx2) = false)
    by (apply string_loop_stops; unfold remaining; lia).
  destruct (isAtEnd lx2) eqn:E; injection Hstr as -> ->;
    [ discriminate Ht | ].
  assert (Hclose : peek lx2 = 34).
  { try rewrite E in Hstop. cbn [negb] in Hstop. rewrite andb_true_r in Hstop.
    apply negb_false_iff, Z.eqb_eq in Hstop. exact Hstop. }
  unfold peek in Hclose. rewrite Hsrc2, Hsrc1 in Hclose.
  assert (Hc3 : current lx3 = S (current lx2)) by reflexivity.
  assert (Hst3 : start lx3 = start lx1) by (unfold lx3; simpl; exact Hst2).
  repeat split; try reflexivity;
    try match goal with
        | Hi : (_ < _ < _)%nat |- _ =>
          rewrite Hst3, Hc3 in Hi; rewrite <- Hsrc1;
            apply (string_loop_all (remaining lx1) lx1); fold lx2; lia
        end.
  - change (2 <= Z.of_nat (current lx3 - start lx3)).
    rewrite Hst3, Hc3. lia.
  - rewrite Hst3. exact Hq.
  - rewrite Hc3.
    replace (S (current lx2) - 1)%nat with (current lx2) by lia. exact Hclose.
Qed.

Lemma firstn_until_nul (n : nat) (l : list Z) :
  (forall i, (i < n)%nat -> nth i l 0 <> 0) ->
  firstn n (until_nul l) = firstn n l.
Proof.
  revert l; induction n as [| n IH]; intros l H; [ reflexivity | ].
  destruct l as [| b l].
  - exfalso. apply (H 0%nat); [ lia | reflexivity ].
  - cbn [until_nul]. destruct (b =? 0) eqn:E.
    + apply Z.eqb_eq in E. exfalso. apply (H 0%nat); [ lia | exact E ].
    + cbn [firstn]. f_equal. apply IH.
      intros i Hi. apply (H (S i)). lia.
Qed.

Lemma firstn_snoc_nth (n : nat) (l : list Z) :
  (n < List.length l)%nat -> firstn (S n) l = firstn n l ++ [nth n l 0].
Proof.
  revert l; induction n as [| n IH]; intros [| b l] H; simpl in H; try lia.
  - reflexivity.
  - cbn [firstn nth app]. cbn [firstn] in IH.
    rewrite IH by lia. reflexivity.
Qed.

Lemma byte_at_in_source (src : list Z) (i : nat) :
  byte_at src i <> 0 -> (i < List.length src)%nat.
Proof.
  intro H. destruct (Nat.le_gt_cases (List.length src) i) as [L | L];
    [ | exact L ].
  unfold byte_at in H. rewrite nth_overflow in H by exact L. congruence.
Qed.

Lemma skipn_cons_nth (src : list Z) (i : nat) :
  (i < List.length src)%nat -> skipn i src = byte_at src i :: skipn (S i) src.
Proof.
  revert src; induction i as [| i IH]; intros [| b src] H; simpl in H; try lia.
  - reflexivity.
  - cbn [skipn]. rewrite IH by lia. reflexivity.
Qed.

(** X19.  A string token begins and ends with a double quote, has no
    double quote and no NUL in between, and is therefore at least two
    bytes long.  Hence the [length - 2] bytes the code generator prints
    from [start + 1] are exactly the text between the quotes: the
    literal is written as a quote, that text and a quote, which is the
    token's own text. *)
Theorem string_token_is_quoted :
  forall (lx lx' : Lexer) (t : Token),
    scanToken lx = (t, lx') ->
    tk_type t = TOKEN_STRING ->
    (tk_start t = SrcPtr (start lx') /\
     tk_length t = Z.of_nat (current lx' - start lx') /\
     2 <= tk_length t /\
     byte_at (source lx) (start lx') = 34 /\
     byte_at (source lx) (current lx' - 1) = 34 /\
     (forall i, (start lx' < i < current lx' - 1)%nat ->
                byte_at (source lx) i <> 34 /\ byte_at (source lx) i <> 0)) /\
    forall line column : Z,
      generateExpression (source lx) (AST_LITERAL line column t) =
      Some ([34] ++
            firstn (current lx' - start lx' - 2)
                   (skipn (S (start lx')) (source lx)) ++
            [34]) /\
      generateExpression (source lx) (AST_LITERAL line column t) =
      Some (token_slice (source lx) t).
Proof.
  intros lx lx' t R Ht.
  pose proof (string_token_shape lx lx' t R Ht)
    as (Hstart & Hlen & Hlong & Hopen & Hclose & Hinner).
  split; [ repeat split; try assumption; apply Hinner; assumption | ].
  intros line column.
  set (s := start lx') in *. set (c := current lx') in *.
  set (src := source lx) in *.
  assert (Hcs : (s + 2 <= c)%nat) by lia.
  assert (Hprint :
            print_slice src (tk_length t - 2) (ptr_add (tk_start t) 1) =
            firstn (c - s - 2) (skipn (S s) src)).
  { rewrite Hstart, Hlen. unfold print_slice, ptr_add, cstr.
    destruct (Z.of_nat (c - s) - 2 <? 0) eqn:E;
      [ apply Z.ltb_lt in E; lia | ].
    replace (Z.to_nat (Z.of_nat (c - s) - 2)) with (c - s - 2)%nat by lia.
    replace (s + 1)%nat with (S s) by lia.
    apply firstn_until_nul. intros i Hi.
    rewrite nth_skipn. apply (Hinner (S s + i)%nat). lia. }
  assert (Hgen :
            generateExpression src (AST_LITERAL line column t) =
            Some ([34] ++ firstn (c - s - 2) (skipn (S s) src) ++ [34])).
  { cbn [generateExpression]. rewrite Ht, Hprint. reflexivity. }
  split; [ exact Hgen | ]. rewrite Hgen. f_equal.
  unfold token_slice. rewrite Hstart, Hlen, Nat2Z.id.
  assert (Hs : (s < List.length src)%nat)
    by (apply byte_at_in_source; rewrite Hopen; discriminate).
  assert (Hc : (c - 1 < List.length src)%nat)
    by (apply byte_at_in_source; rewrite Hclose; discriminate).
  rewrite (skipn_cons_nth src s Hs), Hopen.
  set (n := (c - s - 2)%nat) in *.
  replace (c - s)%nat with (S (S n)) by (unfold n; lia).
  rewrite firstn_cons. cbn [app]. f_equal.
  rewrite firstn_snoc_nth by (rewrite length_skipn; unfold n; lia).
  f_equal. f_equal. rewrite nth_skipn.
  replace (S s + n)%nat with (c - 1)%nat by (unfold n; lia).
  symmetry. exact Hclose.
Qed.

Lemma string_token_is_quoted_witness :
  let src := [34; 104; 105; 34; 59] in
  let r := scanToken (mkLexer src 0 0 1 1) in
  (tk_start (fst r) = SrcPtr (start (snd r)) /\
   tk_length (fst r) = Z.of_nat (current (snd r) - start (snd r)) /\
   2 <= tk_length (fst r) /\
   byte_at src (start (snd r)) = 34 /\
   byte_at src (current (snd r) - 1) = 34 /\
   (forall i, (start (snd r) < i < current (snd r) - 1)%nat ->
              byte_at src i <> 34 /\ byte_at src i <> 0)) /\
  forall line column : Z,
    generateExpression src (AST_LITERAL line column (fst r)) =
    Some ([34] ++
          firstn (current (snd r) - start (snd r) - 2)
                 (skipn (S (start (snd r))) src) ++
          [34]) /\
    generateExpression src (AST_LITERAL line column (fst r)) =
    Some (token_slice src (fst r)).
Proof.
  apply (string_token_is_quoted
           (mkLexer [34; 104; 105; 34; 59] 0 0 1 1)
           (snd (scanToken (mkLexer [34; 104; 105; 34; 59] 0 0 1 1)))
           (fst (scanToken (mkLexer [34; 104; 105; 34; 59] 0 0 1 1)))).
  - vm_compute; reflexivity.
  - vm_compute; reflexivity.
Defined.

(** ** A reference after its declaration *)

Lemma reference_elsewhere_is_undefined_witness :
  let st :=
    mkSemState 0
      (mkSymbolTable
         [with_dataType (createSymbol declare_then_use (SrcPtr 25)
                                      SYMBOL_VARIABLE 0) TOKEN_INT] 0)
      TOKEN_VOID [] in
  analyzeVariable declare_then_use 1 29 (ident_at 28) st =
  Some (TOKEN_ERROR, semanticError 1 29 "Undefined variable." st).
Proof.
  apply (reference_elsewhere_is_undefined declare_then_use 1 29 (ident_at 28)
                                          28).
  - apply Forall_forall. intros b Hb Hz. subst b. revert Hb.
    vm_compute. intuition discriminate.
  - vm_compute. repeat constructor.
  - reflexivity.
  - constructor; [ | constructor ].
    exists 25%nat. split; [ vm_compute; repeat constructor | ].
    split; [ discriminate | reflexivity ].
Defined.
